(** * Web scientific calculator: lexer, parser and canonicalizer

    A shallow embedding of the calculator's front end:
    - [lexer.js] (embedded in [web-scientific-calculator.html]): class [Lexer],
      function [lex];
    - [parser.js]: class [Parser], function [parse];
    - [evaluateExpressionToLatex.js] and its older variant: [astToString],
      [getOperatorPrecedence], [needsParentheses], [needsParenthesesForUnary].

    JavaScript strings are sequences of UTF-16 code units; a one-character
    string such as [this.input[i]] is one code unit.  The regular expressions
    of the lexer carry no flag, so they test one code unit at a time. *)

From Stdlib Require Import List NArith Arith Bool String Ascii Lia.
Import ListNotations.

Set Warnings "-register-all".

(* ================================================================== *)
(** ** JavaScript strings                                              *)
(* ================================================================== *)

(** A UTF-16 code unit. *)
Definition char := N.

(** A JavaScript string. *)
Definition jsstring := list char.

(** Reads the bytes of a source literal as UTF-8 and gives the code units
    of the JavaScript string written that way.  A code point above the
    basic plane becomes a surrogate pair. *)
Fixpoint utf16_of_utf8 (bs : list N) : jsstring :=
  match bs with
  | [] => []
  | b1 :: r1 =>
    if (b1 <? 128)%N then b1 :: utf16_of_utf8 r1
    else if (b1 <? 224)%N then
      match r1 with
      | b2 :: r2 =>
        (N.land b1 31 * 64 + N.land b2 63)%N :: utf16_of_utf8 r2
      | [] => [b1]
      end
    else if (b1 <? 240)%N then
      match r1 with
      | b2 :: b3 :: r3 =>
        (N.land b1 15 * 4096 + N.land b2 63 * 64 + N.land b3 63)%N
          :: utf16_of_utf8 r3
      | _ => [b1]
      end
    else
      match r1 with
      | b2 :: b3 :: b4 :: r4 =>
        let cp := (N.land b1 7 * 262144 + N.land b2 63 * 4096
                   + N.land b3 63 * 64 + N.land b4 63)%N in
        let v := (cp - 65536)%N in
        (55296 + N.shiftr v 10)%N :: (56320 + N.land v 1023)%N
          :: utf16_of_utf8 r4
      | _ => [b1]
      end
  end.

Fixpoint bytes_of_string (s : string) : list N :=
  match s with
  | EmptyString => []
  | String a r => N_of_ascii a :: bytes_of_string r
  end.

(** The JavaScript string denoted by a literal of this file. *)
Definition str (s : string) : jsstring := utf16_of_utf8 (bytes_of_string s).

(** [a === b] on strings. *)
Fixpoint streq (a b : jsstring) : bool :=
  match a, b with
  | [], [] => true
  | x :: a', y :: b' => (x =? y)%N && streq a' b'
  | _, _ => false
  end.

(** [Array.prototype.join] over an array of strings; the same function
    joins token sequences in the statements below. *)
Fixpoint join {A} (sep : list A) (xs : list (list A)) : list A :=
  match xs with
  | [] => []
  | [x] => x
  | x :: r => x ++ sep ++ join sep r
  end.

(** [s.replace(c, '')] for a one-character pattern string: the first
    occurrence of [c] is removed, later ones stay. *)
Fixpoint remove_first (c : char) (s : jsstring) : jsstring :=
  match s with
  | [] => []
  | x :: r => if (x =? c)%N then r else x :: remove_first c r
  end.

(* ================================================================== *)
(** ** Lexer ([lexer.js])                                              *)
(* ================================================================== *)

Module Lexer.

(** [TokenType]: the table of token kinds; [type_name] is the string the
    table maps each key to. *)
Inductive TokenType :=
| NUMBER | IDENTIFIER | COMMAND
| PLUS | MINUS | MULTIPLY | DIVIDE | POWER | EQUALS
| LPAREN | RPAREN | LBRACKET | RBRACKET | LBRACE | RBRACE
| COMMA | SEMICOLON | DOT
| LESS_THAN | GREATER_THAN | LESS_EQUAL | GREATER_EQUAL | NOT_EQUAL
| UNKNOWN | EOF.

Definition type_name (t : TokenType) : jsstring :=
  match t with
  | NUMBER => str "Number" | IDENTIFIER => str "Identifier"
  | COMMAND => str "Command"
  | PLUS => str "Plus" | MINUS => str "Minus" | MULTIPLY => str "Multiply"
  | DIVIDE => str "Divide" | POWER => str "Power" | EQUALS => str "Equals"
  | LPAREN => str "LParen" | RPAREN => str "RParen"
  | LBRACKET => str "LBracket" | RBRACKET => str "RBracket"
  | LBRACE => str "LBrace" | RBRACE => str "RBrace"
  | COMMA => str "Comma" | SEMICOLON => str "Semicolon" | DOT => str "Dot"
  | LESS_THAN => str "LessThan" | GREATER_THAN => str "GreaterThan"
  | LESS_EQUAL => str "LessEqual" | GREATER_EQUAL => str "GreaterEqual"
  | NOT_EQUAL => str "NotEqual"
  | UNKNOWN => str "Unknown" | EOF => str "EOF"
  end.

Definition TokenType_eqb (a b : TokenType) : bool :=
  match a, b with
  | NUMBER, NUMBER | IDENTIFIER, IDENTIFIER | COMMAND, COMMAND
  | PLUS, PLUS | MINUS, MINUS | MULTIPLY, MULTIPLY | DIVIDE, DIVIDE
  | POWER, POWER | EQUALS, EQUALS | LPAREN, LPAREN | RPAREN, RPAREN
  | LBRACKET, LBRACKET | RBRACKET, RBRACKET | LBRACE, LBRACE
  | RBRACE, RBRACE | COMMA, COMMA | SEMICOLON, SEMICOLON | DOT, DOT
  | LESS_THAN, LESS_THAN | GREATER_THAN, GREATER_THAN
  | LESS_EQUAL, LESS_EQUAL | GREATER_EQUAL, GREATER_EQUAL
  | NOT_EQUAL, NOT_EQUAL | UNKNOWN, UNKNOWN | EOF, EOF => true
  | _, _ => false
  end.

(** A token: [{ type, value }]. *)
Record Token := mkToken { type : TokenType; value : jsstring }.

(** The lexer object.  [currentChar] is not stored: the constructor and
    [advance] keep it equal to [input[position]], or [null] past the end,
    so it is read off the other two fields.  The fields [state] and
    [tokens] are left to [tokenize], the only method that uses one. *)
Record Lexer := mkLexer {
  input : jsstring;
  position : nat;
  line : nat;
  column : nat
}.

(** [new Lexer(input)]. *)
Definition new (s : jsstring) : Lexer :=
  {| input := s; position := 0; line := 1; column := 1 |}.

(** [this.currentChar]; [None] is [null]. *)
Definition currentChar (l : Lexer) : option char :=
  nth_error (input l) (position l).

(** Characters not yet read: the bound of every scanning loop. *)
Definition remaining (l : Lexer) : nat := List.length (input l) - position l.

(** [oc === c] for a character or [null]. *)
Definition is_char (c : char) (oc : option char) : bool :=
  match oc with Some d => (d =? c)%N | None => false end.

(** [advance()]; the line feed is code unit 10. *)
Definition advance (l : Lexer) : Lexer :=
  let position' := S (position l) in
  let column' := S (column l) in
  if is_char 10%N (nth_error (input l) position') then
    {| input := input l; position := position';
       line := S (line l); column := 1 |}
  else
    {| input := input l; position := position';
       line := line l; column := column' |}.

(** [peek(offset = 1)]. *)
Definition peek (l : Lexer) : option char :=
  nth_error (input l) (position l + 1).

(** [/\s/]: the white space and line terminator code units. *)
Definition is_whitespace (c : char) : bool :=
  ((9 <=? c) && (c <=? 13) || (c =? 32) || (c =? 160) || (c =? 5760)
   || (8192 <=? c) && (c <=? 8202) || (c =? 8232) || (c =? 8233)
   || (c =? 8239) || (c =? 8287) || (c =? 12288) || (c =? 65279))%N.

(** [/[0-9]/]. *)
Definition is_digit (c : char) : bool := ((48 <=? c) && (c <=? 57))%N.

(** [/[a-zA-Z]/]. *)
Definition is_letter (c : char) : bool :=
  ((65 <=? c) && (c <=? 90) || (97 <=? c) && (c <=? 122))%N.

(** [/[a-zA-Zπ_]/]; the glyph is U+03C0. *)
Definition is_identifier_start (c : char) : bool :=
  (is_letter c || (c =? 960) || (c =? 95))%N.

(** [/[a-zA-Zπ0-9_]/]. *)
Definition is_identifier_part (c : char) : bool :=
  (is_letter c || (c =? 960) || is_digit c || (c =? 95))%N.

(** [/[0-9]/.test(this.peek())]: [null] becomes the text "null", which
    holds no digit. *)
Definition is_digit_opt (oc : option char) : bool :=
  match oc with Some c => is_digit c | None => false end.

(** [skipWhitespace()]: the loop runs at most once per character left. *)
Fixpoint skipWhitespace_loop (n : nat) (l : Lexer) : Lexer :=
  match n with
  | 0 => l
  | S k =>
    match currentChar l with
    | Some c => if is_whitespace c then skipWhitespace_loop k (advance l) else l
    | None => l
    end
  end.

Definition skipWhitespace (l : Lexer) : Lexer :=
  skipWhitespace_loop (remaining l) l.

(** [processNumber()]. *)
Fixpoint processNumber_loop (n : nat) (result : jsstring) (hasDot : bool)
    (l : Lexer) : jsstring * Lexer :=
  match n with
  | 0 => (result, l)
  | S k =>
    match currentChar l with
    | Some c =>
      if is_digit c || (c =? 46)%N && negb hasDot then
        processNumber_loop k (result ++ [c])
          (if (c =? 46)%N then true else hasDot) (advance l)
      else (result, l)
    | None => (result, l)
    end
  end.

Definition processNumber (l : Lexer) : Token * Lexer :=
  let (result, l') := processNumber_loop (remaining l) [] false l in
  ({| type := NUMBER; value := result |}, l').

(** The loop shared by [processIdentifier()] and [processCommand()]:
    append characters while the class [p] matches. *)
Fixpoint scan_loop (p : char -> bool) (n : nat) (result : jsstring)
    (l : Lexer) : jsstring * Lexer :=
  match n with
  | 0 => (result, l)
  | S k =>
    match currentChar l with
    | Some c =>
      if p c then scan_loop p k (result ++ [c]) (advance l) else (result, l)
    | None => (result, l)
    end
  end.

(** [processIdentifier()]. *)
Definition processIdentifier (l : Lexer) : Token * Lexer :=
  let (result, l') := scan_loop is_identifier_part (remaining l) [] l in
  ({| type := IDENTIFIER; value := result |}, l').

(** [processCommand()]: the backslash is skipped and the text starts
    with one. *)
Definition processCommand (l : Lexer) : Token * Lexer :=
  let l1 := advance l in
  let (result, l') := scan_loop is_letter (remaining l1) (str "\") l1 in
  ({| type := COMMAND; value := result |}, l').

(** [operatorMap]. *)
Definition operatorMap (c : char) : option TokenType :=
  match c with
  | 43%N => Some PLUS
  | 45%N => Some MINUS
  | 42%N => Some MULTIPLY
  | 47%N => Some DIVIDE
  | 94%N => Some POWER
  | 61%N => Some EQUALS
  | 40%N => Some LPAREN
  | 41%N => Some RPAREN
  | 91%N => Some LBRACKET
  | 93%N => Some RBRACKET
  | 123%N => Some LBRACE
  | 125%N => Some RBRACE
  | 44%N => Some COMMA
  | 59%N => Some SEMICOLON
  | 46%N => Some DOT
  | 60%N => Some LESS_THAN
  | 62%N => Some GREATER_THAN
  | _ => None
  end.

(** [processOperator()], called with a current character [c]. *)
Definition processOperator (c : char) (l : Lexer) : Token * Lexer :=
  if (c =? 60)%N && is_char 61%N (peek l) then
    ({| type := LESS_EQUAL; value := str "<=" |}, advance (advance l))
  else if (c =? 62)%N && is_char 61%N (peek l) then
    ({| type := GREATER_EQUAL; value := str ">=" |}, advance (advance l))
  else if (c =? 33)%N && is_char 61%N (peek l) then
    ({| type := NOT_EQUAL; value := str "!=" |}, advance (advance l))
  else
    match operatorMap c with
    | Some t => ({| type := t; value := [c] |}, advance l)
    | None => ({| type := UNKNOWN; value := [c] |}, advance l)
    end.

(** [getNextToken()].  The method calls itself after skipping white
    space; [fuel] bounds that recursion and [None] means it ran out. *)
Fixpoint getNextToken_fuel (fuel : nat) (l : Lexer) : option (Token * Lexer) :=
  match fuel with
  | 0 => None
  | S k =>
    match currentChar l with
    | None => Some ({| type := EOF; value := [] |}, l)
    | Some c =>
      if is_whitespace c then getNextToken_fuel k (skipWhitespace l)
      else if is_digit c || (c =? 46)%N && is_digit_opt (peek l) then
        Some (processNumber l)
      else if is_identifier_start c then Some (processIdentifier l)
      else if (c =? 92)%N then Some (processCommand l)
      else Some (processOperator c l)
    end
  end.

(** After [skipWhitespace()] the current character is no white space, so
    the method calls itself at most once. *)
Definition getNextToken (l : Lexer) : option (Token * Lexer) :=
  getNextToken_fuel 2 l.

(** [tokenize()]: the loop pushes tokens until the end-of-input token
    shows up.  [fuel] bounds the number of iterations. *)
Fixpoint tokenize_loop (fuel : nat) (tokens : list Token) (l : Lexer)
    : option (list Token) :=
  match fuel with
  | 0 => None
  | S k =>
    match getNextToken l with
    | None => None
    | Some (token, l') =>
      match type token with
      | EOF => Some tokens
      | _ => tokenize_loop k (tokens ++ [token]) l'
      end
    end
  end.

Definition tokenize (l : Lexer) : option (list Token) :=
  tokenize_loop (S (remaining l)) [] l.

(** [lex(input)]. *)
Definition lex (s : jsstring) : option (list Token) := tokenize (new s).

End Lexer.

(* ================================================================== *)
(** ** Parser ([parser.js])                                            *)
(* ================================================================== *)

(** An AST node, or [null]: the parser puts [null] where recovery left a
    position empty, and [astToString] reads it.  The constructors are the
    values of [ASTNodeType]; their arguments are the fields of the object
    literal that builds the node. *)
Inductive Node :=
| Null
| NumberLiteral (value : jsstring)
| Identifier (value : jsstring)
| BinaryExpression (operator : jsstring) (left right : Node)
| UnaryExpression (operator : jsstring) (operand : Node)
| FunctionCall (name : jsstring) (arguments : list Node)
| ArrayExpression (elements : list Node)
| MatrixExpression (rows : list (list Node))
| ComparisonExpression (operator : jsstring) (left right : Node)
| AssignmentExpression (operator : jsstring) (left right : Node)
| ParenthesizedExpression (expression : Node).

Module Parser.
Import Lexer.

(** The parser object. *)
Record Parser := mkParser {
  tokens : list Token;
  position : nat;
  errors : list jsstring
}.

(** [new Parser(tokens)]. *)
Definition new (ts : list Token) : Parser :=
  {| tokens := ts; position := 0; errors := [] |}.

(** What a method call ends in: a value and the object's new state, a
    [TypeError] thrown by a property read on [null] (nothing in the class
    catches it, so it carries the state up to [parse]), or no fuel left. *)
Inductive Result (A : Type) :=
| Return (a : A) (p : Parser)
| Throw (p : Parser)
| OutOfFuel.
Arguments Return {A} a p.
Arguments Throw {A} p.
Arguments OutOfFuel {A}.

(** A method: a function of the object's state. *)
Definition M (A : Type) := Parser -> Result A.

Definition ret {A} (a : A) : M A := fun p => Return a p.

Definition bind {A B} (m : M A) (f : A -> M B) : M B :=
  fun p =>
    match m p with
    | Return a p' => f a p'
    | Throw p' => Throw p'
    | OutOfFuel => OutOfFuel
    end.

Definition throw {A} : M A := fun p => Throw p.

Declare Scope parser_scope.
Delimit Scope parser_scope with parser.
Notation "x <- m ;; k" := (bind m (fun x => k))
  (at level 61, m at next level, right associativity) : parser_scope.
Notation "m ;; k" := (bind m (fun _ => k))
  (at level 61, right associativity) : parser_scope.
Local Open Scope parser_scope.

(** [peek(offset = 0)]; every call of the class leaves the offset out. *)
Definition peek (p : Parser) : option Token :=
  nth_error (tokens p) (position p).

(** [this.peek()?.type]. *)
Definition peek_type (p : Parser) : option TokenType :=
  option_map type (peek p).

(** [this.peek()?.type === t]. *)
Definition peek_is (t : TokenType) (p : Parser) : bool :=
  match peek_type p with
  | Some u => TokenType_eqb u t
  | None => false
  end.

(** [addError(message)]. *)
Definition addError (message : jsstring) : M unit :=
  fun p =>
    let errorMsg :=
      match peek p with
      | Some token =>
        message ++ str " トークン: " ++ value token ++ str " ("
          ++ type_name (type token) ++ str ")"
      | None => message
      end in
    Return tt {| tokens := tokens p; position := position p;
                 errors := errors p ++ [errorMsg] |}.

(** [${expectedType}] in a template: a left-out argument reads
    "undefined". *)
Definition expected_text (expectedType : option TokenType) : jsstring :=
  match expectedType with
  | Some t => type_name t
  | None => str "undefined"
  end.

(** [this.position++]. *)
Definition advance : M unit :=
  fun p => Return tt {| tokens := tokens p; position := S (position p);
                        errors := errors p |}.

(** [consume(expectedType)]; [None] is the left-out argument, and the
    [null] result. *)
Definition consume (expectedType : option TokenType) : M (option Token) :=
  fun p =>
    match peek p with
    | None =>
      (addError (str "予期せぬ入力の終わりです。" ++ expected_text expectedType
                 ++ str "が必要です。") ;;
       ret None) p
    | Some token =>
      match expectedType with
      | Some t =>
        if negb (TokenType_eqb (type token) t) then
          (addError (type_name t ++ str "が必要ですが、"
                     ++ type_name (type token) ++ str "が見つかりました。") ;;
           ret None) p
        else (advance ;; ret (Some token)) p
      | None => (advance ;; ret (Some token)) p
      end
    end.

(** [this.consume().value]: reading [value] off [null] throws. *)
Definition consume_value : M jsstring :=
  t <- consume None ;;
  match t with
  | Some token => ret (value token)
  | None => throw
  end.

(** The operators of the loop in [parseComparison]. *)
Definition is_comparison_operator (t : TokenType) : bool :=
  match t with
  | LESS_THAN | GREATER_THAN | LESS_EQUAL | GREATER_EQUAL | EQUALS
  | NOT_EQUAL => true
  | _ => false
  end.

Definition peek_in (f : TokenType -> bool) (p : Parser) : bool :=
  match peek_type p with
  | Some u => f u
  | None => false
  end.

(** The methods of the class call each other; every call takes one unit of
    [fuel], so [fuel] bounds the depth of the call stack, a loop turn
    counting as a call. *)
Fixpoint parsePrimary (fuel : nat) : M Node :=
  match fuel with
  | 0 => fun _ => OutOfFuel
  | S k => fun p =>
    match peek p with
    | None => (addError (str "予期せぬ入力の終わりです。式が必要です。") ;; ret Null) p
    | Some token =>
      match type token with
      | NUMBER => (consume None ;; ret (NumberLiteral (value token))) p
      | IDENTIFIER => (consume None ;; ret (Identifier (value token))) p
      | COMMAND =>
        let funcName := value token in
        (consume None ;;
         if streq funcName (str "\frac") then parseFracCommand k
         else
           fun p1 =>
             if peek_is LBRACE p1 then
               (consume (Some LBRACE) ;;
                a <- parseExpression k ;;
                consume (Some RBRACE) ;;
                args <- parseBraceArguments k [a] ;;
                ret (FunctionCall funcName args)) p1
             else if peek_is LPAREN p1 then
               (consume (Some LPAREN) ;;
                args <- (fun p2 =>
                           if negb (peek_is RPAREN p2) then
                             (a <- parseExpression k ;;
                              parseCommaList k [a]) p2
                           else ret [] p2) ;;
                consume (Some RPAREN) ;;
                ret (FunctionCall funcName args)) p1
             else
               (a <- parsePrimary k ;;
                ret (FunctionCall funcName [a])) p1) p
      | LPAREN =>
        (consume (Some LPAREN) ;;
         expr <- parseExpression k ;;
         consume (Some RPAREN) ;;
         ret (ParenthesizedExpression expr)) p
      | LBRACKET => parseArrayExpression k p
      | LBRACE => parseMatrixExpression k p
      | PLUS | MINUS =>
        (operator <- consume_value ;;
         operand <- parsePrimary k ;;
         ret (UnaryExpression operator operand)) p
      | _ =>
        (addError (str "予期せぬトークンです: " ++ type_name (type token)) ;;
         consume None ;;
         ret Null) p
      end
    end
  end

(** The loop [while (this.peek()?.type === 'LBrace')] of a command's
    brace-delimited arguments. *)
with parseBraceArguments (fuel : nat) (args : list Node) : M (list Node) :=
  match fuel with
  | 0 => fun _ => OutOfFuel
  | S k => fun p =>
    if peek_is LBRACE p then
      (consume (Some LBRACE) ;;
       a <- parseExpression k ;;
       consume (Some RBRACE) ;;
       parseBraceArguments k (args ++ [a])) p
    else ret args p
  end

(** The loop [while (this.peek()?.type === 'Comma')], written out twice
    in the source: for a command's arguments in parentheses and for the
    elements of an array. *)
with parseCommaList (fuel : nat) (elements : list Node) : M (list Node) :=
  match fuel with
  | 0 => fun _ => OutOfFuel
  | S k => fun p =>
    if peek_is COMMA p then
      (consume (Some COMMA) ;;
       e <- parseExpression k ;;
       parseCommaList k (elements ++ [e])) p
    else ret elements p
  end

with parseArrayExpression (fuel : nat) : M Node :=
  match fuel with
  | 0 => fun _ => OutOfFuel
  | S k =>
    consume (Some LBRACKET) ;;
    fun p =>
      if peek_is RBRACKET p then
        (consume (Some RBRACKET) ;; ret (ArrayExpression [])) p
      else
        (e <- parseExpression k ;;
         elements <- parseCommaList k [e] ;;
         consume (Some RBRACKET) ;;
         ret (ArrayExpression elements)) p
  end

with parseFracCommand (fuel : nat) : M Node :=
  match fuel with
  | 0 => fun _ => OutOfFuel
  | S k => fun p =>
    if peek_is LBRACE p then
      (consume (Some LBRACE) ;;
       numerator <- parseExpression k ;;
       consume (Some RBRACE) ;;
       fun p1 =>
         if peek_is LBRACE p1 then
           (consume (Some LBRACE) ;;
            denominator <- parseExpression k ;;
            consume (Some RBRACE) ;;
            ret (FunctionCall (str "\frac") [numerator; denominator])) p1
         else
           (addError (str "\frac コマンドの分母が見つかりません。{式} の形式が必要です。") ;;
            ret Null) p1) p
    else
      (addError (str "\frac コマンドの分子が見つかりません。{式} の形式が必要です。") ;;
       ret Null) p
  end

with parseMatrixExpression (fuel : nat) : M Node :=
  match fuel with
  | 0 => fun _ => OutOfFuel
  | S k =>
    consume (Some LBRACE) ;;
    fun p =>
      if peek_is RBRACE p then
        (consume (Some RBRACE) ;; ret (MatrixExpression [])) p
      else
        (e <- parseExpression k ;;
         rc <- parseMatrixRows k [] [e] ;;
         let rows := fst rc in
         let currentRow := snd rc in
         let rows :=
           if 0 <? List.length currentRow then rows ++ [currentRow]
           else rows in
         consume (Some RBRACE) ;;
         ret (MatrixExpression rows)) p
  end

(** The loop [while (this.peek() && this.peek().type !== 'RBrace')] of
    [parseMatrixExpression]; it gives back [rows] and [currentRow]. *)
with parseMatrixRows (fuel : nat) (rows : list (list Node))
    (currentRow : list Node) : M (list (list Node) * list Node) :=
  match fuel with
  | 0 => fun _ => OutOfFuel
  | S k => fun p =>
    match peek p with
    | None => ret (rows, currentRow) p
    | Some token =>
      match type token with
      | RBRACE => ret (rows, currentRow) p
      | COMMA =>
        (consume (Some COMMA) ;;
         e <- parseExpression k ;;
         parseMatrixRows k rows (currentRow ++ [e])) p
      | SEMICOLON =>
        (consume (Some SEMICOLON) ;;
         e <- parseExpression k ;;
         parseMatrixRows k (rows ++ [currentRow]) [e]) p
      | _ =>
        (addError (str "行列内で予期せぬトークンです: "
                   ++ type_name (type token)) ;;
         consume None ;;
         parseMatrixRows k rows currentRow) p
      end
    end
  end

with parseExponent (fuel : nat) : M Node :=
  match fuel with
  | 0 => fun _ => OutOfFuel
  | S k => node <- parsePrimary k ;; parseExponent_loop k node
  end

with parseExponent_loop (fuel : nat) (node : Node) : M Node :=
  match fuel with
  | 0 => fun _ => OutOfFuel
  | S k => fun p =>
    if peek_is POWER p then
      (operator <- consume_value ;;
       right <- parsePrimary k ;;
       parseExponent_loop k (BinaryExpression operator node right)) p
    else ret node p
  end

with parseTerm (fuel : nat) : M Node :=
  match fuel with
  | 0 => fun _ => OutOfFuel
  | S k => node <- parseExponent k ;; parseTerm_loop k node
  end

with parseTerm_loop (fuel : nat) (node : Node) : M Node :=
  match fuel with
  | 0 => fun _ => OutOfFuel
  | S k => fun p =>
    if peek_is MULTIPLY p || peek_is DIVIDE p then
      (operator <- consume_value ;;
       right <- parseExponent k ;;
       parseTerm_loop k (BinaryExpression operator node right)) p
    else ret node p
  end

with parseAdditive (fuel : nat) : M Node :=
  match fuel with
  | 0 => fun _ => OutOfFuel
  | S k => node <- parseTerm k ;; parseAdditive_loop k node
  end

with parseAdditive_loop (fuel : nat) (node : Node) : M Node :=
  match fuel with
  | 0 => fun _ => OutOfFuel
  | S k => fun p =>
    if peek_is PLUS p || peek_is MINUS p then
      (operator <- consume_value ;;
       right <- parseTerm k ;;
       parseAdditive_loop k (BinaryExpression operator node right)) p
    else ret node p
  end

with parseComparison (fuel : nat) : M Node :=
  match fuel with
  | 0 => fun _ => OutOfFuel
  | S k => node <- parseAdditive k ;; parseComparison_loop k node
  end

with parseComparison_loop (fuel : nat) (node : Node) : M Node :=
  match fuel with
  | 0 => fun _ => OutOfFuel
  | S k => fun p =>
    if peek_in is_comparison_operator p then
      (operator <- consume_value ;;
       right <- parseAdditive k ;;
       parseComparison_loop k (ComparisonExpression operator node right)) p
    else ret node p
  end

with parseAssignment (fuel : nat) : M Node :=
  match fuel with
  | 0 => fun _ => OutOfFuel
  | S k =>
    node <- parseComparison k ;;
    fun p =>
      match node with
      | Null => throw p
      | Identifier _ =>
        if peek_is EQUALS p then
          (operator <- consume_value ;;
           right <- parseAssignment k ;;
           ret (AssignmentExpression operator node right)) p
        else ret node p
      | _ => ret node p
      end
  end

with parseExpression (fuel : nat) : M Node :=
  match fuel with
  | 0 => fun _ => OutOfFuel
  | S k => parseAssignment k
  end.

(** What [parse] ends in: the tree, an [Error] with its message, the
    [TypeError] thrown again, or no fuel left. *)
Inductive Outcome :=
| Ok (ast : Node)
| ThrowError (message : jsstring)
| ThrowTypeError
| NoFuel.

(** [this.errors.join('\n')]. *)
Definition error_message (p : Parser) : jsstring := join [10%N] (errors p).

Definition trailing_message (p : Parser) : jsstring :=
  str "解析が完了しましたが、未処理のトークンが残っています: "
  ++ join (str " ") (map value (skipn (position p) (tokens p))).

(** [Parser.parse()].  An [Error] thrown inside the [try] block is caught
    and built again from the same list, which gives the same message. *)
Definition run (fuel : nat) (p0 : Parser) : Outcome :=
  match parseExpression fuel p0 with
  | Return result p =>
    let p1 :=
      if position p <? List.length (tokens p) then
        match addError (trailing_message p) p with
        | Return _ p' => p'
        | _ => p
        end
      else p in
    if 0 <? List.length (errors p1) then ThrowError (error_message p1)
    else Ok result
  | Throw p =>
    if 0 <? List.length (errors p) then ThrowError (error_message p)
    else ThrowTypeError
  | OutOfFuel => NoFuel
  end.

(** Fuel that is enough for any token sequence (see [parse_terminates]):
    eight methods can call each other without reading a token. *)
Definition fuel_for (ts : list Token) : nat := 8 * S (List.length ts).

(** [parse(tokens)]. *)
Definition parse (ts : list Token) : Outcome := run (fuel_for ts) (new ts).

End Parser.

(* ================================================================== *)
(** ** Canonicalizer ([evaluateExpressionToLatex.js])                   *)
(* ================================================================== *)

Module Render.

(** [node.operator]; [None] is [undefined]. *)
Definition operator_of (node : Node) : option jsstring :=
  match node with
  | BinaryExpression op _ _ | UnaryExpression op _
  | ComparisonExpression op _ _ | AssignmentExpression op _ _ => Some op
  | _ => None
  end.

(** What a lookup in the table [precedence] gives: a number of the
    table, or, under a name that every object inherits from
    [Object.prototype], the function or object found there.  Such a value
    is truthy, so [|| 0] keeps it; it is kept here as the text it has
    when [>] converts it to a primitive. *)
Inductive Precedence :=
| Level (n : nat)
| Inherited (text : jsstring).

(** The text of a function of the engine with the name [name].  The
    texts of two inherited values differ in the name or before it, so
    what stands behind the name takes no part in a comparison. *)
Definition native_function (name : jsstring) : jsstring :=
  str "function " ++ name ++ str "() { [native code] }".

(** The names inherited from [Object.prototype], with the text of the
    value under each: [constructor] is the function [Object], [__proto__]
    is the prototype object itself, and each other name is a function of
    that name. *)
Definition inherited (op : jsstring) : option jsstring :=
  if streq op (str "constructor") then Some (native_function (str "Object"))
  else if streq op (str "__proto__") then Some (str "[object Object]")
  else if existsb (fun k => streq op (str k))
            ["hasOwnProperty"; "isPrototypeOf"; "propertyIsEnumerable";
             "toLocaleString"; "toString"; "valueOf";
             "__defineGetter__"; "__defineSetter__";
             "__lookupGetter__"; "__lookupSetter__"]%string
       then Some (native_function op)
  else None.

(** [getOperatorPrecedence(operator)]: the number of the table, [0] for
    a name the table lacks ([undefined] reads as the key "undefined"),
    and the inherited value for an inherited name. *)
Definition getOperatorPrecedence (operator : option jsstring) : Precedence :=
  match operator with
  | None => Level 0
  | Some op =>
    if streq op (str "=") then Level 1
    else if streq op (str "<") || streq op (str ">") || streq op (str "<=")
            || streq op (str ">=") || streq op (str "!=") then Level 2
    else if streq op (str "+") || streq op (str "-") then Level 3
    else if streq op (str "*") || streq op (str "/") then Level 4
    else if streq op (str "^") then Level 5
    else match inherited op with
         | Some text => Inherited text
         | None => Level 0
         end
  end.

(** [a < b] on two strings: the order of the code units at the first
    place where they differ, a proper prefix being smaller. *)
Fixpoint string_lt (a b : jsstring) : bool :=
  match a, b with
  | _, [] => false
  | [], _ :: _ => true
  | x :: a', y :: b' =>
    if (x <? y)%N then true
    else if (y <? x)%N then false
    else string_lt a' b'
  end.

(** [a > b] on two precedences: numbers by size and two inherited values
    by their texts; a number and an inherited value compare as a number
    and [NaN], which is false. *)
Definition greater (a b : Precedence) : bool :=
  match a, b with
  | Level m, Level n => n <? m
  | Inherited s, Inherited t => string_lt t s
  | _, _ => false
  end.

(** [a === b] on two precedences: equal numbers, or the same inherited
    value; the inherited values are different objects with different
    texts. *)
Definition identical (a b : Precedence) : bool :=
  match a, b with
  | Level m, Level n => m =? n
  | Inherited s, Inherited t => streq s t
  | _, _ => false
  end.

Inductive Position := left_position | right_position.

Definition is_right (position : Position) : bool :=
  match position with right_position => true | left_position => false end.

Definition operator_is (op : string) (node : Node) : bool :=
  match operator_of node with
  | Some o => streq o (str op)
  | None => false
  end.

(** [needsParentheses(childNode, parentNode, position)]. *)
Definition needsParentheses (childNode parentNode : Node)
    (position : Position) : bool :=
  match childNode with
  | BinaryExpression _ _ _ =>
    let parentPrecedence := getOperatorPrecedence (operator_of parentNode) in
    let childPrecedence := getOperatorPrecedence (operator_of childNode) in
    if greater parentPrecedence childPrecedence then true
    else if identical parentPrecedence childPrecedence then
      if operator_is "^" parentNode then
        is_right position && operator_is "^" childNode
      else is_right position
    else false
  | _ => false
  end.

(** [needsParenthesesForUnary(node)]. *)
Definition needsParenthesesForUnary (node : Node) : bool :=
  match node with
  | BinaryExpression _ _ _ | ComparisonExpression _ _ _
  | AssignmentExpression _ _ _ => true
  | _ => false
  end.

Definition parens (s : jsstring) : jsstring := str "(" ++ s ++ str ")".

(** The [Identifier] case of [astToString]: the three Greek constants. *)
Definition identifierToString (value : jsstring) : jsstring :=
  if streq value (str "π") then str "pi"
  else if streq value (str "τ") then str "2*pi"
  else if streq value (str "φ") then str "(1+sqrt(5))/2"
  else value.

(** [astToString(node)] of [evaluateExpressionToLatex.js].  The type
    [Node] is closed, so the [default] case of the [switch] has no
    counterpart. *)
Fixpoint astToString (node : Node) : jsstring :=
  match node with
  | Null => []
  | NumberLiteral value => value
  | Identifier value => identifierToString value
  | BinaryExpression operator l r =>
    let left := astToString l in
    let right := astToString r in
    let needsParensLeft := needsParentheses l node left_position in
    let needsParensRight := needsParentheses r node right_position in
    let leftStr := if needsParensLeft then parens left else left in
    let rightStr := if needsParensRight then parens right else right in
    leftStr ++ operator ++ rightStr
  | UnaryExpression operator o =>
    let operand := astToString o in
    let needsParens := needsParenthesesForUnary o in
    operator ++ (if needsParens then parens operand else operand)
  | FunctionCall name arguments =>
    let other :=
      remove_first 92%N name ++ str "("
        ++ join (str ",") (map astToString arguments) ++ str ")" in
    if streq name (str "\frac") then
      match arguments with
      | [n; d] =>
        let numerator := astToString n in
        let denominator := astToString d in
        parens numerator ++ str "/" ++ parens denominator
      | _ => other
      end
    else other
  | ParenthesizedExpression e => parens (astToString e)
  | ArrayExpression elements =>
    str "[" ++ join (str ",") (map astToString elements) ++ str "]"
  | MatrixExpression rows =>
    let rows :=
      join (str ",")
        (map (fun row =>
                str "[" ++ join (str ",") (map astToString row) ++ str "]")
             rows) in
    str "matrix([" ++ rows ++ str "])"
  | ComparisonExpression operator l r =>
    let leftComp := astToString l in
    let rightComp := astToString r in
    leftComp ++ operator ++ rightComp
  | AssignmentExpression _ l r =>
    let leftAssign := astToString l in
    let rightAssign := astToString r in
    leftAssign ++ str "=" ++ rightAssign
  end.

(** [containsSymbols(node)], without the line it writes to the console
    for a variable. *)
Fixpoint containsSymbols (node : Node) : bool :=
  match node with
  | Null => false
  | Identifier value =>
    let isVariable :=
      negb (streq value (str "e")) && negb (streq value (str "pi"))
      && negb (streq value (str "π")) && negb (streq value (str "i")) in
    isVariable
  | BinaryExpression _ l r
  | ComparisonExpression _ l r
  | AssignmentExpression _ l r =>
    let leftContains := containsSymbols l in
    let rightContains := containsSymbols r in
    leftContains || rightContains
  | UnaryExpression _ o => containsSymbols o
  | FunctionCall _ arguments => existsb containsSymbols arguments
  | ParenthesizedExpression e => containsSymbols e
  | ArrayExpression elements => existsb containsSymbols elements
  | MatrixExpression rows =>
    existsb (fun row => existsb containsSymbols row) rows
  | NumberLiteral _ => false
  end.

End Render.

(** The older [astToString] (the unnamed source file): the same function
    but for a two-argument [\frac], which it hands to the nerdamer
    library. *)
Module Part000.
Import Render.

Section Nerdamer.

(** [nerdamer(expr).expand().simplify().text('fractions')]: the library
    is no part of the repository.  [None] is a thrown exception, which the
    [catch] block turns into the fallback text. *)
Variable nerdamer : jsstring -> option jsstring.

Fixpoint astToString (node : Node) : jsstring :=
  match node with
  | Null => []
  | NumberLiteral value => value
  | Identifier value => identifierToString value
  | BinaryExpression operator l r =>
    let left := astToString l in
    let right := astToString r in
    let needsParensLeft := needsParentheses l node left_position in
    let needsParensRight := needsParentheses r node right_position in
    let leftStr := if needsParensLeft then parens left else left in
    let rightStr := if needsParensRight then parens right else right in
    leftStr ++ operator ++ rightStr
  | UnaryExpression operator o =>
    let operand := astToString o in
    let needsParens := needsParenthesesForUnary o in
    operator ++ (if needsParens then parens operand else operand)
  | FunctionCall name arguments =>
    let other :=
      remove_first 92%N name ++ str "("
        ++ join (str ",") (map astToString arguments) ++ str ")" in
    if streq name (str "\frac") then
      match arguments with
      | [n; d] =>
        let numerator := astToString n in
        let denominator := astToString d in
        let expr := parens numerator ++ str "/" ++ parens denominator in
        match nerdamer expr with
        | Some simplified => simplified
        | None => parens numerator ++ str "/" ++ parens denominator
        end
      | _ => other
      end
    else other
  | ParenthesizedExpression e => parens (astToString e)
  | ArrayExpression elements =>
    str "[" ++ join (str ",") (map astToString elements) ++ str "]"
  | MatrixExpression rows =>
    let rows :=
      join (str ",")
        (map (fun row =>
                str "[" ++ join (str ",") (map astToString row) ++ str "]")
             rows) in
    str "matrix([" ++ rows ++ str "])"
  | ComparisonExpression operator l r =>
    let leftComp := astToString l in
    let rightComp := astToString r in
    leftComp ++ operator ++ rightComp
  | AssignmentExpression _ l r =>
    let leftAssign := astToString l in
    let rightAssign := astToString r in
    leftAssign ++ str "=" ++ rightAssign
  end.

End Nerdamer.

End Part000.

(* ================================================================== *)
(** ** The lexer read on the unread part of its input                  *)
(* ================================================================== *)

(** The lexer only ever reads [input] at and after [position].  The
    functions below say what it does in terms of that unread part alone;
    [LexerFacts.getNextToken_spec] proves that the methods compute them. *)
Module LexSpec.
Import Lexer.

(** The unread part of the input. *)
Definition rest (l : Lexer) : jsstring := skipn (position l) (input l).

(** The longest prefix whose characters are in the class [p], and what
    follows it. *)
Fixpoint span (p : char -> bool) (s : jsstring) : jsstring * jsstring :=
  match s with
  | [] => ([], [])
  | c :: r =>
    if p c then let (a, b) := span p r in (c :: a, b) else ([], s)
  end.

(** The prefix [processNumber] reads: digits and at most one dot. *)
Fixpoint span_number (hasDot : bool) (s : jsstring) : jsstring * jsstring :=
  match s with
  | [] => ([], [])
  | c :: r =>
    if is_digit c || (c =? 46)%N && negb hasDot then
      let (a, b) := span_number (if (c =? 46)%N then true else hasDot) r in
      (c :: a, b)
    else ([], s)
  end.

Fixpoint drop_whitespace (s : jsstring) : jsstring :=
  match s with
  | [] => []
  | c :: r => if is_whitespace c then drop_whitespace r else s
  end.

(** [processOperator] at the character [c] followed by [r]. *)
Definition operator_token (c : char) (r : jsstring) : Token * jsstring :=
  if (c =? 60)%N && is_char 61%N (hd_error r) then
    ({| type := LESS_EQUAL; value := str "<=" |}, tl r)
  else if (c =? 62)%N && is_char 61%N (hd_error r) then
    ({| type := GREATER_EQUAL; value := str ">=" |}, tl r)
  else if (c =? 33)%N && is_char 61%N (hd_error r) then
    ({| type := NOT_EQUAL; value := str "!=" |}, tl r)
  else
    match operatorMap c with
    | Some t => ({| type := t; value := [c] |}, r)
    | None => ({| type := UNKNOWN; value := [c] |}, r)
    end.

(** The first token of [s] and what follows it; [None] at the end of the
    input. *)
Definition next_token (s : jsstring) : option (Token * jsstring) :=
  match drop_whitespace s with
  | [] => None
  | c :: r =>
    Some
      (if is_digit c || (c =? 46)%N && is_digit_opt (hd_error r) then
         ({| type := NUMBER; value := fst (span_number false (c :: r)) |},
          snd (span_number false (c :: r)))
       else if is_identifier_start c then
         ({| type := IDENTIFIER;
             value := fst (span is_identifier_part (c :: r)) |},
          snd (span is_identifier_part (c :: r)))
       else if (c =? 92)%N then
         ({| type := COMMAND; value := str "\" ++ fst (span is_letter r) |},
          snd (span is_letter r))
       else operator_token c r)
  end.

(** [Lexes s ts]: reading [s] token by token gives [ts]. *)
Inductive Lexes : jsstring -> list Token -> Prop :=
| Lexes_end s : next_token s = None -> Lexes s []
| Lexes_token s t r ts :
    next_token s = Some (t, r) -> Lexes r ts -> Lexes s (t :: ts).

(** The character [c], followed by [next], is read by one of the rules
    for white space, numbers, identifiers, commands and operators. *)
Definition rule_matches (c : char) (next : option char) : bool :=
  is_whitespace c || is_digit c || is_identifier_part c || (c =? 92)%N
  || (match operatorMap c with Some _ => true | None => false end)
  || (c =? 33)%N && is_char 61%N next.

(** The characters of [s] that no rule reads, in order. *)
Fixpoint unknown_chars (s : jsstring) : jsstring :=
  match s with
  | [] => []
  | c :: r =>
    if rule_matches c (hd_error r) then unknown_chars r
    else c :: unknown_chars r
  end.

(** A character some rule reads whatever follows it. *)
Definition always_matched (c : char) : bool :=
  is_whitespace c || is_digit c || is_identifier_part c || (c =? 92)%N
  || (match operatorMap c with Some _ => true | None => false end).

Definition is_unknown (t : Token) : bool := TokenType_eqb (type t) UNKNOWN.

Definition unknown_token (c : char) : Token :=
  {| type := UNKNOWN; value := [c] |}.

End LexSpec.

(* ================================================================== *)
(** ** Predicates on trees                                             *)
(* ================================================================== *)

(** Induction on a tree, with the hypothesis for every node of an
    argument list, an element list and a matrix row. *)
Section NodeInduction.

Variable P : Node -> Prop.
Hypothesis HNull : P Null.
Hypothesis HNumber : forall v, P (NumberLiteral v).
Hypothesis HIdentifier : forall v, P (Identifier v).
Hypothesis HBinary :
  forall op l r, P l -> P r -> P (BinaryExpression op l r).
Hypothesis HUnary : forall op o, P o -> P (UnaryExpression op o).
Hypothesis HCall :
  forall name args, Forall P args -> P (FunctionCall name args).
Hypothesis HArray : forall es, Forall P es -> P (ArrayExpression es).
Hypothesis HMatrix :
  forall rows, Forall (Forall P) rows -> P (MatrixExpression rows).
Hypothesis HComparison :
  forall op l r, P l -> P r -> P (ComparisonExpression op l r).
Hypothesis HAssignment :
  forall op l r, P l -> P r -> P (AssignmentExpression op l r).
Hypothesis HParen : forall e, P e -> P (ParenthesizedExpression e).

Fixpoint Node_induction (n : Node) : P n :=
  let all :=
    fix all (l : list Node) : Forall P l :=
      match l with
      | [] => Forall_nil P
      | x :: r => Forall_cons x (Node_induction x) (all r)
      end in
  match n with
  | Null => HNull
  | NumberLiteral v => HNumber v
  | Identifier v => HIdentifier v
  | BinaryExpression op l r =>
    HBinary op l r (Node_induction l) (Node_induction r)
  | UnaryExpression op o => HUnary op o (Node_induction o)
  | FunctionCall name args => HCall name args (all args)
  | ArrayExpression es => HArray es (all es)
  | MatrixExpression rows =>
    HMatrix rows
      ((fix all_rows (rs : list (list Node)) : Forall (Forall P) rs :=
          match rs with
          | [] => Forall_nil (Forall P)
          | r :: rs' => Forall_cons r (all r) (all_rows rs')
          end) rows)
  | ComparisonExpression op l r =>
    HComparison op l r (Node_induction l) (Node_induction r)
  | AssignmentExpression op l r =>
    HAssignment op l r (Node_induction l) (Node_induction r)
  | ParenthesizedExpression e => HParen e (Node_induction e)
  end.

End NodeInduction.

(** The tree holds an [AssignmentExpression] node. *)
Fixpoint contains_assignment (n : Node) : bool :=
  match n with
  | Null | NumberLiteral _ | Identifier _ => false
  | BinaryExpression _ l r | ComparisonExpression _ l r =>
    contains_assignment l || contains_assignment r
  | UnaryExpression _ o => contains_assignment o
  | FunctionCall _ args => existsb contains_assignment args
  | ArrayExpression es => existsb contains_assignment es
  | MatrixExpression rows => existsb (existsb contains_assignment) rows
  | AssignmentExpression _ _ _ => true
  | ParenthesizedExpression e => contains_assignment e
  end.

(** The tree without its [ParenthesizedExpression] wrappers: two trees
    are the same but for explicit grouping when this gives the same
    tree. *)
Fixpoint strip_parens (n : Node) : Node :=
  match n with
  | Null => Null
  | NumberLiteral v => NumberLiteral v
  | Identifier v => Identifier v
  | BinaryExpression op l r =>
    BinaryExpression op (strip_parens l) (strip_parens r)
  | UnaryExpression op o => UnaryExpression op (strip_parens o)
  | FunctionCall name args => FunctionCall name (map strip_parens args)
  | ArrayExpression es => ArrayExpression (map strip_parens es)
  | MatrixExpression rows => MatrixExpression (map (map strip_parens) rows)
  | ComparisonExpression op l r =>
    ComparisonExpression op (strip_parens l) (strip_parens r)
  | AssignmentExpression op l r =>
    AssignmentExpression op (strip_parens l) (strip_parens r)
  | ParenthesizedExpression e => strip_parens e
  end.

(** The identifiers of a tree, from left to right. *)
Fixpoint identifiers (n : Node) : list jsstring :=
  match n with
  | Null | NumberLiteral _ => []
  | Identifier v => [v]
  | BinaryExpression _ l r
  | ComparisonExpression _ l r
  | AssignmentExpression _ l r => identifiers l ++ identifiers r
  | UnaryExpression _ o => identifiers o
  | FunctionCall _ args => flat_map identifiers args
  | ArrayExpression es => flat_map identifiers es
  | MatrixExpression rows => flat_map (flat_map identifiers) rows
  | ParenthesizedExpression e => identifiers e
  end.

(** The names that stand for a constant: Euler's number, pi in both
    spellings and the imaginary unit. *)
Definition known_constants : list jsstring :=
  [str "e"; str "pi"; str "π"; str "i"].

Definition is_variable (v : jsstring) : bool :=
  negb (existsb (streq v) known_constants).

(* ================================================================== *)
(** ** A logic for the methods of the parser                           *)
(* ================================================================== *)

Module ParserLogic.
Import Lexer Parser.

(** [outcome F T r Q]: the call that ended in [r] gave a value and a state
    in [Q], or threw its [TypeError] in a state in [T]; [F] says whether
    running out of fuel is acceptable. *)
Definition outcome {A} (F : Prop) (T : Parser -> Prop) (r : Result A)
    (Q : A -> Parser -> Prop) : Prop :=
  match r with
  | Return a p' => Q a p'
  | Throw p' => T p'
  | OutOfFuel => F
  end.

(** [post F r Q]: the same with nothing asked of a thrown [TypeError]. *)
Abbreviation post F r Q := (outcome F (fun _ => True) r Q).

(** The state after [this.position++]. *)
Definition next (p : Parser) : Parser :=
  {| tokens := tokens p; position := S (position p); errors := errors p |}.

(** The state after [addError]: one more diagnostic. *)
Definition failed (p p' : Parser) : Prop :=
  tokens p' = tokens p /\ position p' = position p /\
  List.length (errors p') = S (List.length (errors p)).

(** The parser has a diagnostic: [this.errors.length > 0]. *)
Definition reported (p : Parser) : Prop := 0 < List.length (errors p).

(** A method gives [null] only with a diagnostic. *)
Definition null_reported (node : Node) (p : Parser) : Prop :=
  node = Null -> reported p.

(** [type tok] is what [consume] was asked for. *)
Definition expected (e : option TokenType) (tok : Token) : bool :=
  match e with
  | Some t => TokenType_eqb (type tok) t
  | None => true
  end.

(** Tokens not yet read. *)
Definition unread (p : Parser) : nat :=
  List.length (tokens p) - position p.

(** The method kept the token list and did not move back. *)
Definition forward (p p' : Parser) : Prop :=
  tokens p' = tokens p /\ position p <= position p'.

(** Between the positions [n] and [n'] of [ts] stand the tokens [l]. *)
Definition reads (ts : list Token) (n : nat) (l : list Token) (n' : nat)
    : Prop :=
  skipn n ts = l ++ skipn n' ts.

End ParserLogic.

(* ================================================================== *)
(** ** The pipeline and the inputs of the examples                     *)
(* ================================================================== *)

(** The two stages [runCalculation] applies to its input once implicit
    products are written out: [parse(lex(input))]. *)
Definition lex_parse (s : jsstring) : option Parser.Outcome :=
  option_map Parser.parse (Lexer.lex s).

(** [render(parse(tokenize(s)))], when the first two stages succeed. *)
Definition render_of (s : jsstring) : option jsstring :=
  match lex_parse s with
  | Some (Parser.Ok ast) => Some (Render.astToString ast)
  | _ => None
  end.

Definition number_token (v : jsstring) : Lexer.Token :=
  Lexer.mkToken Lexer.NUMBER v.

Definition identifier_token (v : jsstring) : Lexer.Token :=
  Lexer.mkToken Lexer.IDENTIFIER v.

(** The token of a one- or two-character operator. *)
Definition symbol_token (t : Lexer.TokenType) (s : string) : Lexer.Token :=
  Lexer.mkToken t (str s).

(** The tree contains a [FunctionCall] named [\frac] with exactly two
    arguments: the one case the two [astToString] treat differently. *)
Fixpoint contains_fraction (n : Node) : bool :=
  match n with
  | Null | NumberLiteral _ | Identifier _ => false
  | BinaryExpression _ l r | ComparisonExpression _ l r
  | AssignmentExpression _ l r =>
    contains_fraction l || contains_fraction r
  | UnaryExpression _ o => contains_fraction o
  | FunctionCall name args =>
    streq name (str "\frac") && (List.length args =? 2)
    || existsb contains_fraction args
  | ArrayExpression es => existsb contains_fraction es
  | MatrixExpression rows => existsb (existsb contains_fraction) rows
  | ParenthesizedExpression e => contains_fraction e
  end.

(** A behaviour of the library on which the two functions differ: the
    fraction written in lowest terms, as
    [nerdamer('(1)/(2)').expand().simplify().text('fractions')] gives. *)
Definition nerdamer_lowest_terms (expr : jsstring) : option jsstring :=
  if streq expr (str "(1)/(2)") then Some (str "1/2") else None.

Definition one_half : Node :=
  FunctionCall (str "\frac") [NumberLiteral (str "1"); NumberLiteral (str "2")].

Definition one : Node := NumberLiteral (str "1").
Definition two : Node := NumberLiteral (str "2").

(** What the parser makes of [(1)/(2)], the text written for
    [\frac{1}{2}]. *)
Definition one_over_two : Node :=
  BinaryExpression (str "/") (ParenthesizedExpression one)
    (ParenthesizedExpression two).

(** What the parser makes of [\sin{x}]. *)
Definition sine_of_x : Node :=
  FunctionCall (str "\sin") [Identifier (str "x")].

(** What the parser makes of [1+2*3]. *)
Definition one_plus_two_times_three : Node :=
  BinaryExpression (str "+") one
    (BinaryExpression (str "*") two (NumberLiteral (str "3"))).

(* ================================================================== *)
(** ** Trees that are written in the grammar of the parser             *)
(* ================================================================== *)

(** [astToString] writes for the evaluator: a FunctionCall becomes
    [name(arguments)] or [(numerator)/(denominator)], a MatrixExpression
    becomes [matrix([...])] and the Identifier π becomes [pi].  Every
    other node is written the way it was read. *)
Module Fragment.
Import Lexer.

(** The tree holds a node that is written in the evaluator's syntax. *)
Fixpoint evaluator_syntax (n : Node) : bool :=
  match n with
  | Null | NumberLiteral _ => false
  | Identifier v => streq v (str "π")
  | BinaryExpression _ l r | ComparisonExpression _ l r
  | AssignmentExpression _ l r => evaluator_syntax l || evaluator_syntax r
  | UnaryExpression _ o => evaluator_syntax o
  | FunctionCall _ _ => true
  | ArrayExpression es => existsb evaluator_syntax es
  | MatrixExpression _ => true
  | ParenthesizedExpression e => evaluator_syntax e
  end.

(** The text of a [Number] token: what [processNumber] reads to its end,
    from a digit or from a dot in front of a digit. *)
Definition number_text (v : jsstring) : bool :=
  match v with
  | [] => false
  | c :: v' =>
    (is_digit c || (c =? 46)%N && is_digit_opt (hd_error v'))
    && match snd (LexSpec.span_number false v) with
       | [] => true
       | _ => false
       end
  end.

(** The text of an [Identifier] token. *)
Definition identifier_text (v : jsstring) : bool :=
  match v with
  | [] => false
  | c :: _ => is_identifier_start c && forallb is_identifier_part v
  end.

(** The text the lexer gives a token of an operator or punctuation
    kind. *)
Definition glyph (t : TokenType) : option jsstring :=
  match t with
  | PLUS => Some (str "+") | MINUS => Some (str "-")
  | MULTIPLY => Some (str "*") | DIVIDE => Some (str "/")
  | POWER => Some (str "^") | EQUALS => Some (str "=")
  | LPAREN => Some (str "(") | RPAREN => Some (str ")")
  | LBRACKET => Some (str "[") | RBRACKET => Some (str "]")
  | LBRACE => Some (str "{") | RBRACE => Some (str "}")
  | COMMA => Some (str ",") | SEMICOLON => Some (str ";")
  | DOT => Some (str ".")
  | LESS_THAN => Some (str "<") | GREATER_THAN => Some (str ">")
  | LESS_EQUAL => Some (str "<=") | GREATER_EQUAL => Some (str ">=")
  | NOT_EQUAL => Some (str "!=")
  | NUMBER | IDENTIFIER | COMMAND | UNKNOWN | EOF => None
  end.

(** A token as the lexer makes it. *)
Definition canonical (t : Token) : bool :=
  match type t with
  | NUMBER => number_text (value t)
  | IDENTIFIER => identifier_text (value t)
  | ty =>
    match glyph ty with
    | Some g => streq (value t) g
    | None => true
    end
  end.

(** The kind of the token with the text of an operator. *)
Definition operator_type (op : jsstring) : TokenType :=
  if streq op (str "+") then PLUS
  else if streq op (str "-") then MINUS
  else if streq op (str "*") then MULTIPLY
  else if streq op (str "/") then DIVIDE
  else if streq op (str "^") then POWER
  else if streq op (str "=") then EQUALS
  else if streq op (str "<") then LESS_THAN
  else if streq op (str ">") then GREATER_THAN
  else if streq op (str "<=") then LESS_EQUAL
  else if streq op (str ">=") then GREATER_EQUAL
  else if streq op (str "!=") then NOT_EQUAL
  else UNKNOWN.

Definition operator_token (op : jsstring) : Token :=
  {| type := operator_type op; value := op |}.

(** The tokens a tree was read from. *)
Fixpoint toks (n : Node) : list Token :=
  match n with
  | NumberLiteral v => [number_token v]
  | Identifier v => [identifier_token v]
  | UnaryExpression op o => operator_token op :: toks o
  | BinaryExpression op l r | ComparisonExpression op l r =>
    toks l ++ operator_token op :: toks r
  | ParenthesizedExpression e =>
    symbol_token LPAREN "(" :: toks e ++ [symbol_token RPAREN ")"]
  | ArrayExpression es =>
    symbol_token LBRACKET "["
      :: join [symbol_token COMMA ","] (map toks es)
      ++ [symbol_token RBRACKET "]"]
  | _ => []
  end.

Definition is_comparison_glyph (op : jsstring) : bool :=
  streq op (str "<") || streq op (str ">") || streq op (str "<=")
  || streq op (str ">=") || streq op (str "=") || streq op (str "!=").

(** The level of the production that reads a binary operator. *)
Definition binary_level (op : jsstring) : option nat :=
  if streq op (str "^") then Some 5
  else if streq op (str "*") || streq op (str "/") then Some 4
  else if streq op (str "+") || streq op (str "-") then Some 3
  else None.

(** [shape level n]: the tree [n] is one that the production of that
    level builds from the tokens [toks n] without a diagnostic, and that
    holds no node written in the evaluator's syntax.  The levels are 2
    for a comparison (and an expression), 3 for an additive expression, 4
    for a term, 5 for an exponent and 6 for a primary expression; every
    loop folds to the left, so the left operand is of the level of its
    operator and the right operand of the next one. *)
Fixpoint shape (level : nat) (n : Node) : bool :=
  match n with
  | NumberLiteral v => number_text v
  | Identifier v => identifier_text v && negb (streq v (str "π"))
  | UnaryExpression op o =>
    (streq op (str "+") || streq op (str "-")) && shape 6 o
  | ParenthesizedExpression e => shape 2 e
  | ArrayExpression es => forallb (shape 2) es
  | BinaryExpression op l r =>
    match binary_level op with
    | Some m => (level <=? m) && shape m l && shape (S m) r
    | None => false
    end
  | ComparisonExpression op l r =>
    (level <=? 2) && is_comparison_glyph op && shape 2 l && shape 3 r
  | Null | FunctionCall _ _ | MatrixExpression _
  | AssignmentExpression _ _ _ => false
  end.

(** A text after which a number or an identifier ends: it is empty or
    starts with a character that continues neither. *)
Definition stops (rest : jsstring) : bool :=
  match rest with
  | [] => true
  | c :: _ => negb (is_digit c || (c =? 46)%N || is_identifier_part c)
  end.

(** The first character of an operand: of a number, an identifier, a
    group, an array or a sign. *)
Definition starts_operand (s : jsstring) : bool :=
  match s with
  | [] => false
  | c :: _ =>
    is_digit c || (c =? 46)%N || is_identifier_start c
    || (c =? 40)%N || (c =? 91)%N || (c =? 43)%N || (c =? 45)%N
  end.

End Fragment.

(** What the methods of the parser keep, for the proof that a tree of the
    grammar is read from its own tokens. *)
Module FragmentLogic.
Import Lexer Parser ParserLogic Fragment.

(** The method kept the token list [ts], and recorded a diagnostic if
    there was one before. *)
Definition frame (ts : list Token) (p p' : Parser) : Prop :=
  tokens p' = ts /\ (errors p' = [] -> errors p = []).

(** If no diagnostic was recorded and the tree [a] holds no node written
    in the evaluator's syntax, then [a] is a tree of the level and its
    tokens are those between the position [n0] and the cursor. *)
Definition node_good (ts : list Token) (level n0 : nat) (a : Node)
    (p' : Parser) : Prop :=
  errors p' = [] -> evaluator_syntax a = false ->
  reads ts n0 (toks a) (position p') /\ shape level a = true.

(** The same for a list of elements separated by commas. *)
Definition list_good (ts : list Token) (n0 : nat) (es : list Node)
    (p' : Parser) : Prop :=
  errors p' = [] -> existsb evaluator_syntax es = false ->
  es <> [] /\
  reads ts n0 (join [symbol_token COMMA ","] (map toks es)) (position p') /\
  forallb (shape 2) es = true.

End FragmentLogic.
(* ================================================================== *)
(** ** Further notions for the lexer                                   *)
(* ================================================================== *)

Module LexText.
Import Lexer.

(** The text without its white space. *)
Definition visible (s : jsstring) : jsstring :=
  filter (fun c => negb (is_whitespace c)) s.

(** The texts of the tokens, one after the other. *)
Definition text_of (ts : list Token) : jsstring := List.concat (map value ts).

End LexText.

(* ================================================================== *)
(** ** Further predicates on trees and parser states                   *)
(* ================================================================== *)

(** The tree holds a [null] where a node should be. *)
Fixpoint has_null (n : Node) : bool :=
  match n with
  | Null => true
  | NumberLiteral _ | Identifier _ => false
  | BinaryExpression _ l r | ComparisonExpression _ l r
  | AssignmentExpression _ l r => has_null l || has_null r
  | UnaryExpression _ o => has_null o
  | FunctionCall _ args => existsb has_null args
  | ArrayExpression es => existsb has_null es
  | MatrixExpression rows => existsb (existsb has_null) rows
  | ParenthesizedExpression e => has_null e
  end.

Module NullLogic.
Import Lexer Parser ParserLogic.

(** The method dropped no diagnostic. *)
Definition grown (p p' : Parser) : Prop :=
  List.length (errors p) <= List.length (errors p').

(** What a method keeps: a [null] in the tree it gives comes with a
    diagnostic. *)
Definition null_free (p : Parser) (a : Node) (p' : Parser) : Prop :=
  grown p p' /\ (has_null a = true -> reported p').

Definition nulls_free (p : Parser) (es : list Node) (p' : Parser) : Prop :=
  grown p p' /\ (existsb has_null es = true -> reported p').

Definition rows_free (p : Parser) (rc : list (list Node) * list Node)
    (p' : Parser) : Prop :=
  grown p p' /\
  (existsb (existsb has_null) (fst rc) = true -> reported p') /\
  (existsb has_null (snd rc) = true -> reported p').

End NullLogic.

(** The kinds of token that some production of the parser reads: every
    kind but [Unknown], [Dot] and the end-of-input kind. *)
Definition grammar_kind (t : Lexer.TokenType) : bool :=
  match t with
  | Lexer.UNKNOWN | Lexer.DOT | Lexer.EOF => false
  | _ => true
  end.

Module KindLogic.
Import Lexer Parser ParserLogic NullLogic.

(** The tokens in front of the cursor. *)
Definition consumed (p : Parser) : list Token :=
  firstn (position p) (tokens p).

Definition kinds_ok (p : Parser) : Prop :=
  forallb (fun t => grammar_kind (type t)) (consumed p) = true.

(** What a method keeps: if no diagnostic is recorded when it returns,
    the tokens it went past are of the kinds of the grammar. *)
Definition kept (p : Parser) (p' : Parser) : Prop :=
  tokens p' = tokens p /\ grown p p' /\
  (List.length (errors p') = 0 -> kinds_ok p -> kinds_ok p').

End KindLogic.

(* ================================================================== *)
(** ** The calculate button ([calc-script.js])                         *)
(* ================================================================== *)

Module CalcScript.
Import Lexer.

(** [/[a-zA-Z\\]/]. *)
Definition is_letter_or_backslash (c : char) : bool :=
  is_letter c || (c =? 92)%N.

(** [input.replace(/(\d)([a-zA-Z\\])/g, "$1*$2")]: the matches are looked
    for from left to right, each from the end of the one before. *)
Fixpoint fixedInput (input : jsstring) : jsstring :=
  match input with
  | [] => []
  | c :: r =>
    match r with
    | d :: r' =>
      if is_digit c && is_letter_or_backslash d then
        c :: 42%N :: d :: fixedInput r'
      else c :: fixedInput r
    | [] => [c]
    end
  end.

(** The part of [runCalculation] in front of the evaluator: the tree
    that [parse] makes of the tokens of the fixed input. *)
Definition parsedInput (input : jsstring) : option Parser.Outcome :=
  lex_parse (fixedInput input).

End CalcScript.

(** The text holds a digit with a letter or a backslash right behind
    it. *)
Fixpoint juxtaposed (s : jsstring) : bool :=
  match s with
  | [] => false
  | c :: r =>
    match r with
    | d :: _ =>
      Lexer.is_digit c && CalcScript.is_letter_or_backslash d || juxtaposed r
    | [] => false
    end
  end.

(** The text without its asterisks. *)
Definition without_stars (s : jsstring) : jsstring :=
  filter (fun c => negb (c =? 42)%N) s.

(** What [fixedInput] puts between two texts that it is given as one:
    an asterisk if the first ends in a digit and the second starts with
    a letter or a backslash, and nothing otherwise. *)
Definition seam (a b : jsstring) : jsstring :=
  if Lexer.is_digit_opt (hd_error (rev a))
     && match hd_error b with
        | Some d => CalcScript.is_letter_or_backslash d
        | None => false
        end
  then [42%N] else [].

(* ================================================================== *)
(** ** The grammar of the parser, on trees                             *)
(* ================================================================== *)

(** A tree of the grammar and the tokens that spell it.  Where the parser
    reads one tree from several spellings (a command with its arguments
    in braces, in parentheses or bare), [toks] takes the one in
    parentheses. *)
Module Grammar.
Import Lexer.

Definition command_token (name : jsstring) : Token :=
  {| type := COMMAND; value := name |}.

Fixpoint toks (n : Node) : list Token :=
  match n with
  | Null | AssignmentExpression _ _ _ => []
  | NumberLiteral v => [number_token v]
  | Identifier v => [identifier_token v]
  | UnaryExpression op o => Fragment.operator_token op :: toks o
  | BinaryExpression op l r | ComparisonExpression op l r =>
    toks l ++ Fragment.operator_token op :: toks r
  | ParenthesizedExpression e =>
    symbol_token LPAREN "(" :: toks e ++ [symbol_token RPAREN ")"]
  | ArrayExpression es =>
    symbol_token LBRACKET "["
      :: join [symbol_token COMMA ","] (map toks es)
      ++ [symbol_token RBRACKET "]"]
  | FunctionCall name args =>
    if streq name (str "\frac") then
      command_token name
        :: List.concat
             (map (fun a =>
                     symbol_token LBRACE "{" :: toks a
                       ++ [symbol_token RBRACE "}"])
                  args)
    else
      command_token name :: symbol_token LPAREN "("
        :: join [symbol_token COMMA ","] (map toks args)
        ++ [symbol_token RPAREN ")"]
  | MatrixExpression rows =>
    symbol_token LBRACE "{"
      :: join [symbol_token SEMICOLON ";"]
           (map (fun row => join [symbol_token COMMA ","] (map toks row))
                rows)
      ++ [symbol_token RBRACE "}"]
  end.

Definition is_nil {A} (l : list A) : bool :=
  match l with [] => true | _ => false end.

(** [shape level n]: the tree [n] is one that the production of that
    level builds: 2 for a comparison and an expression, 3 for an additive
    expression, 4 for a term, 5 for an exponent and 6 for a primary
    expression.  Every loop folds to the left, so the left operand is of
    the level of its operator and the right operand of the next one.
    The texts of numbers, identifiers and commands are left open: the
    parser does not look at them, the name [\frac] apart. *)
Fixpoint shape (level : nat) (n : Node) : bool :=
  match n with
  | NumberLiteral _ | Identifier _ => true
  | UnaryExpression op o =>
    (streq op (str "+") || streq op (str "-")) && shape 6 o
  | ParenthesizedExpression e => shape 2 e
  | ArrayExpression es => forallb (shape 2) es
  | FunctionCall name args =>
    if streq name (str "\frac") then
      match args with
      | [n; d] => shape 2 n && shape 2 d
      | _ => false
      end
    else forallb (shape 2) args
  | MatrixExpression rows =>
    forallb (fun row => negb (is_nil row) && forallb (shape 2) row) rows
  | BinaryExpression op l r =>
    match Fragment.binary_level op with
    | Some m => (level <=? m) && shape m l && shape (S m) r
    | None => false
    end
  | ComparisonExpression op l r =>
    (level <=? 2) && Fragment.is_comparison_glyph op && shape 2 l
    && shape 3 r
  | Null | AssignmentExpression _ _ _ => false
  end.

(** The level of the production whose loop reads a token of the kind as
    an operator; 0 for the kinds that no loop reads. *)
Definition level_of (t : TokenType) : nat :=
  match t with
  | POWER => 5
  | MULTIPLY | DIVIDE => 4
  | PLUS | MINUS => 3
  | LESS_THAN | GREATER_THAN | LESS_EQUAL | GREATER_EQUAL | EQUALS
  | NOT_EQUAL => 2
  | _ => 0
  end.

(** The production of the level stops in front of [rest]. *)
Definition ends (level : nat) (rest : list Token) : bool :=
  match rest with
  | [] => true
  | t :: _ => level_of (type t) <? level
  end.

End Grammar.

(** What the proof that the parser reads every tree of the grammar is
    stated with. *)
Module GrammarLogic.
Import Lexer Parser ParserLogic Grammar.

(** The parser with its cursor at the position [n] of [ts]. *)
Definition parser_at (ts : list Token) (n : nat) (es : list jsstring) : Parser :=
  {| tokens := ts; position := n; errors := es |}.

(** [returns f level bound t]: the method [f] reads the tree [t] from
    its tokens, wherever they stand in the token list, when the tokens
    behind them do not go on with an operator of the level and the fuel
    is above eight times the tokens left plus [bound]. *)
Definition returns (f : nat -> M Node) (level bound : nat) (t : Node)
    : Prop :=
  forall k ts n es rest,
    skipn n ts = toks t ++ rest -> ends level rest = true ->
    8 * List.length (toks t ++ rest) + bound < k ->
    f k (parser_at ts n es) = Return t (parser_at ts (n + List.length (toks t)) es).

(** [heads this loop L c t]: the method [this] of the level [L] comes
    to the head of its loop with the tree [t] read. *)
Definition heads (this : nat -> M Node) (loop : nat -> Node -> M Node)
    (L c : nat) (t : Node) : Prop :=
  forall k ts n es rest,
    skipn n ts = toks t ++ rest -> ends (S L) rest = true ->
    8 * List.length (toks t ++ rest) + S c < k ->
    exists k',
      this k (parser_at ts n es)
      = loop k' t (parser_at ts (n + List.length (toks t)) es) /\
      8 * List.length rest < k'.

(** The operators of the four levels with a loop. *)
Definition power_op (t : TokenType) : bool := TokenType_eqb t POWER.
Definition term_op (t : TokenType) : bool :=
  TokenType_eqb t MULTIPLY || TokenType_eqb t DIVIDE.
Definition additive_op (t : TokenType) : bool :=
  TokenType_eqb t PLUS || TokenType_eqb t MINUS.

(** [heads] at the four levels. *)
Definition heads5 := heads parseExponent parseExponent_loop 5 1.
Definition heads4 := heads parseTerm parseTerm_loop 4 2.
Definition heads3 := heads parseAdditive parseAdditive_loop 3 3.
Definition heads2 := heads parseComparison parseComparison_loop 2 4.

(** Every method of the chain, from [parsePrimary] up to
    [parseExpression], reads the tree [t] when it is a tree of its
    level. *)
Record complete (t : Node) : Prop := {
  c6 : shape 6 t = true -> returns parsePrimary 6 1 t;
  h5 : shape 5 t = true -> heads5 t;
  c5 : shape 5 t = true -> returns parseExponent 5 2 t;
  h4 : shape 4 t = true -> heads4 t;
  c4 : shape 4 t = true -> returns parseTerm 4 3 t;
  h3 : shape 3 t = true -> heads3 t;
  c3 : shape 3 t = true -> returns parseAdditive 3 4 t;
  h2 : shape 2 t = true -> heads2 t;
  c2 : shape 2 t = true -> returns parseComparison 2 5 t;
  c1 : shape 2 t = true -> returns parseAssignment 2 6 t;
  c0 : shape 2 t = true -> returns parseExpression 2 7 t
}.

(** The kinds of the first token of a primary expression. *)
Definition starts_primary (t : TokenType) : bool :=
  match t with
  | NUMBER | IDENTIFIER | COMMAND | LPAREN | LBRACKET | LBRACE | PLUS
  | MINUS => true
  | _ => false
  end.

(** The tokens of the elements [es], each with [sep] in front of it. *)
Definition separated (sep : Token) (es : list Node) : list Token :=
  List.concat (map (fun e => sep :: toks e) es).

(** [parseExpression] reads the tree [e]. *)
Definition expression_ok (e : Node) : Prop :=
  shape 2 e = true /\ returns parseExpression 2 7 e.

(** [rest] does not start with a comma. *)
Definition not_comma (rest : list Token) : bool :=
  match rest with
  | [] => true
  | t :: _ => negb (TokenType_eqb (type t) COMMA)
  end.

(** The separator in front of a cell of a matrix: a semicolon in front
    of the first cell of a row, a comma in front of another. *)
Definition separator (semicolon : bool) : Token :=
  if semicolon then symbol_token SEMICOLON ";" else symbol_token COMMA ",".

(** The cells behind the first one, each with the separator in front of
    it. *)
Definition cells_tokens (more : list (bool * Node)) : list Token :=
  List.concat (map (fun sc => separator (fst sc) :: toks (snd sc)) more).

(** One turn of the loop of [parseMatrixExpression]. *)
Definition add_cell (rc : list (list Node) * list Node) (sc : bool * Node)
    : list (list Node) * list Node :=
  if fst sc then (fst rc ++ [snd rc], [snd sc])
  else (fst rc, snd rc ++ [snd sc]).

(** The cells of a row that is not the first, and of all such rows,
    with their separators. *)
Definition row_cells (row : list Node) : list (bool * Node) :=
  match row with
  | [] => []
  | c :: cs => (true, c) :: map (pair false) cs
  end.

Definition matrix_cells (rows : list (list Node)) : list (bool * Node) :=
  List.concat (map row_cells rows).

(** The tokens of a row. *)
Definition row_tokens (row : list Node) : list Token :=
  join [symbol_token COMMA ","] (map toks row).

End GrammarLogic.


(* ================================================================== *)
(** ** Facts about the lexer                                           *)
(* ================================================================== *)

Module LexerFacts.
Import Lexer LexSpec.

Lemma hd_error_skipn {A} (n : nat) (s : list A) :
  hd_error (skipn n s) = nth_error s n.
Proof.
  revert s; induction n as [|n IH]; intros [|x s]; simpl; auto.
Qed.

Lemma tl_skipn {A} (n : nat) (s : list A) :
  tl (skipn n s) = skipn (S n) s.
Proof.
  revert s; induction n as [|n IH]; intros [|x s]; simpl; auto.
Qed.

Lemma currentChar_rest l : currentChar l = hd_error (rest l).
Proof. unfold currentChar, rest. now rewrite hd_error_skipn. Qed.

Lemma input_advance l : input (advance l) = input l.
Proof. unfold advance. destruct (is_char _ _); reflexivity. Qed.

Lemma position_advance l : position (advance l) = S (position l).
Proof. unfold advance. destruct (is_char _ _); reflexivity. Qed.

Lemma rest_advance l : rest (advance l) = tl (rest l).
Proof.
  unfold rest. rewrite input_advance, position_advance. now rewrite tl_skipn.
Qed.

Lemma peek_rest l : peek l = hd_error (tl (rest l)).
Proof.
  unfold peek, rest. rewrite tl_skipn, hd_error_skipn.
  now rewrite Nat.add_1_r.
Qed.

Lemma remaining_rest l : remaining l = List.length (rest l).
Proof. unfold remaining, rest. now rewrite length_skipn. Qed.

(** The three scanning loops stop where the list functions say. *)
Lemma skipWhitespace_loop_spec n :
  forall l, List.length (rest l) <= n ->
    input (skipWhitespace_loop n l) = input l /\
    rest (skipWhitespace_loop n l) = drop_whitespace (rest l).
Proof.
  induction n as [|n IH]; intros l Hn; simpl.
  - destruct (rest l); [auto | simpl in Hn; lia].
  - rewrite currentChar_rest.
    destruct (rest l) as [|c r] eqn:E; simpl; [rewrite E; auto|].
    destruct (is_whitespace c); [|rewrite E; auto].
    destruct (IH (advance l)) as [Hi Hr].
    + rewrite rest_advance, E. simpl in *. lia.
    + rewrite Hi, Hr, input_advance, rest_advance, E. auto.
Qed.

Lemma skipWhitespace_spec l :
  input (skipWhitespace l) = input l /\
  rest (skipWhitespace l) = drop_whitespace (rest l).
Proof.
  apply skipWhitespace_loop_spec. now rewrite remaining_rest.
Qed.

Lemma scan_loop_spec p n :
  forall result l, List.length (rest l) <= n ->
    exists l',
      scan_loop p n result l = (result ++ fst (span p (rest l)), l') /\
      input l' = input l /\ rest l' = snd (span p (rest l)).
Proof.
  induction n as [|n IH]; intros result l Hn; simpl.
  - destruct (rest l) eqn:E; [|simpl in Hn; lia].
    exists l. simpl. rewrite app_nil_r, E. auto.
  - rewrite currentChar_rest.
    destruct (rest l) as [|c r] eqn:E; simpl.
    + exists l. rewrite app_nil_r, E. auto.
    + destruct (p c).
      * destruct (IH (result ++ [c]) (advance l)) as (l' & H1 & H2 & H3).
        { rewrite rest_advance, E. simpl in *. lia. }
        rewrite rest_advance, E in *. simpl in *.
        exists l'. rewrite H1, H2, H3, input_advance.
        destruct (span p r); simpl. rewrite <- app_assoc. auto.
      * exists l. simpl. rewrite app_nil_r, E. auto.
Qed.

Lemma processNumber_loop_spec n :
  forall result hasDot l, List.length (rest l) <= n ->
    exists l',
      processNumber_loop n result hasDot l
      = (result ++ fst (span_number hasDot (rest l)), l') /\
      input l' = input l /\ rest l' = snd (span_number hasDot (rest l)).
Proof.
  induction n as [|n IH]; intros result hasDot l Hn; simpl.
  - destruct (rest l) eqn:E; [|simpl in Hn; lia].
    exists l. simpl. rewrite app_nil_r, E. auto.
  - rewrite currentChar_rest.
    destruct (rest l) as [|c r] eqn:E; simpl.
    + exists l. rewrite app_nil_r, E. auto.
    + destruct (is_digit c || (c =? 46)%N && negb hasDot).
      * destruct (IH (result ++ [c]) (if (c =? 46)%N then true else hasDot)
                    (advance l)) as (l' & H1 & H2 & H3).
        { rewrite rest_advance, E. simpl in *. lia. }
        rewrite rest_advance, E in *. simpl in *.
        exists l'. rewrite H1, H2, H3, input_advance.
        destruct (span_number _ r); simpl. rewrite <- app_assoc. auto.
      * exists l. simpl. rewrite app_nil_r, E. auto.
Qed.

Lemma processOperator_spec c l r :
  rest l = c :: r ->
  exists l',
    processOperator c l = (fst (operator_token c r), l') /\
    input l' = input l /\ rest l' = snd (operator_token c r).
Proof.
  intros E. unfold processOperator, operator_token.
  rewrite peek_rest, E. simpl.
  assert (H1 : rest (advance l) = r) by (now rewrite rest_advance, E).
  assert (H2 : rest (advance (advance l)) = tl r)
    by (now rewrite rest_advance, H1).
  assert (I1 : input (advance l) = input l) by apply input_advance.
  assert (I2 : input (advance (advance l)) = input l)
    by (now rewrite !input_advance).
  repeat match goal with
         | |- context [if ?b then _ else _] => destruct b
         end; simpl; eauto.
  destruct (operatorMap c); simpl; eauto.
Qed.

Lemma drop_whitespace_head s c r :
  drop_whitespace s = c :: r -> is_whitespace c = false.
Proof.
  induction s as [|x s IH]; simpl; [discriminate|].
  destruct (is_whitespace x) eqn:E; auto.
  intros H; injection H as -> _. exact E.
Qed.

Lemma drop_whitespace_idem s :
  drop_whitespace (drop_whitespace s) = drop_whitespace s.
Proof.
  induction s as [|x s IH]; simpl; auto.
  destruct (is_whitespace x) eqn:E; auto. simpl. now rewrite E.
Qed.

(** [getNextToken] computes [next_token] on the unread input. *)
Lemma getNextToken_spec l :
  match next_token (rest l) with
  | None => exists l', getNextToken l = Some ({| type := EOF; value := [] |}, l')
  | Some (t, r) =>
    exists l', getNextToken l = Some (t, l') /\
               input l' = input l /\ rest l' = r
  end.
Proof.
  assert (Hnows : forall l c r,
    rest l = c :: r -> is_whitespace c = false ->
    forall k, exists l',
      getNextToken_fuel (S k) l =
        Some (fst (match next_token (rest l) with
                   | Some x => x | None => ({| type := EOF; value := [] |}, [])
                   end), l') /\
      input l' = input l /\
      Some (rest l') = option_map snd (next_token (rest l))).
  { clear l. intros l c r E Hws k. simpl. unfold next_token.
    rewrite currentChar_rest, E. simpl. rewrite Hws.
    rewrite peek_rest, E. simpl.
    destruct (is_digit c || (c =? 46)%N && is_digit_opt (hd_error r)).
    - unfold processNumber.
      destruct (processNumber_loop_spec (remaining l) [] false l)
        as (l' & H1 & H2 & H3); [now rewrite remaining_rest|].
      rewrite H1, E in *. simpl in *.
      destruct (is_digit c || (c =? 46)%N && true);
        [destruct (span_number _ r)|]; simpl in *; exists l';
        rewrite H3; auto.
    - destruct (is_identifier_start c).
      + unfold processIdentifier.
        destruct (scan_loop_spec is_identifier_part (remaining l) [] l)
          as (l' & H1 & H2 & H3); [now rewrite remaining_rest|].
        rewrite H1, E in *. simpl in *.
        destruct (is_identifier_part c);
          [destruct (span _ r)|]; simpl in *; exists l';
          rewrite H3; auto.
      + destruct (c =? 92)%N.
        * unfold processCommand.
          destruct (scan_loop_spec is_letter (remaining (advance l))
                      (str "\") (advance l))
            as (l' & H1 & H2 & H3); [now rewrite remaining_rest|].
          rewrite H1, rest_advance, E, input_advance in *. simpl in *.
          destruct (span is_letter r); simpl in *.
          exists l'. rewrite H3. auto.
        * destruct (processOperator_spec c l r E) as (l' & H1 & H2 & H3).
          rewrite H1. exists l'. rewrite H3.
          destruct (operator_token c r). auto. }
  unfold getNextToken.
  destruct (rest l) as [|c r] eqn:E.
  - unfold next_token. simpl. rewrite currentChar_rest, E. simpl. eauto.
  - destruct (is_whitespace c) eqn:Hws.
    + cbn [getNextToken_fuel]. rewrite currentChar_rest, E. simpl hd_error.
      cbv iota beta. rewrite Hws.
      destruct (skipWhitespace_spec l) as [Hi Hr].
      assert (Hnt : next_token (c :: r) = next_token (rest (skipWhitespace l))).
      { unfold next_token. now rewrite Hr, E, drop_whitespace_idem. }
      rewrite Hnt.
      destruct (rest (skipWhitespace l)) as [|c' r'] eqn:E'.
      * unfold next_token. simpl.
        rewrite currentChar_rest, E'. simpl. eauto.
      * assert (Hws' : is_whitespace c' = false).
        { apply (drop_whitespace_head (rest l) c' r'). now rewrite <- Hr. }
        destruct (Hnows _ _ _ E' Hws' 0) as (l' & H1 & H2 & H3).
        rewrite E' in *.
        destruct (next_token (c' :: r')) as [[t r0]|]; simpl in *.
        -- exists l'. rewrite H1. injection H3 as ->. rewrite H2. auto.
        -- discriminate.
    + destruct (Hnows _ _ _ E Hws 1) as (l' & H1 & H2 & H3).
      rewrite E in *.
      destruct (next_token (c :: r)) as [[t r0]|]; simpl in *.
      * exists l'. rewrite H1. injection H3 as ->. auto.
      * discriminate.
Qed.


Lemma span_length p s :
  List.length (snd (span p s)) <= List.length s.
Proof.
  induction s as [|c r IH]; simpl; auto.
  destruct (p c); simpl; auto. destruct (span p r); simpl in *. lia.
Qed.

Lemma span_number_length s :
  forall hasDot, List.length (snd (span_number hasDot s)) <= List.length s.
Proof.
  induction s as [|c r IH]; intros hasDot; simpl; auto.
  destruct (is_digit c || _); simpl; auto.
  specialize (IH (if (c =? 46)%N then true else hasDot)).
  destruct (span_number _ r); simpl in *. lia.
Qed.

Lemma drop_whitespace_length s :
  List.length (drop_whitespace s) <= List.length s.
Proof.
  induction s as [|c r IH]; simpl; auto.
  destruct (is_whitespace c); simpl; lia.
Qed.

Lemma operator_token_length c r :
  List.length (snd (operator_token c r)) <= List.length r.
Proof.
  unfold operator_token.
  repeat match goal with
         | |- context [if ?b then _ else _] => destruct b
         end; simpl; try (destruct r; simpl; lia).
  destruct (operatorMap c); simpl; lia.
Qed.

Lemma span_number_first c r :
  is_digit c || (c =? 46)%N && is_digit_opt (hd_error r) = true ->
  span_number false (c :: r) =
  (c :: fst (span_number (if (c =? 46)%N then true else false) r),
   snd (span_number (if (c =? 46)%N then true else false) r)).
Proof.
  intros H.
  assert (E : is_digit c || (c =? 46)%N && negb false = true).
  { destruct (is_digit c); simpl in *; auto.
    destruct (c =? 46)%N; simpl in *; auto. }
  cbn [span_number]. rewrite E. now destruct (span_number _ r).
Qed.

Lemma is_identifier_start_part c :
  is_identifier_start c = true -> is_identifier_part c = true.
Proof.
  unfold is_identifier_start, is_identifier_part.
  destruct (is_letter c), (c =? 960)%N, (c =? 95)%N, (is_digit c);
    simpl; auto.
Qed.

Lemma span_first p c r :
  p c = true -> span p (c :: r) = (c :: fst (span p r), snd (span p r)).
Proof. intros H. cbn [span]. rewrite H. now destruct (span p r). Qed.

(** Every token takes at least one character. *)
Lemma next_token_shorter s t r :
  next_token s = Some (t, r) -> List.length r < List.length s.
Proof.
  unfold next_token.
  pose proof (drop_whitespace_length s) as Hd.
  destruct (drop_whitespace s) as [|c s'] eqn:E; [discriminate|].
  simpl in Hd. intros H.
  destruct (is_digit c || (c =? 46)%N && is_digit_opt (hd_error s')) eqn:E1.
  - rewrite (span_number_first _ _ E1) in H.
    pose proof (span_number_length s' (if (c =? 46)%N then true else false)).
    injection H as _ <-. lia.
  - destruct (is_identifier_start c) eqn:E2.
    + rewrite (span_first _ _ _ (is_identifier_start_part _ E2)) in H.
      pose proof (span_length is_identifier_part s').
      injection H as _ <-. lia.
    + destruct (c =? 92)%N.
      * pose proof (span_length is_letter s').
        destruct (span _ s'); simpl in *. injection H as _ <-. lia.
      * pose proof (operator_token_length c s').
        destruct (operator_token c s'); simpl in *.
        injection H as _ <-. lia.
Qed.

(** The lexer never makes an end-of-input token out of a character. *)
Lemma next_token_not_EOF s t r :
  next_token s = Some (t, r) -> type t <> EOF.
Proof.
  unfold next_token. destruct (drop_whitespace s) as [|c s']; [discriminate|].
  intros H; injection H as H.
  repeat match type of H with
         | context [if ?b then _ else _] => destruct b
         | context [let (_, _) := ?x in _] => destruct x
         end; try (injection H as <- _; simpl; discriminate).
  unfold operator_token in H.
  repeat match type of H with
         | context [if ?b then _ else _] => destruct b
         end; try (injection H as <- _; simpl; discriminate).
  destruct (operatorMap c) eqn:E; injection H as <- _; simpl;
    [|discriminate].
  intros ->. unfold operatorMap in E.
  repeat match type of E with
         | context [match ?x with _ => _ end] => destruct x; try discriminate
         end.
Qed.

(** Reading is total. *)
Lemma Lexes_total s : exists ts, Lexes s ts.
Proof.
  remember (List.length s) as n eqn:Hn. revert s Hn.
  induction n as [n IH] using lt_wf_ind. intros s ->.
  destruct (next_token s) as [[t r]|] eqn:E.
  - destruct (IH (List.length r) (next_token_shorter _ _ _ E) r eq_refl)
      as [ts Hts].
    exists (t :: ts). econstructor; eauto.
  - exists []. now constructor.
Qed.

(** [tokenize] pushes exactly the tokens of the unread input. *)
Lemma tokenize_loop_spec l ts :
  Lexes (rest l) ts ->
  forall fuel tokens, List.length (rest l) < fuel ->
    tokenize_loop fuel tokens l = Some (tokens ++ ts).
Proof.
  remember (rest l) as s eqn:Hs. intros H. revert l Hs.
  induction H as [s E|s t r ts E _ IH]; intros l -> [|fuel] tokens Hf;
    try lia; simpl.
  - pose proof (getNextToken_spec l) as G. rewrite E in G.
    destruct G as [l' ->]. simpl. now rewrite app_nil_r.
  - pose proof (getNextToken_spec l) as G. rewrite E in G.
    destruct G as (l' & -> & Hi & Hr).
    pose proof (next_token_not_EOF _ _ _ E) as Ht.
    pose proof (next_token_shorter _ _ _ E) as Hl.
    assert (IH' : tokenize_loop fuel (tokens ++ [t]) l'
                  = Some ((tokens ++ [t]) ++ ts)).
    { apply IH; [congruence | lia]. }
    rewrite <- app_assoc in IH'. simpl in IH'.
    destruct (type t); try exact IH'. congruence.
Qed.

Lemma lex_Lexes s ts : Lexes s ts -> lex s = Some ts.
Proof.
  intros H. unfold lex, tokenize.
  apply (tokenize_loop_spec (new s) ts H (S (remaining (new s))) []).
  rewrite remaining_rest. lia.
Qed.

Lemma lex_inv s ts : lex s = Some ts -> Lexes s ts.
Proof.
  intros H. destruct (Lexes_total s) as [ts' H'].
  rewrite (lex_Lexes _ _ H') in H. injection H as <-. exact H'.
Qed.

Lemma Lexes_no_EOF s ts :
  Lexes s ts -> Forall (fun t => type t <> EOF) ts.
Proof.
  induction 1; constructor; eauto using next_token_not_EOF.
Qed.


(** *** Characters that no rule reads *)

Lemma span_app p s : s = fst (span p s) ++ snd (span p s).
Proof.
  induction s as [|c r IH]; simpl; auto.
  destruct (p c); simpl; auto. destruct (span p r); simpl in *. now f_equal.
Qed.

Lemma span_Forall p s : Forall (fun c => p c = true) (fst (span p s)).
Proof.
  induction s as [|c r IH]; simpl; auto.
  destruct (p c) eqn:E; simpl; auto. destruct (span p r); simpl in *. auto.
Qed.

Lemma span_number_app s :
  forall hasDot,
    s = fst (span_number hasDot s) ++ snd (span_number hasDot s).
Proof.
  induction s as [|c r IH]; intros hasDot; simpl; auto.
  destruct (is_digit c || _); simpl; auto.
  specialize (IH (if (c =? 46)%N then true else hasDot)).
  destruct (span_number _ r); simpl in *. now f_equal.
Qed.

Lemma span_number_Forall s :
  forall hasDot,
    Forall (fun c => is_digit c || (c =? 46)%N = true)
           (fst (span_number hasDot s)).
Proof.
  induction s as [|c r IH]; intros hasDot; simpl; auto.
  destruct (is_digit c || (c =? 46)%N && negb hasDot) eqn:E; simpl; auto.
  specialize (IH (if (c =? 46)%N then true else hasDot)).
  destruct (span_number _ r); simpl in *. constructor; auto.
  destruct (is_digit c), (c =? 46)%N; simpl in *; auto.
Qed.

Lemma rule_matches_always c next :
  always_matched c = true -> rule_matches c next = true.
Proof.
  unfold always_matched, rule_matches. intros ->. reflexivity.
Qed.

Lemma unknown_chars_app a r :
  Forall (fun c => always_matched c = true) a ->
  unknown_chars (a ++ r) = unknown_chars r.
Proof.
  induction 1 as [|c a Hc _ IH]; simpl; auto.
  now rewrite (rule_matches_always _ _ Hc).
Qed.

Lemma unknown_chars_drop_whitespace s :
  unknown_chars s = unknown_chars (drop_whitespace s).
Proof.
  induction s as [|c r IH]; simpl; auto.
  destruct (is_whitespace c) eqn:E; simpl; auto.
  unfold rule_matches. now rewrite E.
Qed.

Lemma operatorMap_always c t :
  operatorMap c = Some t -> always_matched c = true.
Proof.
  intros H. unfold always_matched. rewrite H. apply orb_true_r.
Qed.

Lemma operatorMap_not_UNKNOWN c t :
  operatorMap c = Some t -> TokenType_eqb t UNKNOWN = false.
Proof.
  unfold operatorMap.
  repeat match goal with
         | |- context [match ?x with _ => _ end] => destruct x
         end; intros [= <-]; reflexivity.
Qed.

Lemma letter_always c : is_letter c = true -> always_matched c = true.
Proof.
  intros H. unfold always_matched, is_identifier_part. rewrite H.
  now rewrite !orb_true_r.
Qed.

Lemma number_char_always c :
  is_digit c || (c =? 46)%N = true -> always_matched c = true.
Proof.
  unfold always_matched. destruct (is_digit c); simpl.
  - intros _. now rewrite orb_true_r.
  - intros H. apply N.eqb_eq in H. subst c. reflexivity.
Qed.

Lemma identifier_part_always c :
  is_identifier_part c = true -> always_matched c = true.
Proof.
  intros H. unfold always_matched. rewrite H. now rewrite !orb_true_r.
Qed.

(** One token: either it is no [Unknown] token and read only characters
    of some rule, or it is the [Unknown] token of one character that no
    rule reads. *)
Lemma next_token_unknown s t r :
  next_token s = Some (t, r) ->
  (is_unknown t = false /\ unknown_chars s = unknown_chars r) \/
  (exists c, t = unknown_token c /\ unknown_chars s = c :: unknown_chars r).
Proof.
  unfold next_token. rewrite (unknown_chars_drop_whitespace s).
  destruct (drop_whitespace s) as [|c s'] eqn:E; [discriminate|].
  pose proof (drop_whitespace_head _ _ _ E) as Hws.
  intros H.
  destruct (is_digit c || (c =? 46)%N && is_digit_opt (hd_error s')) eqn:E1.
  { left. injection H as <- <-. split; [reflexivity|].
    rewrite (span_number_app (c :: s') false) at 1.
    apply unknown_chars_app.
    eapply Forall_impl; [|apply span_number_Forall].
    apply number_char_always. }
  destruct (is_identifier_start c) eqn:E2.
  { left. injection H as <- <-. split; [reflexivity|].
    rewrite (span_app is_identifier_part (c :: s')) at 1.
    apply unknown_chars_app.
    eapply Forall_impl; [|apply span_Forall].
    apply identifier_part_always. }
  destruct (c =? 92)%N eqn:E3.
  { left. injection H as <- <-. split; [reflexivity|].
    cbn [unknown_chars]. unfold rule_matches at 1. rewrite E3.
    rewrite !orb_true_r. cbn [orb].
    rewrite (span_app is_letter s') at 1.
    apply unknown_chars_app.
    eapply Forall_impl; [|apply span_Forall].
    apply letter_always. }
  assert (Hd : is_digit c = false) by (now destruct (is_digit c)).
  assert (Hp : is_identifier_part c = false).
  { unfold is_identifier_start, is_identifier_part in *. rewrite Hd.
    destruct (is_letter c), (c =? 960)%N, (c =? 95)%N; simpl in *;
      auto; discriminate. }
  injection H as H. unfold operator_token in H.
  assert (Two :
    is_char 61%N (hd_error s') = true ->
    (match operatorMap c with Some _ => true | None => false end
     || (c =? 33)%N && is_char 61%N (hd_error s')) = true ->
    unknown_chars (c :: s') = unknown_chars (tl s')).
  { intros Heq Hm.
    destruct s' as [|d s'']; [discriminate|]. simpl in Heq.
    apply N.eqb_eq in Heq. subst d.
    cbn [unknown_chars hd_error tl]. unfold rule_matches at 1.
    cbn [hd_error is_char] in *. rewrite <- !orb_assoc, Hm.
    rewrite !orb_true_r. reflexivity. }
  destruct ((c =? 60)%N && is_char 61%N (hd_error s')) eqn:C1.
  { left. apply andb_prop in C1 as [C1 C1']. injection H as <- <-.
    split; [reflexivity|]. apply Two; auto.
    apply N.eqb_eq in C1. subst c. reflexivity. }
  destruct ((c =? 62)%N && is_char 61%N (hd_error s')) eqn:C2.
  { left. apply andb_prop in C2 as [C2 C2']. injection H as <- <-.
    split; [reflexivity|]. apply Two; auto.
    apply N.eqb_eq in C2. subst c. reflexivity. }
  destruct ((c =? 33)%N && is_char 61%N (hd_error s')) eqn:C3.
  { left. injection H as <- <-.
    split; [reflexivity|].
    pose proof C3 as C3'. apply andb_prop in C3' as [_ C3'].
    apply Two; auto. apply orb_true_r. }
  destruct (operatorMap c) as [t0|] eqn:C4; injection H as <- <-.
  - left. split.
    + apply (operatorMap_not_UNKNOWN _ _ C4).
    + cbn [unknown_chars].
      now rewrite (rule_matches_always _ _ (operatorMap_always _ _ C4)).
  - right. exists c. split; [reflexivity|].
    cbn [unknown_chars]. unfold rule_matches.
    now rewrite Hws, Hd, Hp, E3, C4, C3.
Qed.

(** The [Unknown] tokens are the characters no rule reads, in order. *)
Lemma Lexes_unknown s ts :
  Lexes s ts ->
  filter is_unknown ts = map unknown_token (unknown_chars s).
Proof.
  induction 1 as [s E|s t r ts E _ IH].
  - unfold next_token in E. rewrite (unknown_chars_drop_whitespace s).
    now destruct (drop_whitespace s).
  - destruct (next_token_unknown _ _ _ E) as [[Hu ->]|(c & -> & ->)]; simpl.
    + now rewrite Hu.
    + now rewrite IH.
Qed.

Lemma unknown_chars_nth s :
  forall i c,
    nth_error s i = Some c ->
    rule_matches c (nth_error s (S i)) = false ->
    In c (unknown_chars s).
Proof.
  induction s as [|x s IH]; intros [|i] c; simpl; try discriminate.
  - intros [= ->] H. destruct s; simpl in *; rewrite H; now left.
  - intros H1 H2. specialize (IH i c H1 H2).
    destruct (rule_matches x (hd_error s)); simpl; auto.
Qed.

End LexerFacts.

(* ================================================================== *)
(** ** Facts about the parser                                          *)
(* ================================================================== *)

Module ParserFacts.
Import Lexer Parser ParserLogic.
Local Open Scope parser_scope.

Section Rules.

Context {A : Type} (F : Prop) (T : Parser -> Prop).

Lemma post_ret (a : A) p (Q : A -> Parser -> Prop) :
  Q a p -> outcome F T (ret a p) Q.
Proof. auto. Qed.

Lemma post_throw p (Q : A -> Parser -> Prop) :
  T p -> outcome F T (@throw A p) Q.
Proof. auto. Qed.

Lemma post_bind {B} (m : M A) (f : A -> M B) p (Q : B -> Parser -> Prop) :
  outcome F T (m p) (fun a p' => outcome F T (f a p') Q) ->
  outcome F T (bind m f p) Q.
Proof.
  unfold bind, outcome. destruct (m p); auto.
Qed.

Lemma post_conseq (r : Result A) (Q Q' : A -> Parser -> Prop) :
  outcome F T r Q -> (forall a p', Q a p' -> Q' a p') -> outcome F T r Q'.
Proof. unfold outcome. destruct r; auto. Qed.

End Rules.

Section StateRules.

Variables (F : Prop) (T : Parser -> Prop).

Lemma failed_addError message p :
  failed p {| tokens := tokens p; position := position p;
              errors := errors p ++ [message] |}.
Proof.
  unfold failed; simpl. rewrite length_app. simpl. repeat split. lia.
Qed.

Lemma post_addError message p (Q : unit -> Parser -> Prop) :
  (forall p', failed p p' -> Q tt p') -> outcome F T (addError message p) Q.
Proof.
  intros H. unfold addError, outcome. apply H, failed_addError.
Qed.

Lemma post_consume e p (Q : option Token -> Parser -> Prop) :
  (forall tok, peek p = Some tok -> expected e tok = true ->
               Q (Some tok) (next p)) ->
  (forall p', failed p p' ->
              match peek p with
              | Some tok => expected e tok = false
              | None => True
              end -> Q None p') ->
  outcome F T (consume e p) Q.
Proof.
  intros Hok Hbad. unfold consume.
  destruct (peek p) as [tok|] eqn:E.
  - destruct e as [t|]; simpl in *.
    + destruct (TokenType_eqb (type tok) t) eqn:Et; simpl.
      * now apply Hok.
      * apply Hbad; auto. apply failed_addError.
    + now apply Hok.
  - apply Hbad; auto. apply failed_addError.
Qed.

Lemma post_consume_value p (Q : jsstring -> Parser -> Prop) :
  (forall tok, peek p = Some tok -> Q (value tok) (next p)) ->
  (forall p', failed p p' -> T p') ->
  outcome F T (consume_value p) Q.
Proof.
  intros H HT. unfold consume_value, bind, consume.
  destruct (peek p) as [tok|] eqn:E; simpl; auto.
  apply HT, failed_addError.
Qed.

End StateRules.

Lemma failed_peek p p' : failed p p' -> peek p' = peek p.
Proof. intros (Ht & Hp & _). unfold peek. now rewrite Ht, Hp. Qed.

(** The failure of [consume] is absurd when the token in front is known
    to be of the kind asked for. *)
Ltac consume_absurd :=
  exfalso;
  repeat match goal with
         | H : match peek ?p' with _ => _ end, Fl : failed ?p ?p' |- _ =>
           rewrite (failed_peek _ _ Fl) in H
         end;
  match goal with
  | H : match peek ?p with _ => _ end, E : peek ?p = Some ?t |- _ =>
    rewrite E in H; cbn [expected] in H;
    try match goal with
        | T : type t = _ |- _ => rewrite T in H
        end;
    discriminate H
  | H : match peek ?p with _ => _ end, E : peek_is ?t ?p = true |- _ =>
    revert H; generalize E; unfold peek_is, peek_type;
    destruct (peek p); cbn [option_map expected];
    [intros -> [=] | intros [=]]
  end.

(** One step through the body of a method: a rule of the logic for the
    construct at the head, a case split for a branch, [call] for a call
    of a method. *)
Ltac mstep call :=
  cbv beta;
  lazymatch goal with
  | |- outcome _ _ (ret _ _) _ => apply post_ret
  | |- outcome _ _ (throw _) _ => apply post_throw; try exact I
  | |- outcome _ _ (bind _ _ _) _ => apply post_bind
  | |- outcome _ _ (consume_value _) _ =>
    apply post_consume_value; [intros ? ? | intros ? ?; try exact I]
  | |- outcome _ _ (consume _ _) _ =>
    apply post_consume;
    [intros ? ? ? | intros ? ? ?; try solve [consume_absurd]]
  | |- outcome _ _ (addError _ _) _ => apply post_addError; intros ? ?
  | |- outcome _ _ (if ?c then _ else _) _ => destruct c eqn:?
  | |- outcome _ _ ((if ?c then _ else _) _) _ => destruct c eqn:?
  | |- outcome _ _ (match ?x with _ => _ end) _ => destruct x eqn:?
  | |- outcome _ _ _ _ => call
  end.

(** A call of a method whose specification is among the hypotheses. *)
Ltac mcall :=
  eapply post_conseq; [solve [eauto] | cbv beta; intros ? ? ?].

(** The same for a specification with premises, which [tac] proves. *)
Ltac mcall_by tac :=
  eapply post_conseq;
  [ solve [ eauto
          | match goal with
            | H : _ |- _ => apply H; solve [tac]
            end ]
  | cbv beta; intros ? ? ? ].

(** *** The parser builds no [AssignmentExpression] *)

Lemma peek_is_in t f p :
  f t = true -> peek_is t p = true -> peek_in f p = true.
Proof.
  unfold peek_is, peek_in. destruct (peek_type p) as [u|]; [|discriminate].
  intros Hf Hu. destruct u, t; try discriminate; exact Hf.
Qed.

Ltac no_assignment :=
  cbn [contains_assignment existsb fst snd] in *;
  rewrite ?existsb_app; cbn [existsb];
  repeat match goal with
         | H : _ /\ _ |- _ => destruct H
         | H : _ = false |- _ => rewrite H
         end;
  auto.

Section NoAssignmentStep.

Variable k : nat.

Let Node_ok (a : Node) (_ : Parser) : Prop := contains_assignment a = false.
Let List_ok (l : list Node) (_ : Parser) : Prop :=
  existsb contains_assignment l = false.
Let Rows_ok (rc : list (list Node) * list Node) (_ : Parser) : Prop :=
  existsb (existsb contains_assignment) (fst rc) = false /\
  existsb contains_assignment (snd rc) = false.
Let Comparison_ok (a : Node) (p' : Parser) : Prop :=
  contains_assignment a = false /\
  peek_in is_comparison_operator p' = false.

Hypothesis IHprimary : forall p, post True (parsePrimary k p) Node_ok.
Hypothesis IHbrace : forall args p,
  existsb contains_assignment args = false ->
  post True (parseBraceArguments k args p) List_ok.
Hypothesis IHcomma : forall es p,
  existsb contains_assignment es = false ->
  post True (parseCommaList k es p) List_ok.
Hypothesis IHarray : forall p, post True (parseArrayExpression k p) Node_ok.
Hypothesis IHfrac : forall p, post True (parseFracCommand k p) Node_ok.
Hypothesis IHmatrix : forall p, post True (parseMatrixExpression k p) Node_ok.
Hypothesis IHrows : forall rows row p,
  existsb (existsb contains_assignment) rows = false ->
  existsb contains_assignment row = false ->
  post True (parseMatrixRows k rows row p) Rows_ok.
Hypothesis IHexponent : forall p, post True (parseExponent k p) Node_ok.
Hypothesis IHexponent_loop : forall node p,
  contains_assignment node = false ->
  post True (parseExponent_loop k node p) Node_ok.
Hypothesis IHterm : forall p, post True (parseTerm k p) Node_ok.
Hypothesis IHterm_loop : forall node p,
  contains_assignment node = false ->
  post True (parseTerm_loop k node p) Node_ok.
Hypothesis IHadditive : forall p, post True (parseAdditive k p) Node_ok.
Hypothesis IHadditive_loop : forall node p,
  contains_assignment node = false ->
  post True (parseAdditive_loop k node p) Node_ok.
Hypothesis IHcomparison : forall p,
  post True (parseComparison k p) Comparison_ok.
Hypothesis IHcomparison_loop : forall node p,
  contains_assignment node = false ->
  post True (parseComparison_loop k node p) Comparison_ok.
Hypothesis IHassignment : forall p, post True (parseAssignment k p) Node_ok.
Hypothesis IHexpression : forall p, post True (parseExpression k p) Node_ok.

Ltac finish :=
  subst Node_ok List_ok Rows_ok Comparison_ok; cbv beta in *; no_assignment.

Ltac go := repeat mstep ltac:(mcall_by finish); try solve [finish].

Lemma parsePrimary_no_assignment p :
  post True (parsePrimary (S k) p) Node_ok.
Proof. cbn [parsePrimary]. go. Qed.

Lemma parseBraceArguments_no_assignment args p :
  existsb contains_assignment args = false ->
  post True (parseBraceArguments (S k) args p) List_ok.
Proof.
  intros Hargs. cbn [parseBraceArguments]. go.
Qed.

Lemma parseCommaList_no_assignment es p :
  existsb contains_assignment es = false ->
  post True (parseCommaList (S k) es p) List_ok.
Proof.
  intros Hes. cbn [parseCommaList]. go.
Qed.

Lemma parseArrayExpression_no_assignment p :
  post True (parseArrayExpression (S k) p) Node_ok.
Proof.
  cbn [parseArrayExpression]. go.
Qed.

Lemma parseFracCommand_no_assignment p :
  post True (parseFracCommand (S k) p) Node_ok.
Proof. cbn [parseFracCommand]. go. Qed.

Lemma parseMatrixExpression_no_assignment p :
  post True (parseMatrixExpression (S k) p) Node_ok.
Proof.
  cbn [parseMatrixExpression]. go.
  all: subst Node_ok Rows_ok; cbv beta zeta in *;
    match goal with
    | |- context [if ?c then _ else _] => destruct c
    end; no_assignment.
Qed.

Lemma parseMatrixRows_no_assignment rows row p :
  existsb (existsb contains_assignment) rows = false ->
  existsb contains_assignment row = false ->
  post True (parseMatrixRows (S k) rows row p) Rows_ok.
Proof.
  intros Hrows Hrow. cbn [parseMatrixRows]. go.
Qed.

Lemma parseExponent_no_assignment p :
  post True (parseExponent (S k) p) Node_ok.
Proof.
  cbn [parseExponent]. go.
Qed.

Lemma parseExponent_loop_no_assignment node p :
  contains_assignment node = false ->
  post True (parseExponent_loop (S k) node p) Node_ok.
Proof.
  intros Hnode. cbn [parseExponent_loop]. go.
Qed.

Lemma parseTerm_no_assignment p : post True (parseTerm (S k) p) Node_ok.
Proof.
  cbn [parseTerm]. go.
Qed.

Lemma parseTerm_loop_no_assignment node p :
  contains_assignment node = false ->
  post True (parseTerm_loop (S k) node p) Node_ok.
Proof.
  intros Hnode. cbn [parseTerm_loop]. go.
Qed.

Lemma parseAdditive_no_assignment p :
  post True (parseAdditive (S k) p) Node_ok.
Proof.
  cbn [parseAdditive]. go.
Qed.

Lemma parseAdditive_loop_no_assignment node p :
  contains_assignment node = false ->
  post True (parseAdditive_loop (S k) node p) Node_ok.
Proof.
  intros Hnode. cbn [parseAdditive_loop]. go.
Qed.

Lemma parseComparison_no_assignment p :
  post True (parseComparison (S k) p) Comparison_ok.
Proof.
  cbn [parseComparison]. go.
Qed.

(** The loop of [parseComparison] only stops in front of a token that is
    none of its operators, [Equals] among them. *)
Lemma parseComparison_loop_no_assignment node p :
  contains_assignment node = false ->
  post True (parseComparison_loop (S k) node p) Comparison_ok.
Proof.
  intros Hnode. cbn [parseComparison_loop]. go.
Qed.

(** So the condition of [parseAssignment] never holds. *)
Lemma parseAssignment_no_assignment p :
  post True (parseAssignment (S k) p) Node_ok.
Proof.
  cbn [parseAssignment]. go.
  exfalso. subst Comparison_ok. cbv beta in *.
  match goal with
  | H : _ /\ peek_in _ ?q = false, E : peek_is EQUALS ?q = true |- _ =>
    destruct H as [_ H];
    rewrite (peek_is_in EQUALS is_comparison_operator q eq_refl E) in H;
    discriminate
  end.
Qed.

Lemma parseExpression_no_assignment p :
  post True (parseExpression (S k) p) Node_ok.
Proof. cbn [parseExpression]. go. Qed.

End NoAssignmentStep.

(** Every method, at every depth. *)
Lemma methods_no_assignment fuel :
  (forall p, post True (parsePrimary fuel p)
     (fun a _ => contains_assignment a = false)) /\
  (forall args p, existsb contains_assignment args = false ->
     post True (parseBraceArguments fuel args p)
       (fun l _ => existsb contains_assignment l = false)) /\
  (forall es p, existsb contains_assignment es = false ->
     post True (parseCommaList fuel es p)
       (fun l _ => existsb contains_assignment l = false)) /\
  (forall p, post True (parseArrayExpression fuel p)
     (fun a _ => contains_assignment a = false)) /\
  (forall p, post True (parseFracCommand fuel p)
     (fun a _ => contains_assignment a = false)) /\
  (forall p, post True (parseMatrixExpression fuel p)
     (fun a _ => contains_assignment a = false)) /\
  (forall rows row p,
     existsb (existsb contains_assignment) rows = false ->
     existsb contains_assignment row = false ->
     post True (parseMatrixRows fuel rows row p)
       (fun rc _ =>
          existsb (existsb contains_assignment) (fst rc) = false /\
          existsb contains_assignment (snd rc) = false)) /\
  (forall p, post True (parseExponent fuel p)
     (fun a _ => contains_assignment a = false)) /\
  (forall node p, contains_assignment node = false ->
     post True (parseExponent_loop fuel node p)
       (fun a _ => contains_assignment a = false)) /\
  (forall p, post True (parseTerm fuel p)
     (fun a _ => contains_assignment a = false)) /\
  (forall node p, contains_assignment node = false ->
     post True (parseTerm_loop fuel node p)
       (fun a _ => contains_assignment a = false)) /\
  (forall p, post True (parseAdditive fuel p)
     (fun a _ => contains_assignment a = false)) /\
  (forall node p, contains_assignment node = false ->
     post True (parseAdditive_loop fuel node p)
       (fun a _ => contains_assignment a = false)) /\
  (forall p, post True (parseComparison fuel p)
     (fun a p' => contains_assignment a = false /\
                  peek_in is_comparison_operator p' = false)) /\
  (forall node p, contains_assignment node = false ->
     post True (parseComparison_loop fuel node p)
       (fun a p' => contains_assignment a = false /\
                    peek_in is_comparison_operator p' = false)) /\
  (forall p, post True (parseAssignment fuel p)
     (fun a _ => contains_assignment a = false)) /\
  (forall p, post True (parseExpression fuel p)
     (fun a _ => contains_assignment a = false)).
Proof.
  induction fuel as [|k IH].
  - repeat split; intros; exact I.
  - destruct IH as (H1 & H2 & H3 & H4 & H5 & H6 & H7 & H8 & H9 & H10 & H11
                    & H12 & H13 & H14 & H15 & H16 & H17).
    repeat split; intros.
    + apply parsePrimary_no_assignment; assumption.
    + apply parseBraceArguments_no_assignment; assumption.
    + apply parseCommaList_no_assignment; assumption.
    + apply parseArrayExpression_no_assignment; assumption.
    + apply parseFracCommand_no_assignment; assumption.
    + apply parseMatrixExpression_no_assignment; assumption.
    + apply parseMatrixRows_no_assignment; assumption.
    + apply parseExponent_no_assignment; assumption.
    + apply parseExponent_loop_no_assignment; assumption.
    + apply parseTerm_no_assignment; assumption.
    + apply parseTerm_loop_no_assignment; assumption.
    + apply parseAdditive_no_assignment; assumption.
    + apply parseAdditive_loop_no_assignment; assumption.
    + apply parseComparison_no_assignment; assumption.
    + apply parseComparison_loop_no_assignment; assumption.
    + apply parseAssignment_no_assignment; assumption.
    + apply parseExpression_no_assignment; assumption.
Qed.

(** *** The parser terminates *)

Lemma peek_Some_lt p tok :
  peek p = Some tok -> position p < List.length (tokens p).
Proof.
  unfold peek. intros H. apply nth_error_Some. congruence.
Qed.

Lemma peek_is_lt t p :
  peek_is t p = true -> position p < List.length (tokens p).
Proof.
  unfold peek_is, peek_type. destruct (peek p) eqn:E; [|discriminate].
  intros _. eapply peek_Some_lt; eauto.
Qed.

Lemma peek_in_lt f p :
  peek_in f p = true -> position p < List.length (tokens p).
Proof.
  unfold peek_in, peek_type. destruct (peek p) eqn:E; [|discriminate].
  intros _. eapply peek_Some_lt; eauto.
Qed.

Lemma peek_is_type t p tok :
  peek p = Some tok -> type tok = t -> peek_is t p = true.
Proof.
  unfold peek_is, peek_type. intros -> <-. simpl. now destruct (type tok).
Qed.

Ltac fuel_solve :=
  try solve [eapply peek_is_type; eauto];
  unfold forward, failed, unread, next in *;
  cbn [tokens position errors] in *;
  repeat match goal with
         | H : _ /\ _ |- _ => destruct H
         | |- _ /\ _ => split
         end;
  try congruence;
  repeat match goal with
         | H : peek ?p = Some _ |- _ =>
           generalize (peek_Some_lt _ _ H); clear H; intro
         | H : peek_is _ ?p = true |- _ =>
           generalize (peek_is_lt _ _ H); clear H; intro
         | H : peek_in _ ?p = true |- _ =>
           generalize (peek_in_lt _ _ H); clear H; intro
         | H : tokens ?a = tokens ?b |- _ =>
           generalize (f_equal (@List.length Token) H); clear H; intro
         end;
  unfold next in *; cbn [tokens position errors] in *;
  lia.

Section TerminationStep.

Variable k : nat.

Hypothesis IHprimary : forall p,
  8 * unread p + 1 < k -> post False (parsePrimary k p) (fun _ => forward p).
Hypothesis IHbrace : forall args p,
  8 * unread p < k ->
  post False (parseBraceArguments k args p) (fun _ => forward p).
Hypothesis IHcomma : forall es p,
  8 * unread p < k ->
  post False (parseCommaList k es p) (fun _ => forward p).
Hypothesis IHarray : forall p,
  peek_is LBRACKET p = true -> 8 * unread p < k ->
  post False (parseArrayExpression k p) (fun _ => forward p).
Hypothesis IHfrac : forall p,
  8 * unread p < k ->
  post False (parseFracCommand k p) (fun _ => forward p).
Hypothesis IHmatrix : forall p,
  peek_is LBRACE p = true -> 8 * unread p < k ->
  post False (parseMatrixExpression k p) (fun _ => forward p).
Hypothesis IHrows : forall rows row p,
  8 * unread p < k ->
  post False (parseMatrixRows k rows row p) (fun _ => forward p).
Hypothesis IHexponent : forall p,
  8 * unread p + 2 < k ->
  post False (parseExponent k p) (fun _ => forward p).
Hypothesis IHexponent_loop : forall node p,
  8 * unread p < k ->
  post False (parseExponent_loop k node p) (fun _ => forward p).
Hypothesis IHterm : forall p,
  8 * unread p + 3 < k -> post False (parseTerm k p) (fun _ => forward p).
Hypothesis IHterm_loop : forall node p,
  8 * unread p < k ->
  post False (parseTerm_loop k node p) (fun _ => forward p).
Hypothesis IHadditive : forall p,
  8 * unread p + 4 < k ->
  post False (parseAdditive k p) (fun _ => forward p).
Hypothesis IHadditive_loop : forall node p,
  8 * unread p < k ->
  post False (parseAdditive_loop k node p) (fun _ => forward p).
Hypothesis IHcomparison : forall p,
  8 * unread p + 5 < k ->
  post False (parseComparison k p) (fun _ => forward p).
Hypothesis IHcomparison_loop : forall node p,
  8 * unread p < k ->
  post False (parseComparison_loop k node p) (fun _ => forward p).
Hypothesis IHassignment : forall p,
  8 * unread p + 6 < k ->
  post False (parseAssignment k p) (fun _ => forward p).
Hypothesis IHexpression : forall p,
  8 * unread p + 7 < k ->
  post False (parseExpression k p) (fun _ => forward p).

Ltac go := repeat mstep ltac:(mcall_by fuel_solve); try solve [fuel_solve].

Lemma parsePrimary_terminates p :
  8 * unread p + 1 < S k ->
  post False (parsePrimary (S k) p) (fun _ => forward p).
Proof. intros Hk. cbn [parsePrimary]. go. Qed.

Lemma parseBraceArguments_terminates args p :
  8 * unread p < S k ->
  post False (parseBraceArguments (S k) args p) (fun _ => forward p).
Proof. intros Hk. cbn [parseBraceArguments]. go. Qed.

Lemma parseCommaList_terminates es p :
  8 * unread p < S k ->
  post False (parseCommaList (S k) es p) (fun _ => forward p).
Proof. intros Hk. cbn [parseCommaList]. go. Qed.

Lemma parseArrayExpression_terminates p :
  peek_is LBRACKET p = true -> 8 * unread p < S k ->
  post False (parseArrayExpression (S k) p) (fun _ => forward p).
Proof. intros Hp Hk. cbn [parseArrayExpression]. go. Qed.

Lemma parseFracCommand_terminates p :
  8 * unread p < S k ->
  post False (parseFracCommand (S k) p) (fun _ => forward p).
Proof. intros Hk. cbn [parseFracCommand]. go. Qed.

Lemma parseMatrixExpression_terminates p :
  peek_is LBRACE p = true -> 8 * unread p < S k ->
  post False (parseMatrixExpression (S k) p) (fun _ => forward p).
Proof. intros Hp Hk. cbn [parseMatrixExpression]. go. Qed.

Lemma parseMatrixRows_terminates rows row p :
  8 * unread p < S k ->
  post False (parseMatrixRows (S k) rows row p) (fun _ => forward p).
Proof. intros Hk. cbn [parseMatrixRows]. go. Qed.

Lemma parseExponent_terminates p :
  8 * unread p + 2 < S k ->
  post False (parseExponent (S k) p) (fun _ => forward p).
Proof. intros Hk. cbn [parseExponent]. go. Qed.

Lemma parseExponent_loop_terminates node p :
  8 * unread p < S k ->
  post False (parseExponent_loop (S k) node p) (fun _ => forward p).
Proof. intros Hk. cbn [parseExponent_loop]. go. Qed.

Lemma parseTerm_terminates p :
  8 * unread p + 3 < S k ->
  post False (parseTerm (S k) p) (fun _ => forward p).
Proof. intros Hk. cbn [parseTerm]. go. Qed.

Lemma parseTerm_loop_terminates node p :
  8 * unread p < S k ->
  post False (parseTerm_loop (S k) node p) (fun _ => forward p).
Proof. intros Hk. cbn [parseTerm_loop]. go. Qed.

Lemma parseAdditive_terminates p :
  8 * unread p + 4 < S k ->
  post False (parseAdditive (S k) p) (fun _ => forward p).
Proof. intros Hk. cbn [parseAdditive]. go. Qed.

Lemma parseAdditive_loop_terminates node p :
  8 * unread p < S k ->
  post False (parseAdditive_loop (S k) node p) (fun _ => forward p).
Proof. intros Hk. cbn [parseAdditive_loop]. go. Qed.

Lemma parseComparison_terminates p :
  8 * unread p + 5 < S k ->
  post False (parseComparison (S k) p) (fun _ => forward p).
Proof. intros Hk. cbn [parseComparison]. go. Qed.

Lemma parseComparison_loop_terminates node p :
  8 * unread p < S k ->
  post False (parseComparison_loop (S k) node p) (fun _ => forward p).
Proof. intros Hk. cbn [parseComparison_loop]. go. Qed.

Lemma parseAssignment_terminates p :
  8 * unread p + 6 < S k ->
  post False (parseAssignment (S k) p) (fun _ => forward p).
Proof. intros Hk. cbn [parseAssignment]. go. Qed.

Lemma parseExpression_terminates p :
  8 * unread p + 7 < S k ->
  post False (parseExpression (S k) p) (fun _ => forward p).
Proof. intros Hk. cbn [parseExpression]. go. Qed.

End TerminationStep.

(** With fuel above eight times the tokens left, plus the number of
    methods a method can call before one reads a token, no method runs out
    of fuel, and none moves the cursor back. *)
Lemma methods_terminate fuel :
  (forall p, 8 * unread p + 1 < fuel ->
     post False (parsePrimary fuel p) (fun _ => forward p)) /\
  (forall args p, 8 * unread p < fuel ->
     post False (parseBraceArguments fuel args p) (fun _ => forward p)) /\
  (forall es p, 8 * unread p < fuel ->
     post False (parseCommaList fuel es p) (fun _ => forward p)) /\
  (forall p, peek_is LBRACKET p = true -> 8 * unread p < fuel ->
     post False (parseArrayExpression fuel p) (fun _ => forward p)) /\
  (forall p, 8 * unread p < fuel ->
     post False (parseFracCommand fuel p) (fun _ => forward p)) /\
  (forall p, peek_is LBRACE p = true -> 8 * unread p < fuel ->
     post False (parseMatrixExpression fuel p) (fun _ => forward p)) /\
  (forall rows row p, 8 * unread p < fuel ->
     post False (parseMatrixRows fuel rows row p) (fun _ => forward p)) /\
  (forall p, 8 * unread p + 2 < fuel ->
     post False (parseExponent fuel p) (fun _ => forward p)) /\
  (forall node p, 8 * unread p < fuel ->
     post False (parseExponent_loop fuel node p) (fun _ => forward p)) /\
  (forall p, 8 * unread p + 3 < fuel ->
     post False (parseTerm fuel p) (fun _ => forward p)) /\
  (forall node p, 8 * unread p < fuel ->
     post False (parseTerm_loop fuel node p) (fun _ => forward p)) /\
  (forall p, 8 * unread p + 4 < fuel ->
     post False (parseAdditive fuel p) (fun _ => forward p)) /\
  (forall node p, 8 * unread p < fuel ->
     post False (parseAdditive_loop fuel node p) (fun _ => forward p)) /\
  (forall p, 8 * unread p + 5 < fuel ->
     post False (parseComparison fuel p) (fun _ => forward p)) /\
  (forall node p, 8 * unread p < fuel ->
     post False (parseComparison_loop fuel node p) (fun _ => forward p)) /\
  (forall p, 8 * unread p + 6 < fuel ->
     post False (parseAssignment fuel p) (fun _ => forward p)) /\
  (forall p, 8 * unread p + 7 < fuel ->
     post False (parseExpression fuel p) (fun _ => forward p)).
Proof.
  induction fuel as [|k IH].
  - repeat split; intros; lia.
  - destruct IH as (H1 & H2 & H3 & H4 & H5 & H6 & H7 & H8 & H9 & H10 & H11
                    & H12 & H13 & H14 & H15 & H16 & H17).
    repeat split; intros.
    + apply parsePrimary_terminates; assumption.
    + apply parseBraceArguments_terminates; assumption.
    + apply parseCommaList_terminates; assumption.
    + apply parseArrayExpression_terminates; assumption.
    + apply parseFracCommand_terminates; assumption.
    + apply parseMatrixExpression_terminates; assumption.
    + apply parseMatrixRows_terminates; assumption.
    + apply parseExponent_terminates; assumption.
    + apply parseExponent_loop_terminates; assumption.
    + apply parseTerm_terminates; assumption.
    + apply parseTerm_loop_terminates; assumption.
    + apply parseAdditive_terminates; assumption.
    + apply parseAdditive_loop_terminates; assumption.
    + apply parseComparison_terminates; assumption.
    + apply parseComparison_loop_terminates; assumption.
    + apply parseAssignment_terminates; assumption.
    + apply parseExpression_terminates; assumption.
Qed.

(** [parse] never runs out of fuel: it returns a tree or throws. *)
Lemma parse_terminates ts : parse ts <> NoFuel.
Proof.
  unfold parse, run.
  pose proof (methods_terminate (fuel_for ts)) as H.
  do 16 apply proj2 in H. specialize (H (new ts)).
  assert (Hf : 8 * unread (new ts) + 7 < fuel_for ts).
  { unfold unread, fuel_for, new. simpl. lia. }
  specialize (H Hf). unfold outcome in H.
  destruct (parseExpression (fuel_for ts) (new ts)); [| |contradiction].
  - destruct (0 <? _); discriminate.
  - destruct (0 <? _); discriminate.
Qed.

(** *** A [TypeError] comes with a diagnostic *)

(** [null] stands where a diagnostic was recorded, and the two property
    reads that throw on [null] ([this.consume().value] at the end of the
    input, [node.type] in [parseAssignment]) throw after one was. *)
Ltac diagnosed :=
  unfold null_reported, reported, failed in *;
  cbn [tokens position errors next] in *;
  intros; subst;
  try discriminate;
  repeat match goal with
         | H : _ /\ _ |- _ => destruct H
         | H : ?x = ?x -> _ |- _ => specialize (H eq_refl)
         end;
  try lia; auto.

Section DiagnosticStep.

Variable k : nat.

Hypothesis IHPrimary :
  forall p, outcome True reported (parsePrimary k p) null_reported.
Hypothesis IHBraceArguments :
  forall args p,
    outcome True reported (parseBraceArguments k args p) (fun _ _ => True).
Hypothesis IHCommaList :
  forall es p,
    outcome True reported (parseCommaList k es p) (fun _ _ => True).
Hypothesis IHArrayExpression :
  forall p, outcome True reported (parseArrayExpression k p) null_reported.
Hypothesis IHFracCommand :
  forall p, outcome True reported (parseFracCommand k p) null_reported.
Hypothesis IHMatrixExpression :
  forall p, outcome True reported (parseMatrixExpression k p) null_reported.
Hypothesis IHMatrixRows :
  forall rows row p,
    outcome True reported (parseMatrixRows k rows row p) (fun _ _ => True).
Hypothesis IHExponent :
  forall p, outcome True reported (parseExponent k p) null_reported.
Hypothesis IHExponent_loop :
  forall node p, null_reported node p ->
    outcome True reported (parseExponent_loop k node p) null_reported.
Hypothesis IHTerm :
  forall p, outcome True reported (parseTerm k p) null_reported.
Hypothesis IHTerm_loop :
  forall node p, null_reported node p ->
    outcome True reported (parseTerm_loop k node p) null_reported.
Hypothesis IHAdditive :
  forall p, outcome True reported (parseAdditive k p) null_reported.
Hypothesis IHAdditive_loop :
  forall node p, null_reported node p ->
    outcome True reported (parseAdditive_loop k node p) null_reported.
Hypothesis IHComparison :
  forall p, outcome True reported (parseComparison k p) null_reported.
Hypothesis IHComparison_loop :
  forall node p, null_reported node p ->
    outcome True reported (parseComparison_loop k node p) null_reported.
Hypothesis IHAssignment :
  forall p, outcome True reported (parseAssignment k p) null_reported.
Hypothesis IHExpression :
  forall p, outcome True reported (parseExpression k p) null_reported.
Ltac go := repeat mstep ltac:(mcall_by diagnosed); try solve [diagnosed].

Lemma parsePrimary_diagnosed p :
  outcome True reported (parsePrimary (S k) p) null_reported.
Proof. cbn [parsePrimary]. go. Qed.

Lemma parseBraceArguments_diagnosed args p :
  outcome True reported (parseBraceArguments (S k) args p) (fun _ _ => True).
Proof. cbn [parseBraceArguments]. go. Qed.

Lemma parseCommaList_diagnosed es p :
  outcome True reported (parseCommaList (S k) es p) (fun _ _ => True).
Proof. cbn [parseCommaList]. go. Qed.

Lemma parseArrayExpression_diagnosed p :
  outcome True reported (parseArrayExpression (S k) p) null_reported.
Proof. cbn [parseArrayExpression]. go. Qed.

Lemma parseFracCommand_diagnosed p :
  outcome True reported (parseFracCommand (S k) p) null_reported.
Proof. cbn [parseFracCommand]. go. Qed.

Lemma parseMatrixExpression_diagnosed p :
  outcome True reported (parseMatrixExpression (S k) p) null_reported.
Proof. cbn [parseMatrixExpression]. go. Qed.

Lemma parseMatrixRows_diagnosed rows row p :
  outcome True reported (parseMatrixRows (S k) rows row p) (fun _ _ => True).
Proof. cbn [parseMatrixRows]. go. Qed.

Lemma parseExponent_diagnosed p :
  outcome True reported (parseExponent (S k) p) null_reported.
Proof. cbn [parseExponent]. go. Qed.

Lemma parseExponent_loop_diagnosed node p :
  null_reported node p ->
  outcome True reported (parseExponent_loop (S k) node p) null_reported.
Proof. intros Hn. cbn [parseExponent_loop]. go. Qed.

Lemma parseTerm_diagnosed p :
  outcome True reported (parseTerm (S k) p) null_reported.
Proof. cbn [parseTerm]. go. Qed.

Lemma parseTerm_loop_diagnosed node p :
  null_reported node p ->
  outcome True reported (parseTerm_loop (S k) node p) null_reported.
Proof. intros Hn. cbn [parseTerm_loop]. go. Qed.

Lemma parseAdditive_diagnosed p :
  outcome True reported (parseAdditive (S k) p) null_reported.
Proof. cbn [parseAdditive]. go. Qed.

Lemma parseAdditive_loop_diagnosed node p :
  null_reported node p ->
  outcome True reported (parseAdditive_loop (S k) node p) null_reported.
Proof. intros Hn. cbn [parseAdditive_loop]. go. Qed.

Lemma parseComparison_diagnosed p :
  outcome True reported (parseComparison (S k) p) null_reported.
Proof. cbn [parseComparison]. go. Qed.

Lemma parseComparison_loop_diagnosed node p :
  null_reported node p ->
  outcome True reported (parseComparison_loop (S k) node p) null_reported.
Proof. intros Hn. cbn [parseComparison_loop]. go. Qed.

Lemma parseAssignment_diagnosed p :
  outcome True reported (parseAssignment (S k) p) null_reported.
Proof. cbn [parseAssignment]. go. Qed.

Lemma parseExpression_diagnosed p :
  outcome True reported (parseExpression (S k) p) null_reported.
Proof. cbn [parseExpression]. go. Qed.

End DiagnosticStep.

(** Whatever the fuel, a method gives [null] or throws only after a
    diagnostic was recorded. *)
Lemma methods_diagnosed fuel :
  (forall p, outcome True reported (parsePrimary fuel p) null_reported) /\
  (forall args p,
    outcome True reported (parseBraceArguments fuel args p)
      (fun _ _ => True)) /\
  (forall es p,
    outcome True reported (parseCommaList fuel es p) (fun _ _ => True)) /\
  (forall p,
    outcome True reported (parseArrayExpression fuel p) null_reported) /\
  (forall p, outcome True reported (parseFracCommand fuel p) null_reported) /\
  (forall p,
    outcome True reported (parseMatrixExpression fuel p) null_reported) /\
  (forall rows row p,
    outcome True reported (parseMatrixRows fuel rows row p)
      (fun _ _ => True)) /\
  (forall p, outcome True reported (parseExponent fuel p) null_reported) /\
  (forall node p, null_reported node p ->
    outcome True reported (parseExponent_loop fuel node p) null_reported) /\
  (forall p, outcome True reported (parseTerm fuel p) null_reported) /\
  (forall node p, null_reported node p ->
    outcome True reported (parseTerm_loop fuel node p) null_reported) /\
  (forall p, outcome True reported (parseAdditive fuel p) null_reported) /\
  (forall node p, null_reported node p ->
    outcome True reported (parseAdditive_loop fuel node p) null_reported) /\
  (forall p, outcome True reported (parseComparison fuel p) null_reported) /\
  (forall node p, null_reported node p ->
    outcome True reported (parseComparison_loop fuel node p) null_reported) /\
  (forall p, outcome True reported (parseAssignment fuel p) null_reported) /\
  (forall p, outcome True reported (parseExpression fuel p) null_reported).
Proof.
  induction fuel as [|k IH].
  - repeat split; intros; exact I.
  - destruct IH as (H1 & H2 & H3 & H4 & H5 & H6 & H7 & H8 & H9 & H10 & H11
                    & H12 & H13 & H14 & H15 & H16 & H17).
    repeat split; intros.
    + apply parsePrimary_diagnosed; assumption.
    + apply parseBraceArguments_diagnosed; assumption.
    + apply parseCommaList_diagnosed; assumption.
    + apply parseArrayExpression_diagnosed; assumption.
    + apply parseFracCommand_diagnosed; assumption.
    + apply parseMatrixExpression_diagnosed; assumption.
    + apply parseMatrixRows_diagnosed; assumption.
    + apply parseExponent_diagnosed; assumption.
    + apply parseExponent_loop_diagnosed; assumption.
    + apply parseTerm_diagnosed; assumption.
    + apply parseTerm_loop_diagnosed; assumption.
    + apply parseAdditive_diagnosed; assumption.
    + apply parseAdditive_loop_diagnosed; assumption.
    + apply parseComparison_diagnosed; assumption.
    + apply parseComparison_loop_diagnosed; assumption.
    + apply parseAssignment_diagnosed; assumption.
    + apply parseExpression_diagnosed; assumption.
Qed.

(** [parse] ends in a tree or in an [Error] that carries the diagnostics:
    the [TypeError] of a property read on [null] is never what the caller
    sees, and the fuel is enough. *)
Lemma parse_outcome ts :
  (exists ast, parse ts = Ok ast) \/
  (exists message, parse ts = ThrowError message).
Proof.
  pose proof (parse_terminates ts) as Hfuel.
  pose proof (methods_diagnosed (fuel_for ts)) as H.
  do 16 apply proj2 in H. specialize (H (new ts)).
  unfold parse, run in *. unfold outcome in H.
  destruct (parseExpression (fuel_for ts) (new ts)) as [a p|p|].
  - destruct (0 <? _); eauto.
  - unfold reported in H. apply Nat.ltb_lt in H. rewrite H. eauto.
  - contradiction.
Qed.

End ParserFacts.

(* ================================================================== *)
(** ** Facts about the two canonicalizers                              *)
(* ================================================================== *)

Module RenderFacts.
Import Render.

Lemma map_ext_existsb {A B} (f g : A -> B) (c : A -> bool) l :
  Forall (fun x => c x = false -> f x = g x) l ->
  existsb c l = false -> map f l = map g l.
Proof.
  induction 1 as [|x l Hx _ IH]; simpl; auto.
  intros H. apply orb_false_elim in H as [H1 H2].
  f_equal; auto.
Qed.

(** Away from a two-argument [\frac] the two functions are the same. *)
Lemma astToString_agree nerdamer node :
  contains_fraction node = false ->
  Part000.astToString nerdamer node = astToString node.
Proof.
  induction node using Node_induction; cbn [contains_fraction]; intros Hc;
    try reflexivity.
  - apply orb_false_elim in Hc as [H1 H2].
    cbn [Part000.astToString astToString].
    now rewrite IHnode1, IHnode2.
  - cbn [Part000.astToString astToString]. now rewrite IHnode.
  - apply orb_false_elim in Hc as [H1 H2].
    cbn [Part000.astToString astToString].
    rewrite (map_ext_existsb _ _ _ _ H H2).
    destruct (streq name (str "\frac")); [|reflexivity].
    destruct args as [|n [|d [|x args]]]; try reflexivity.
    discriminate H1.
  - cbn [Part000.astToString astToString].
    now rewrite (map_ext_existsb _ _ _ _ H Hc).
  - cbn [Part000.astToString astToString].
    do 3 f_equal.
    apply (map_ext_existsb _ _ (existsb contains_fraction)); [|exact Hc].
    eapply Forall_impl; [|exact H].
    intros row Hrow Hc'. cbv beta.
    now rewrite (map_ext_existsb _ _ _ _ Hrow Hc').
  - apply orb_false_elim in Hc as [H1 H2].
    cbn [Part000.astToString astToString].
    now rewrite IHnode1, IHnode2.
  - apply orb_false_elim in Hc as [H1 H2].
    cbn [Part000.astToString astToString].
    now rewrite IHnode1, IHnode2.
  - cbn [Part000.astToString astToString]. now rewrite IHnode.
Qed.

Lemma map_ext_Forall_eq {A B} (f g : A -> B) l :
  Forall (fun x => f x = g x) l -> map f l = map g l.
Proof. induction 1; simpl; f_equal; auto. Qed.

(** When every call of the library throws, the two functions are the same
    on every tree. *)
Lemma astToString_agree_fallback nerdamer node :
  (forall expr, nerdamer expr = None) ->
  Part000.astToString nerdamer node = astToString node.
Proof.
  intros Hn.
  induction node using Node_induction;
    cbn [Part000.astToString astToString]; try reflexivity.
  - now rewrite IHnode1, IHnode2.
  - now rewrite IHnode.
  - rewrite (map_ext_Forall_eq _ _ _ H).
    destruct (streq name (str "\frac")); [|reflexivity].
    destruct args as [|n [|d [|x args]]]; try reflexivity.
    rewrite Hn.
    apply Forall_cons_iff in H as [-> H].
    apply Forall_cons_iff in H as [-> _]. reflexivity.
  - now rewrite (map_ext_Forall_eq _ _ _ H).
  - do 3 f_equal. apply map_ext_Forall_eq.
    eapply Forall_impl; [|exact H].
    intros row Hrow. cbv beta. now rewrite (map_ext_Forall_eq _ _ _ Hrow).
  - now rewrite IHnode1, IHnode2.
  - now rewrite IHnode1, IHnode2.
  - now rewrite IHnode.
Qed.

(** What the older function makes of a two-argument [\frac]. *)
Lemma astToString_fraction nerdamer n d :
  Part000.astToString nerdamer (FunctionCall (str "\frac") [n; d])
  = let expr :=
      parens (Part000.astToString nerdamer n) ++ str "/"
      ++ parens (Part000.astToString nerdamer d) in
    match nerdamer expr with
    | Some simplified => simplified
    | None => expr
    end.
Proof. reflexivity. Qed.

Lemma existsb_flat_map {A B} (c : B -> bool) (f : A -> list B) l :
  existsb c (flat_map f l) = existsb (fun x => existsb c (f x)) l.
Proof.
  induction l as [|x l IH]; simpl; auto.
  now rewrite existsb_app, IH.
Qed.

Lemma existsb_ext_Forall {A} (f g : A -> bool) l :
  Forall (fun x => f x = g x) l -> existsb f l = existsb g l.
Proof.
  induction 1 as [|x l Hx _ IH]; simpl; congruence.
Qed.

(** [containsSymbols] finds a variable where the tree has an identifier
    that is no known constant. *)
Lemma containsSymbols_identifiers node :
  containsSymbols node = existsb is_variable (identifiers node).
Proof.
  induction node using Node_induction;
    cbn [containsSymbols identifiers existsb]; try reflexivity.
  - unfold is_variable, known_constants. cbn [existsb].
    rewrite !negb_orb, !andb_assoc. cbn [negb].
    now rewrite andb_true_r, orb_false_r.
  - now rewrite existsb_app, IHnode1, IHnode2.
  - exact IHnode.
  - rewrite existsb_flat_map. now apply existsb_ext_Forall.
  - rewrite existsb_flat_map. now apply existsb_ext_Forall.
  - rewrite existsb_flat_map. apply existsb_ext_Forall.
    eapply Forall_impl; [|exact H].
    intros row Hrow. rewrite existsb_flat_map.
    now apply existsb_ext_Forall.
  - now rewrite existsb_app, IHnode1, IHnode2.
  - now rewrite existsb_app, IHnode1, IHnode2.
  - exact IHnode.
Qed.

(** Operators with a name inherited from [Object.prototype]: the value
    looked up is identical to itself, so a child with the operator of its
    parent is parenthesized on the right only; two different values
    compare as their texts; and none compares with a number. *)
Lemma needsParentheses_inherited l r l' r' :
  (forall position,
     needsParentheses (BinaryExpression (str "constructor") l r)
       (BinaryExpression (str "constructor") l' r') position
     = is_right position) /\
  (forall position,
     needsParentheses (BinaryExpression (str "constructor") l r)
       (BinaryExpression (str "toString") l' r') position = true) /\
  (forall position,
     needsParentheses (BinaryExpression (str "toString") l r)
       (BinaryExpression (str "constructor") l' r') position = false) /\
  (forall position,
     needsParentheses (BinaryExpression (str "+") l r)
       (BinaryExpression (str "constructor") l' r') position = false) /\
  (forall position,
     needsParentheses (BinaryExpression (str "constructor") l r)
       (BinaryExpression (str "+") l' r') position = false).
Proof. repeat split; intros [|]; reflexivity. Qed.

End RenderFacts.

(* ================================================================== *)
(** ** Reading back what the canonicalizer wrote                       *)
(* ================================================================== *)

Module FragmentFacts.
Import Lexer LexSpec Render Fragment.

Lemma streq_eq a : forall b, streq a b = true -> a = b.
Proof.
  induction a as [|x a IH]; intros [|y b]; simpl; try discriminate; auto.
  intros H. apply andb_prop in H as [H1 H2].
  apply N.eqb_eq in H1. f_equal; auto.
Qed.

(** Turns the tests of the character classes into arithmetic. *)
Ltac classes :=
  unfold is_identifier_start, is_identifier_part in *;
  unfold is_whitespace, is_digit, is_letter in *;
  repeat rewrite ?andb_true_iff, ?orb_true_iff, ?andb_false_iff,
    ?orb_false_iff, ?negb_true_iff, ?negb_false_iff, ?N.leb_le, ?N.eqb_eq,
    ?N.leb_gt, ?N.eqb_neq in *;
  lia.

Lemma digit_not_whitespace c : is_digit c = true -> is_whitespace c = false.
Proof. classes. Qed.

Lemma identifier_start_facts c :
  is_identifier_start c = true ->
  is_whitespace c = false /\ is_digit c = false /\ (c =? 46)%N = false.
Proof. intros H. repeat split; classes. Qed.

(** *** One token at the head of a text *)

Lemma span_number_stop v :
  forall hasDot rest,
    snd (span_number hasDot v) = [] -> stops rest = true ->
    span_number hasDot (v ++ rest) = (v, rest).
Proof.
  induction v as [|c v IH]; intros hasDot rest Hv Hrest.
  - destruct rest as [|d rest]; [reflexivity|]. simpl in *.
    assert (E : is_digit d || (d =? 46)%N && negb hasDot = false).
    { apply negb_true_iff in Hrest.
      destruct (is_digit d), (d =? 46)%N; simpl in *; auto; discriminate. }
    now rewrite E.
  - simpl in *.
    destruct (is_digit c || (c =? 46)%N && negb hasDot); [|discriminate].
    specialize (IH (if (c =? 46)%N then true else hasDot) rest).
    destruct (span_number _ v) as [a b]; simpl in *.
    now rewrite (IH Hv Hrest).
Qed.

Lemma span_stop p v rest :
  forallb p v = true ->
  match rest with [] => True | d :: _ => p d = false end ->
  span p (v ++ rest) = (v, rest).
Proof.
  intros Hv Hrest. induction v as [|c v IH]; simpl in *.
  - destruct rest as [|d rest]; [reflexivity|]. simpl. now rewrite Hrest.
  - apply andb_prop in Hv as [Hc Hv]. rewrite Hc. now rewrite (IH Hv).
Qed.

Lemma stops_identifier rest :
  stops rest = true ->
  match rest with [] => True | d :: _ => is_identifier_part d = false end.
Proof.
  destruct rest as [|d rest]; simpl; auto. intros H.
  apply negb_true_iff in H.
  destruct (is_identifier_part d); auto. now rewrite !orb_true_r in H.
Qed.

Lemma next_token_number v rest :
  number_text v = true -> stops rest = true ->
  next_token (v ++ rest) = Some (number_token v, rest).
Proof.
  unfold number_text. destruct v as [|c v]; [discriminate|].
  intros H Hrest. apply andb_prop in H as [Hc Hv].
  destruct (snd (span_number false (c :: v))) eqn:Hs; [|discriminate].
  assert (Hws : is_whitespace c = false).
  { destruct (is_digit c) eqn:Hd; [now apply digit_not_whitespace|].
    simpl in Hc. apply andb_prop in Hc as [Hc _].
    apply N.eqb_eq in Hc. now subst c. }
  assert (Hc' : is_digit c || (c =? 46)%N && is_digit_opt (hd_error (v ++ rest))
                = true).
  { destruct (is_digit c); [reflexivity|]. simpl in *.
    destruct (c =? 46)%N; [|discriminate]. simpl in *.
    destruct v; [discriminate|exact Hc]. }
  unfold next_token. cbn [app drop_whitespace]. rewrite Hws, Hc'.
  change (c :: v ++ rest) with ((c :: v) ++ rest).
  now rewrite (span_number_stop _ _ _ Hs Hrest).
Qed.

Lemma next_token_identifier v rest :
  identifier_text v = true -> stops rest = true ->
  next_token (v ++ rest) = Some (identifier_token v, rest).
Proof.
  unfold identifier_text. destruct v as [|c v]; [discriminate|].
  intros H Hrest. apply andb_prop in H as [Hc Hv].
  destruct (identifier_start_facts _ Hc) as (Hws & Hd & Hdot).
  unfold next_token. cbn [app drop_whitespace]. rewrite Hws, Hd, Hdot, Hc.
  cbn [orb andb].
  change (c :: v ++ rest) with ((c :: v) ++ rest).
  now rewrite (span_stop _ _ _ Hv (stops_identifier _ Hrest)).
Qed.

Lemma starts_operand_not_equals s :
  starts_operand s = true -> is_char 61%N (hd_error s) = false.
Proof.
  destruct s as [|c s]; [discriminate|]. simpl.
  destruct (c =? 61)%N eqn:E; [|reflexivity].
  apply N.eqb_eq in E. subst c. discriminate.
Qed.

Lemma starts_operand_app s rest :
  starts_operand s = true -> starts_operand (s ++ rest) = true.
Proof. destruct s; [discriminate|auto]. Qed.

(** An operator of the grammar in front of an operand is read as its own
    token: the operand does not start with the [=] that would make [<] or
    [>] a two-character operator. *)
Lemma next_token_operator op s :
  operator_type op <> UNKNOWN -> starts_operand s = true ->
  next_token (op ++ s) = Some (operator_token op, s).
Proof.
  intros Hop Hs. pose proof (starts_operand_not_equals _ Hs) as He.
  unfold operator_token, operator_type in *.
  repeat match goal with
         | |- context [if streq op ?g then _ else _] =>
           let E := fresh "E" in
           destruct (streq op g) eqn:E;
           [apply streq_eq in E; subst op;
            unfold next_token, LexSpec.operator_token;
            cbn -[is_char]; rewrite ?He; reflexivity|]
         | H : context [if streq op ?g then _ else _] |- _ =>
           rewrite ?E in H
         end.
  repeat match type of Hop with
         | context [if streq op ?g then _ else _] =>
           destruct (streq op g); try discriminate
         end.
  congruence.
Qed.


(** *** What [astToString] writes for a tree of the grammar *)

Lemma binary_level_facts op m :
  binary_level op = Some m ->
  getOperatorPrecedence (Some op) = Level m /\ 3 <= m <= 5 /\
  streq op (str "^") = (m =? 5) /\ operator_type op <> UNKNOWN.
Proof.
  unfold binary_level.
  repeat match goal with
         | |- context [streq op ?g] =>
           let E := fresh "E" in
           destruct (streq op g) eqn:E;
           [apply streq_eq in E; subst op; intros [= <-];
            repeat split; try lia; try reflexivity; discriminate|];
           cbn [orb]
         end.
  discriminate.
Qed.

Lemma comparison_glyph_operator op :
  is_comparison_glyph op = true -> operator_type op <> UNKNOWN.
Proof.
  unfold is_comparison_glyph.
  repeat match goal with
         | |- context [streq op ?g] =>
           let E := fresh "E" in
           destruct (streq op g) eqn:E;
           [apply streq_eq in E; subst op; intros _; discriminate|];
           cbn [orb]
         end.
  discriminate.
Qed.

Lemma sign_operator op :
  streq op (str "+") || streq op (str "-") = true ->
  operator_type op <> UNKNOWN /\ starts_operand op = true.
Proof.
  destruct (streq op (str "+")) eqn:E1;
    [apply streq_eq in E1; subst op; intros _; split;
     [discriminate|reflexivity]|].
  destruct (streq op (str "-")) eqn:E2;
    [apply streq_eq in E2; subst op; intros _; split;
     [discriminate|reflexivity]|].
  discriminate.
Qed.

(** An operator of the grammar ends the number or identifier before
    it. *)
Lemma stops_operator op s :
  operator_type op <> UNKNOWN -> stops (op ++ s) = true.
Proof.
  unfold operator_type.
  repeat match goal with
         | |- context [if streq op ?g then _ else _] =>
           let E := fresh "E" in
           destruct (streq op g) eqn:E;
           [apply streq_eq in E; subst op; intros _; reflexivity|]
         end.
  congruence.
Qed.

(** No child of a binary node of the grammar needs parentheses: a left
    operand is of the level of the operator at least, and then on the
    left; a right operand is of a higher level. *)
Lemma needsParentheses_shape op l r m child k position :
  binary_level op = Some m ->
  shape k child = true ->
  (k = m /\ position = left_position) \/ k = S m ->
  needsParentheses child (BinaryExpression op l r) position = false.
Proof.
  intros Hop Hc Hk.
  destruct child; try reflexivity.
  cbn [shape] in Hc.
  destruct (binary_level operator) as [cm|] eqn:Hcop; [|discriminate].
  apply andb_prop in Hc as [Hc _]. apply andb_prop in Hc as [Hc _].
  apply Nat.leb_le in Hc.
  destruct (binary_level_facts _ _ Hop) as (Pp & Rp & Cp & _).
  destruct (binary_level_facts _ _ Hcop) as (Pc & Rc & Cc & _).
  unfold needsParentheses, operator_is. cbn [operator_of].
  rewrite Pp, Pc, Cp, Cc. cbn [greater identical].
  destruct (cm <? m) eqn:E1; [apply Nat.ltb_lt in E1; lia|].
  destruct (m =? cm) eqn:E2; [|reflexivity].
  apply Nat.eqb_eq in E2. subst cm.
  destruct Hk as [[Hk Hpos]|Hk]; [|lia].
  subst position. destruct (m =? 5); reflexivity.
Qed.

Lemma astToString_binary level op l r :
  shape level (BinaryExpression op l r) = true ->
  astToString (BinaryExpression op l r)
  = astToString l ++ op ++ astToString r.
Proof.
  cbn [shape astToString].
  destruct (binary_level op) as [m|] eqn:Hop; [|discriminate].
  intros H. apply andb_prop in H as [H Hr]. apply andb_prop in H as [_ Hl].
  rewrite (needsParentheses_shape op l r m l m left_position Hop Hl)
    by (left; auto).
  rewrite (needsParentheses_shape op l r m r (S m) right_position Hop Hr)
    by (right; auto).
  reflexivity.
Qed.

Lemma shape_primary_unary o :
  shape 6 o = true -> needsParenthesesForUnary o = false.
Proof.
  destruct o; try reflexivity; cbn [shape].
  - destruct (binary_level operator) as [m|] eqn:E; [|discriminate].
    destruct (binary_level_facts _ _ E) as (_ & R & _).
    destruct (6 <=? m) eqn:L; [apply Nat.leb_le in L; lia|discriminate].
  - discriminate.
  - discriminate.
Qed.

Lemma astToString_unary op o :
  shape 6 o = true ->
  astToString (UnaryExpression op o) = op ++ astToString o.
Proof.
  intros H. cbn [astToString]. now rewrite (shape_primary_unary _ H).
Qed.

Lemma identifier_text_start v :
  identifier_text v = true -> starts_operand v = true.
Proof.
  destruct v as [|c v]; [discriminate|]. simpl. intros H.
  apply andb_prop in H as [H _]. rewrite H. now rewrite !orb_true_r.
Qed.

Lemma astToString_identifier v :
  identifier_text v = true -> streq v (str "π") = false ->
  identifierToString v = v.
Proof.
  intros Hv Hpi. unfold identifierToString. rewrite Hpi.
  destruct (streq v (str "τ")) eqn:E1;
    [apply streq_eq in E1; subst v; discriminate|].
  destruct (streq v (str "φ")) eqn:E2;
    [apply streq_eq in E2; subst v; discriminate|].
  reflexivity.
Qed.

Lemma number_text_start v :
  number_text v = true -> starts_operand v = true.
Proof.
  destruct v as [|c v]; [discriminate|]. unfold number_text. simpl.
  intros H. apply andb_prop in H as [H _].
  destruct (is_digit c); [reflexivity|]. simpl in *.
  apply andb_prop in H as [-> _]. reflexivity.
Qed.

(** The text of a tree of the grammar starts like an operand. *)
Lemma astToString_starts_operand node :
  forall level rest,
    shape level node = true ->
    starts_operand (astToString node ++ rest) = true.
Proof.
  induction node using Node_induction; intros level rest Hs;
    try discriminate.
  - apply starts_operand_app. now apply number_text_start.
  - cbn [shape] in Hs. apply andb_prop in Hs as [Hv Hpi].
    apply negb_true_iff in Hpi. cbn [astToString].
    rewrite (astToString_identifier _ Hv Hpi).
    apply starts_operand_app. now apply identifier_text_start.
  - rewrite (astToString_binary _ _ _ _ Hs). rewrite <- app_assoc.
    cbn [shape] in Hs.
    destruct (binary_level op) as [m|]; [|discriminate].
    apply andb_prop in Hs as [Hs _]. apply andb_prop in Hs as [_ Hl].
    eapply IHnode1; eauto.
  - cbn [shape] in Hs. apply andb_prop in Hs as [Hop Ho].
    rewrite (astToString_unary _ _ Ho). rewrite <- app_assoc.
    apply starts_operand_app. now apply sign_operator.
  - reflexivity.
  - cbn [shape] in Hs. cbn [astToString]. rewrite <- app_assoc.
    apply andb_prop in Hs as [Hs _]. apply andb_prop in Hs as [_ Hl].
    eapply IHnode1; eauto.
  - reflexivity.
Qed.


(** *** The lexer reads the text of a tree back into its tokens *)

Lemma Lexes_symbol c t rest tsr :
  next_token (c :: rest) = Some ({| type := t; value := [c] |}, rest) ->
  Lexes rest tsr ->
  Lexes (c :: rest) ({| type := t; value := [c] |} :: tsr).
Proof. intros H1 H2. econstructor; eauto. Qed.

Lemma Lexes_astToString node :
  forall level rest tsr,
    shape level node = true -> stops rest = true -> Lexes rest tsr ->
    Lexes (astToString node ++ rest) (toks node ++ tsr).
Proof.
  induction node using Node_induction; intros level rest tsr Hs Hrest Hl;
    try discriminate.
  - (* NumberLiteral *)
    econstructor; [apply next_token_number; assumption|exact Hl].
  - (* Identifier *)
    cbn [shape] in Hs. apply andb_prop in Hs as [Hv Hpi].
    apply negb_true_iff in Hpi. cbn [astToString toks].
    rewrite (astToString_identifier _ Hv Hpi).
    econstructor; [apply next_token_identifier; assumption|exact Hl].
  - (* BinaryExpression *)
    rewrite (astToString_binary _ _ _ _ Hs).
    cbn [shape toks] in *.
    destruct (binary_level op) as [m|] eqn:Hop; [|discriminate].
    apply andb_prop in Hs as [Hs Hr]. apply andb_prop in Hs as [_ Hl'].
    destruct (binary_level_facts _ _ Hop) as (_ & _ & _ & Hty).
    rewrite <- !app_assoc. cbn [app].
    eapply IHnode1; [exact Hl'|now apply stops_operator|].
    econstructor.
    + apply next_token_operator; [exact Hty|].
      eapply astToString_starts_operand; eauto.
    + eapply IHnode2; eauto.
  - (* UnaryExpression *)
    cbn [shape] in Hs. apply andb_prop in Hs as [Hop Ho].
    rewrite (astToString_unary _ _ Ho). cbn [toks].
    rewrite <- app_assoc. cbn [app].
    econstructor.
    + apply next_token_operator; [now apply sign_operator|].
      eapply astToString_starts_operand; eauto.
    + eapply IHnode; eauto.
  - (* ArrayExpression *)
    cbn [shape astToString toks] in *.
    change (str "[") with [91%N]. cbn [app].
    apply (Lexes_symbol 91%N LBRACKET); [reflexivity|].
    rewrite <- !app_assoc.
    assert (Hclose : Lexes (str "]" ++ rest)
                       ([symbol_token RBRACKET "]"] ++ tsr)).
    { apply (Lexes_symbol 93%N RBRACKET); [reflexivity|exact Hl]. }
    revert Hs. induction H as [|e es He _ IHes]; intros Hs.
    + exact Hclose.
    + cbn [forallb] in Hs. apply andb_prop in Hs as [Hse Hses].
      destruct es as [|e' es].
      * cbn [map join]. eapply He; eauto.
      * change (join (str ",") (map astToString (e :: e' :: es)))
          with (astToString e ++ str "," ++
                join (str ",") (map astToString (e' :: es))).
        change (join [symbol_token COMMA ","] (map toks (e :: e' :: es)))
          with (toks e ++ [symbol_token COMMA ","] ++
                join [symbol_token COMMA ","] (map toks (e' :: es))).
        rewrite <- !app_assoc.
        eapply He; [exact Hse|reflexivity|].
        apply (Lexes_symbol 44%N COMMA); [reflexivity|].
        apply IHes. exact Hses.
  - (* ComparisonExpression *)
    cbn [shape astToString toks] in *.
    apply andb_prop in Hs as [Hs Hr]. apply andb_prop in Hs as [Hs Hl'].
    apply andb_prop in Hs as [_ Hop].
    pose proof (comparison_glyph_operator _ Hop) as Hty.
    rewrite <- !app_assoc. cbn [app].
    eapply IHnode1; [exact Hl'|now apply stops_operator|].
    econstructor.
    + apply next_token_operator; [exact Hty|].
      eapply astToString_starts_operand; eauto.
    + eapply IHnode2; eauto.
  - (* ParenthesizedExpression *)
    cbn [shape astToString toks] in *. unfold parens.
    change (str "(") with [40%N]. rewrite <- !app_assoc. cbn [app].
    apply (Lexes_symbol 40%N LPAREN); [reflexivity|].
    rewrite <- !app_assoc.
    eapply IHnode; [exact Hs|reflexivity|].
    apply (Lexes_symbol 41%N RPAREN); [reflexivity|exact Hl].
Qed.

(** The lexer makes [toks node] of the text of a tree of the grammar. *)
Lemma lex_astToString node :
  shape 2 node = true -> lex (astToString node) = Some (toks node).
Proof.
  intros Hs. apply LexerFacts.lex_Lexes.
  rewrite <- (app_nil_r (astToString node)), <- (app_nil_r (toks node)).
  eapply Lexes_astToString; eauto. now constructor.
Qed.


(** *** The tokens of the lexer are canonical *)

Lemma span_number_idem s :
  forall hasDot,
    snd (span_number hasDot (fst (span_number hasDot s))) = [].
Proof.
  induction s as [|c s IH]; intros hasDot; simpl; auto.
  destruct (is_digit c || (c =? 46)%N && negb hasDot) eqn:E; simpl; auto.
  specialize (IH (if (c =? 46)%N then true else hasDot)).
  destruct (span_number _ s) as [a b] eqn:Es; simpl in *.
  rewrite E. destruct (span_number _ a); simpl in *. exact IH.
Qed.

Lemma span_forallb p s : forallb p (fst (span p s)) = true.
Proof.
  induction s as [|c s IH]; simpl; auto.
  destruct (p c) eqn:E; simpl; auto.
  destruct (span p s); simpl in *. now rewrite E.
Qed.

Lemma operatorMap_canonical c t :
  operatorMap c = Some t -> canonical {| type := t; value := [c] |} = true.
Proof.
  unfold operatorMap.
  repeat match goal with
         | |- context [match ?x with _ => _ end] => destruct x
         end; intros [= <-]; reflexivity.
Qed.

Lemma next_token_canonical s t r :
  next_token s = Some (t, r) -> canonical t = true.
Proof.
  unfold next_token. destruct (drop_whitespace s) as [|c s']; [discriminate|].
  intros H.
  destruct (is_digit c || (c =? 46)%N && is_digit_opt (hd_error s')) eqn:E1.
  { pose proof (span_number_idem (c :: s') false) as Hi.
    rewrite (LexerFacts.span_number_first _ _ E1) in H, Hi.
    cbn [fst snd] in H, Hi.
    injection H as <- _. unfold canonical. cbn [type value].
    unfold number_text. rewrite Hi, andb_true_r.
    destruct (is_digit c); [reflexivity|]. cbn [orb] in *.
    apply andb_prop in E1 as [E1 E2]. rewrite E1. cbn [andb].
    apply N.eqb_eq in E1. subst c.
    destruct s' as [|d s'']; [discriminate|]. cbn [hd_error is_digit_opt] in E2.
    cbn [N.eqb Pos.eqb span_number]. rewrite E2. cbn [orb].
    destruct (span_number _ s''). exact E2. }
  destruct (is_identifier_start c) eqn:E2.
  { pose proof (span_forallb is_identifier_part (c :: s')) as Hf.
    rewrite (LexerFacts.span_first _ _ _
               (LexerFacts.is_identifier_start_part _ E2)) in H, Hf.
    cbn [fst snd] in H, Hf.
    injection H as <- _. unfold canonical. cbn [type value].
    unfold identifier_text. now rewrite E2, Hf. }
  destruct (c =? 92)%N.
  { injection H as <- _. reflexivity. }
  injection H as H. unfold LexSpec.operator_token in H.
  repeat match type of H with
         | context [if ?b then _ else _] =>
           destruct b; [injection H as <- _; reflexivity|]
         end.
  destruct (operatorMap c) eqn:E; injection H as <- _.
  - now apply operatorMap_canonical.
  - reflexivity.
Qed.

Lemma Lexes_canonical s ts :
  Lexes s ts -> Forall (fun t => canonical t = true) ts.
Proof.
  induction 1; constructor; eauto using next_token_canonical.
Qed.

(** A canonical token of an operator or punctuation kind is known from
    its kind. *)
Lemma canonical_glyph tok t g :
  canonical tok = true -> type tok = t -> glyph t = Some g ->
  tok = {| type := t; value := g |}.
Proof.
  destruct tok as [ty v]. unfold canonical. cbn [type value].
  intros Hc -> Hg.
  destruct t; try discriminate Hg; injection Hg as <-;
    apply streq_eq in Hc; now subst.
Qed.

Lemma canonical_number tok :
  canonical tok = true -> type tok = NUMBER ->
  tok = number_token (value tok) /\ number_text (value tok) = true.
Proof.
  destruct tok as [ty v]. unfold canonical. cbn [type value].
  intros Hc ->. auto.
Qed.

Lemma canonical_identifier tok :
  canonical tok = true -> type tok = IDENTIFIER ->
  tok = identifier_token (value tok) /\ identifier_text (value tok) = true.
Proof.
  destruct tok as [ty v]. unfold canonical. cbn [type value].
  intros Hc ->. auto.
Qed.

(** A tree of a level is one of every lower level. *)
Lemma shape_weaken node level level' :
  shape level node = true -> level' <= level -> shape level' node = true.
Proof.
  destruct node; cbn [shape]; auto; intros H Hle.
  - destruct (binary_level operator); [|discriminate].
    apply andb_prop in H as [H Hr]. apply andb_prop in H as [H Hl].
    apply Nat.leb_le in H. rewrite Hl, Hr.
    replace (level' <=? n) with true; [reflexivity|].
    symmetry. apply Nat.leb_le. lia.
  - apply andb_prop in H as [H Hr]. apply andb_prop in H as [H Hl].
    apply andb_prop in H as [H Hop].
    apply Nat.leb_le in H. rewrite Hl, Hr, Hop.
    replace (level' <=? 2) with true; [reflexivity|].
    symmetry. apply Nat.leb_le. lia.
Qed.

End FragmentFacts.

(* ================================================================== *)
(** ** The parser reads a tree of the grammar from its own tokens      *)
(* ================================================================== *)

Module FragmentParser.
Import Lexer Parser ParserLogic Fragment FragmentLogic.
Import ParserFacts FragmentFacts.
Local Open Scope parser_scope.

Lemma reads_nil ts n : reads ts n [] n.
Proof. reflexivity. Qed.

Lemma skipn_nth_error {A} (l : list A) :
  forall n x, nth_error l n = Some x -> skipn n l = x :: skipn (S n) l.
Proof.
  induction l as [|y l IH]; intros [|n] x; simpl; try discriminate.
  - now intros [= ->].
  - intros H. now rewrite (IH _ _ H).
Qed.

Lemma reads_cons ts n t l n' :
  nth_error ts n = Some t -> reads ts (S n) l n' -> reads ts n (t :: l) n'.
Proof.
  unfold reads. intros H1 H2. rewrite (skipn_nth_error _ _ _ H1), H2.
  reflexivity.
Qed.

Lemma reads_app ts n l1 n1 l2 n2 :
  reads ts n l1 n1 -> reads ts n1 l2 n2 -> reads ts n (l1 ++ l2) n2.
Proof.
  unfold reads. intros H1 H2. rewrite H1, H2. now rewrite app_assoc.
Qed.

Lemma peek_nth ts p t :
  tokens p = ts -> peek p = Some t -> nth_error ts (position p) = Some t.
Proof. unfold peek. now intros ->. Qed.

Lemma failed_errors p p' : failed p p' -> errors p' = [] -> False.
Proof. intros (_ & _ & H) E. rewrite E in H. discriminate. Qed.

Lemma failed_tokens p p' : failed p p' -> tokens p' = tokens p.
Proof. now intros (H & _). Qed.

Lemma join_snoc {A} (sep : list A) xs x :
  xs <> [] -> join sep (xs ++ [x]) = join sep xs ++ sep ++ x.
Proof.
  induction xs as [|y xs IH]; [congruence|]. intros _.
  destruct xs as [|z xs]; [reflexivity|].
  change (join sep ((y :: z :: xs) ++ [x]))
    with (y ++ sep ++ join sep ((z :: xs) ++ [x])).
  rewrite IH by discriminate.
  change (join sep (y :: z :: xs)) with (y ++ sep ++ join sep (z :: xs)).
  now rewrite <- !app_assoc.
Qed.

Lemma expected_type t tok : expected (Some t) tok = true -> type tok = t.
Proof.
  unfold expected. destruct (type tok), t; try discriminate; reflexivity.
Qed.

Lemma peek_type_of t p tok :
  peek_is t p = true -> peek p = Some tok -> type tok = t.
Proof.
  unfold peek_is, peek_type. intros H E. rewrite E in H. simpl in H.
  destruct (type tok), t; try discriminate; reflexivity.
Qed.


(** Propagates "no diagnostic" back through the states of a run, and
    uses it in what is known about them. *)
Ltac chain :=
  repeat (cbn [next errors tokens position] in *;
          match goal with
          | H : _ /\ _ |- _ => destruct H
          | F : failed _ ?x, E : errors ?x = [] |- _ =>
            exfalso; exact (failed_errors _ _ F E)
          | H : errors ?x = [] -> _, E : errors ?x = [] |- _ =>
            specialize (H E)
          | H : evaluator_syntax ?a = false -> _,
            E : evaluator_syntax ?a = false |- _ => specialize (H E)
          | H : existsb evaluator_syntax ?a = false -> _,
            E : existsb evaluator_syntax ?a = false |- _ => specialize (H E)
          | H : _ || _ = false |- _ => apply orb_false_elim in H
          | H1 : peek_is EQUALS ?p = true,
            H2 : peek_in is_comparison_operator ?p = false |- _ =>
            exfalso;
            rewrite (peek_is_in EQUALS _ p eq_refl H1) in H2;
            discriminate H2
          end).

Ltac tokens_ok :=
  repeat match goal with
         | H : _ /\ _ |- _ => destruct H
         end;
  repeat match goal with
         | F : failed _ _ |- _ => apply failed_tokens in F
         end;
  cbn [next tokens] in *; congruence.

Section FragmentStep.

Variable ts : list Token.
Hypothesis canonical_ts : Forall (fun t => canonical t = true) ts.
Variable k : nat.

Lemma peek_canonical p tok :
  tokens p = ts -> peek p = Some tok -> canonical tok = true.
Proof.
  intros Ht Hp. apply (peek_nth _ _ _ Ht) in Hp.
  apply nth_error_In in Hp.
  now apply (proj1 (Forall_forall _ _) canonical_ts).
Qed.

Hypothesis IHprimary : forall p, tokens p = ts ->
  post True (parsePrimary k p)
    (fun a p' => frame ts p p' /\ node_good ts 6 (position p) a p').
Hypothesis IHbrace : forall args p, tokens p = ts ->
  post True (parseBraceArguments k args p) (fun _ p' => frame ts p p').
Hypothesis IHcomma : forall es n0 p, tokens p = ts ->
  list_good ts n0 es p ->
  post True (parseCommaList k es p)
    (fun l p' => frame ts p p' /\ list_good ts n0 l p').
Hypothesis IHarray : forall p, tokens p = ts ->
  post True (parseArrayExpression k p)
    (fun a p' => frame ts p p' /\ node_good ts 6 (position p) a p').
Hypothesis IHfrac : forall p, tokens p = ts ->
  post True (parseFracCommand k p)
    (fun a p' => frame ts p p' /\
                 (errors p' = [] -> evaluator_syntax a = true)).
Hypothesis IHmatrix : forall p, tokens p = ts ->
  post True (parseMatrixExpression k p)
    (fun a p' => frame ts p p' /\
                 (errors p' = [] -> evaluator_syntax a = true)).
Hypothesis IHrows : forall rows row p, tokens p = ts ->
  post True (parseMatrixRows k rows row p) (fun _ p' => frame ts p p').
Hypothesis IHexponent : forall p, tokens p = ts ->
  post True (parseExponent k p)
    (fun a p' => frame ts p p' /\ node_good ts 5 (position p) a p').
Hypothesis IHexponent_loop : forall node n0 p, tokens p = ts ->
  node_good ts 5 n0 node p ->
  post True (parseExponent_loop k node p)
    (fun a p' => frame ts p p' /\ node_good ts 5 n0 a p').
Hypothesis IHterm : forall p, tokens p = ts ->
  post True (parseTerm k p)
    (fun a p' => frame ts p p' /\ node_good ts 4 (position p) a p').
Hypothesis IHterm_loop : forall node n0 p, tokens p = ts ->
  node_good ts 4 n0 node p ->
  post True (parseTerm_loop k node p)
    (fun a p' => frame ts p p' /\ node_good ts 4 n0 a p').
Hypothesis IHadditive : forall p, tokens p = ts ->
  post True (parseAdditive k p)
    (fun a p' => frame ts p p' /\ node_good ts 3 (position p) a p').
Hypothesis IHadditive_loop : forall node n0 p, tokens p = ts ->
  node_good ts 3 n0 node p ->
  post True (parseAdditive_loop k node p)
    (fun a p' => frame ts p p' /\ node_good ts 3 n0 a p').
Hypothesis IHcomparison : forall p, tokens p = ts ->
  post True (parseComparison k p)
    (fun a p' => frame ts p p' /\ node_good ts 2 (position p) a p' /\
                 peek_in is_comparison_operator p' = false).
Hypothesis IHcomparison_loop : forall node n0 p, tokens p = ts ->
  node_good ts 2 n0 node p ->
  post True (parseComparison_loop k node p)
    (fun a p' => frame ts p p' /\ node_good ts 2 n0 a p' /\
                 peek_in is_comparison_operator p' = false).
Hypothesis IHassignment : forall p, tokens p = ts ->
  post True (parseAssignment k p)
    (fun a p' => frame ts p p' /\ node_good ts 2 (position p) a p').
Hypothesis IHexpression : forall p, tokens p = ts ->
  post True (parseExpression k p)
    (fun a p' => frame ts p p' /\ node_good ts 2 (position p) a p').

Lemma list_good_single n0 a p' :
  node_good ts 2 n0 a p' -> list_good ts n0 [a] p'.
Proof.
  unfold node_good, list_good. intros H E Hev. cbn [existsb] in Hev.
  rewrite orb_false_r in Hev. destruct (H E Hev) as [H1 H2].
  cbn [map join forallb]. rewrite H2. repeat split; auto. discriminate.
Qed.

(** What a canonical token of a known kind is. *)
Ltac token_facts :=
  repeat match goal with
         | H1 : peek ?p = Some ?a, H2 : peek ?p = Some ?b |- _ =>
           assert (b = a) by congruence; subst b; clear H2
         end;
  repeat match goal with
         | H : expected (Some _) ?t = true |- _ =>
           apply expected_type in H
         end;
  repeat match goal with
         | Hp : peek ?p = Some ?t, Hi : peek_is ?x ?p = true |- _ =>
           lazymatch goal with
           | _ : type t = _ |- _ => fail
           | _ => pose proof (peek_type_of _ _ _ Hi Hp)
           end
         end;
  repeat match goal with
         | Hp : peek ?p = Some ?t, Ht : type ?t = ?x |- _ =>
           is_var t;
           let Hc := fresh "Hc" in
           assert (Hc : canonical t = true)
             by (apply (peek_canonical p); [tokens_ok|exact Hp]);
           lazymatch x with
           | NUMBER =>
             let E := fresh "E" in
             destruct (canonical_number t Hc Ht) as [E ?];
             rewrite E in Hp; clear Ht
           | IDENTIFIER =>
             let E := fresh "E" in
             destruct (canonical_identifier t Hc Ht) as [E ?];
             rewrite E in Hp; clear Ht
           | _ =>
             let Hg := fresh "Hg" in
             pose proof (fun g => canonical_glyph t x g Hc Ht) as Hg;
             cbn [glyph] in Hg; specialize (Hg _ eq_refl); subst t
           end
         end.

(** The token in front of a loop that goes on is one of its
    operators. *)
Ltac split_operators :=
  repeat match goal with
         | H : _ || _ = true |- _ => apply orb_prop in H; destruct H
         end;
  try match goal with
      | Hp : peek ?p = Some ?t,
        Hi : peek_in is_comparison_operator ?p = true |- _ =>
        unfold peek_in, peek_type in Hi; rewrite Hp in Hi;
        cbn [option_map] in Hi;
        destruct (type t) eqn:?; try discriminate Hi; clear Hi
      end.

(** Evaluates the tests on the text of a known operator. *)
Ltac known_operators :=
  repeat match goal with
         | |- context [binary_level ?o] =>
           let v := eval vm_compute in (binary_level o) in
           lazymatch v with
           | Some _ => change (binary_level o) with v
           | None => change (binary_level o) with v
           end
         | |- context [is_comparison_glyph ?o] =>
           let v := eval vm_compute in (is_comparison_glyph o) in
           lazymatch v with
           | true => change (is_comparison_glyph o) with v
           | false => change (is_comparison_glyph o) with v
           end
         | |- context [streq ?a ?b] =>
           let v := eval vm_compute in (streq a b) in
           lazymatch v with
           | true => change (streq a b) with v
           | false => change (streq a b) with v
           end
         end.

Ltac reads_ok :=
  repeat match goal with
         | Hp : peek ?p = Some _ |- _ =>
           apply (peek_nth ts) in Hp; [|tokens_ok]
         end;
  cbn [toks next position map join app] in *;
  rewrite <- ?app_assoc; cbn [app];
  eauto 10 using reads_nil, reads_cons, reads_app.

Ltac shape_ok :=
  cbn [shape forallb value]; known_operators;
  repeat match goal with
         | H : ?b = true |- context [?b] => rewrite H
         | H : ?b = false |- context [?b] => rewrite H
         end;
  try reflexivity;
  repeat (apply andb_true_intro; split);
  try reflexivity; try assumption;
  try (eapply shape_weaken; [eassumption|lia]).

Ltac node_ok :=
  let E := fresh "E" in
  let Hev := fresh "Hev" in
  let Hev' := fresh "Hev" in
  intros E Hev; pose proof Hev as Hev';
  cbn [evaluator_syntax existsb] in Hev';
  try discriminate Hev'; chain; try congruence;
  split_operators; token_facts;
  first [ solve [auto] | split; [reads_ok | shape_ok] ].

Ltac list_ok :=
  let E := fresh "E" in
  let Hev := fresh "Hev" in
  intros E Hev; rewrite ?existsb_app in Hev;
  cbn [evaluator_syntax existsb] in Hev;
  chain; token_facts;
  rewrite ?map_app, ?forallb_app; cbn [map forallb];
  rewrite ?join_snoc
    by (match goal with
        | H : ?es <> [] |- _ => destruct es; [congruence|discriminate]
        end);
  repeat split;
  [ match goal with
    | H : ?es <> [] |- _ => destruct es; [congruence|discriminate]
    | _ => assumption
    end
  | reads_ok
  | shape_ok ].

(** The last step of a method, and the premises of a call. *)
Ltac fin :=
  repeat match goal with
         | H : ?a = _ |- _ =>
           is_var a;
           lazymatch type of a with Node => subst a end
         end;
  unfold frame, node_good, list_good in *;
  repeat match goal with
         | |- _ /\ _ => split
         end;
  lazymatch goal with
  | |- tokens _ = _ => tokens_ok
  | |- errors _ = [] -> errors _ = [] => intros; chain; assumption
  | |- errors _ = [] -> evaluator_syntax _ = true =>
    intros; chain; first [assumption | reflexivity]
  | |- errors _ = [] -> evaluator_syntax _ = false -> _ => node_ok
  | |- errors _ = [] -> existsb _ _ = false -> _ => list_ok
  | |- peek_in _ _ = false => chain; assumption
  end.

Ltac pre :=
  first [ solve [unfold frame in *; chain; tokens_ok]
        | solve [apply list_good_single; unfold frame in *; chain;
                 eassumption]
        | solve [fin] ].

(** A call of a method: its specification is a hypothesis, and [pre]
    proves the premises. *)
Ltac call :=
  eapply post_conseq;
  [ solve [ eauto
          | match goal with
            | H : _ |- _ => eapply H; solve [pre]
            end ]
  | cbv beta; intros ? ? ? ].

Ltac go := repeat mstep call; try solve [fin].

Lemma parsePrimary_fragment p :
  tokens p = ts ->
  post True (parsePrimary (S k) p)
    (fun a p' => frame ts p p' /\ node_good ts 6 (position p) a p').
Proof. intros Hts. cbn [parsePrimary]. go. Qed.

Lemma parseBraceArguments_fragment args p :
  tokens p = ts ->
  post True (parseBraceArguments (S k) args p) (fun _ p' => frame ts p p').
Proof. intros Hts. cbn [parseBraceArguments]. go. Qed.

Lemma parseCommaList_fragment es n0 p :
  tokens p = ts -> list_good ts n0 es p ->
  post True (parseCommaList (S k) es p)
    (fun l p' => frame ts p p' /\ list_good ts n0 l p').
Proof. intros Hts Hes. cbn [parseCommaList]. go. Qed.

Lemma parseArrayExpression_fragment p :
  tokens p = ts ->
  post True (parseArrayExpression (S k) p)
    (fun a p' => frame ts p p' /\ node_good ts 6 (position p) a p').
Proof. intros Hts. cbn [parseArrayExpression]. go. Qed.

Lemma parseFracCommand_fragment p :
  tokens p = ts ->
  post True (parseFracCommand (S k) p)
    (fun a p' => frame ts p p' /\
                 (errors p' = [] -> evaluator_syntax a = true)).
Proof. intros Hts. cbn [parseFracCommand]. go. Qed.

Lemma parseMatrixExpression_fragment p :
  tokens p = ts ->
  post True (parseMatrixExpression (S k) p)
    (fun a p' => frame ts p p' /\
                 (errors p' = [] -> evaluator_syntax a = true)).
Proof. intros Hts. cbn [parseMatrixExpression]. go. Qed.

Lemma parseMatrixRows_fragment rows row p :
  tokens p = ts ->
  post True (parseMatrixRows (S k) rows row p) (fun _ p' => frame ts p p').
Proof. intros Hts. cbn [parseMatrixRows]. go. Qed.

Lemma parseExponent_fragment p :
  tokens p = ts ->
  post True (parseExponent (S k) p)
    (fun a p' => frame ts p p' /\ node_good ts 5 (position p) a p').
Proof. intros Hts. cbn [parseExponent]. go. Qed.

Lemma parseExponent_loop_fragment node n0 p :
  tokens p = ts -> node_good ts 5 n0 node p ->
  post True (parseExponent_loop (S k) node p)
    (fun a p' => frame ts p p' /\ node_good ts 5 n0 a p').
Proof. intros Hts Hnode. cbn [parseExponent_loop]. go. Qed.

Lemma parseTerm_fragment p :
  tokens p = ts ->
  post True (parseTerm (S k) p)
    (fun a p' => frame ts p p' /\ node_good ts 4 (position p) a p').
Proof. intros Hts. cbn [parseTerm]. go. Qed.

Lemma parseTerm_loop_fragment node n0 p :
  tokens p = ts -> node_good ts 4 n0 node p ->
  post True (parseTerm_loop (S k) node p)
    (fun a p' => frame ts p p' /\ node_good ts 4 n0 a p').
Proof. intros Hts Hnode. cbn [parseTerm_loop]. go. Qed.

Lemma parseAdditive_fragment p :
  tokens p = ts ->
  post True (parseAdditive (S k) p)
    (fun a p' => frame ts p p' /\ node_good ts 3 (position p) a p').
Proof. intros Hts. cbn [parseAdditive]. go. Qed.

Lemma parseAdditive_loop_fragment node n0 p :
  tokens p = ts -> node_good ts 3 n0 node p ->
  post True (parseAdditive_loop (S k) node p)
    (fun a p' => frame ts p p' /\ node_good ts 3 n0 a p').
Proof. intros Hts Hnode. cbn [parseAdditive_loop]. go. Qed.

Lemma parseComparison_fragment p :
  tokens p = ts ->
  post True (parseComparison (S k) p)
    (fun a p' => frame ts p p' /\ node_good ts 2 (position p) a p' /\
                 peek_in is_comparison_operator p' = false).
Proof. intros Hts. cbn [parseComparison]. go. Qed.

Lemma parseComparison_loop_fragment node n0 p :
  tokens p = ts -> node_good ts 2 n0 node p ->
  post True (parseComparison_loop (S k) node p)
    (fun a p' => frame ts p p' /\ node_good ts 2 n0 a p' /\
                 peek_in is_comparison_operator p' = false).
Proof. intros Hts Hnode. cbn [parseComparison_loop]. go. Qed.

Lemma parseAssignment_fragment p :
  tokens p = ts ->
  post True (parseAssignment (S k) p)
    (fun a p' => frame ts p p' /\ node_good ts 2 (position p) a p').
Proof. intros Hts. cbn [parseAssignment]. go. Qed.

Lemma parseExpression_fragment p :
  tokens p = ts ->
  post True (parseExpression (S k) p)
    (fun a p' => frame ts p p' /\ node_good ts 2 (position p) a p').
Proof. intros Hts. cbn [parseExpression]. go. Qed.

End FragmentStep.

(** Every method, at every depth, on canonical tokens. *)
Lemma methods_fragment ts :
  Forall (fun t => canonical t = true) ts ->
  forall fuel,
  (forall p, tokens p = ts ->
     post True (parsePrimary fuel p)
       (fun a p' => frame ts p p' /\ node_good ts 6 (position p) a p')) /\
  (forall args p, tokens p = ts ->
     post True (parseBraceArguments fuel args p)
       (fun _ p' => frame ts p p')) /\
  (forall es n0 p, tokens p = ts -> list_good ts n0 es p ->
     post True (parseCommaList fuel es p)
       (fun l p' => frame ts p p' /\ list_good ts n0 l p')) /\
  (forall p, tokens p = ts ->
     post True (parseArrayExpression fuel p)
       (fun a p' => frame ts p p' /\ node_good ts 6 (position p) a p')) /\
  (forall p, tokens p = ts ->
     post True (parseFracCommand fuel p)
       (fun a p' => frame ts p p' /\
                    (errors p' = [] -> evaluator_syntax a = true))) /\
  (forall p, tokens p = ts ->
     post True (parseMatrixExpression fuel p)
       (fun a p' => frame ts p p' /\
                    (errors p' = [] -> evaluator_syntax a = true))) /\
  (forall rows row p, tokens p = ts ->
     post True (parseMatrixRows fuel rows row p)
       (fun _ p' => frame ts p p')) /\
  (forall p, tokens p = ts ->
     post True (parseExponent fuel p)
       (fun a p' => frame ts p p' /\ node_good ts 5 (position p) a p')) /\
  (forall node n0 p, tokens p = ts -> node_good ts 5 n0 node p ->
     post True (parseExponent_loop fuel node p)
       (fun a p' => frame ts p p' /\ node_good ts 5 n0 a p')) /\
  (forall p, tokens p = ts ->
     post True (parseTerm fuel p)
       (fun a p' => frame ts p p' /\ node_good ts 4 (position p) a p')) /\
  (forall node n0 p, tokens p = ts -> node_good ts 4 n0 node p ->
     post True (parseTerm_loop fuel node p)
       (fun a p' => frame ts p p' /\ node_good ts 4 n0 a p')) /\
  (forall p, tokens p = ts ->
     post True (parseAdditive fuel p)
       (fun a p' => frame ts p p' /\ node_good ts 3 (position p) a p')) /\
  (forall node n0 p, tokens p = ts -> node_good ts 3 n0 node p ->
     post True (parseAdditive_loop fuel node p)
       (fun a p' => frame ts p p' /\ node_good ts 3 n0 a p')) /\
  (forall p, tokens p = ts ->
     post True (parseComparison fuel p)
       (fun a p' => frame ts p p' /\ node_good ts 2 (position p) a p' /\
                    peek_in is_comparison_operator p' = false)) /\
  (forall node n0 p, tokens p = ts -> node_good ts 2 n0 node p ->
     post True (parseComparison_loop fuel node p)
       (fun a p' => frame ts p p' /\ node_good ts 2 n0 a p' /\
                    peek_in is_comparison_operator p' = false)) /\
  (forall p, tokens p = ts ->
     post True (parseAssignment fuel p)
       (fun a p' => frame ts p p' /\ node_good ts 2 (position p) a p')) /\
  (forall p, tokens p = ts ->
     post True (parseExpression fuel p)
       (fun a p' => frame ts p p' /\ node_good ts 2 (position p) a p')).
Proof.
  intros Hc. induction fuel as [|k IH].
  - repeat split; intros; exact I.
  - destruct IH as (H1 & H2 & H3 & H4 & H5 & H6 & H7 & H8 & H9 & H10 & H11
                    & H12 & H13 & H14 & H15 & H16 & H17).
    repeat split; intros.
    + apply parsePrimary_fragment; assumption.
    + apply parseBraceArguments_fragment; assumption.
    + apply parseCommaList_fragment; assumption.
    + apply parseArrayExpression_fragment; assumption.
    + apply parseFracCommand_fragment; assumption.
    + apply parseMatrixExpression_fragment; assumption.
    + apply parseMatrixRows_fragment; assumption.
    + apply parseExponent_fragment; assumption.
    + apply parseExponent_loop_fragment; assumption.
    + apply parseTerm_fragment; assumption.
    + apply parseTerm_loop_fragment; assumption.
    + apply parseAdditive_fragment; assumption.
    + apply parseAdditive_loop_fragment; assumption.
    + apply parseComparison_fragment; assumption.
    + apply parseComparison_loop_fragment; assumption.
    + apply parseAssignment_fragment; assumption.
    + apply parseExpression_fragment; assumption.
Qed.

(** A tree that [parse] returns for canonical tokens, with no node
    written in the evaluator's syntax, is a tree of the grammar, and the
    tokens are its own. *)
Lemma parse_fragment ts ast :
  Forall (fun t => canonical t = true) ts ->
  parse ts = Ok ast -> evaluator_syntax ast = false ->
  toks ast = ts /\ shape 2 ast = true.
Proof.
  intros Hc Hp Hev. unfold parse, run in Hp.
  pose proof (methods_fragment ts Hc (fuel_for ts)) as M.
  do 16 apply proj2 in M. specialize (M (new ts) eq_refl).
  destruct (parseExpression (fuel_for ts) (new ts)) as [a p| |];
    [|destruct (0 <? _); discriminate|discriminate].
  cbn [post] in M. destruct M as [[Ht _] Hgood].
  destruct (position p <? List.length (tokens p)) eqn:Hpos.
  - unfold addError in Hp. destruct (peek p); cbn [errors] in Hp;
      rewrite length_app in Hp; cbn [List.length] in Hp;
      rewrite Nat.add_1_r in Hp; discriminate.
  - destruct (errors p) as [|e es] eqn:He; [|discriminate].
    cbn in Hp. injection Hp as <-.
    destruct (Hgood He Hev) as [Hr Hs]. split; [|exact Hs].
    apply Nat.ltb_ge in Hpos. rewrite Ht in Hpos.
    unfold reads in Hr. cbn [new position] in Hr.
    rewrite (skipn_all2 _ Hpos), app_nil_r in Hr. now symmetry.
Qed.

End FragmentParser.
(* ================================================================== *)
(** ** Further facts about the lexer                                   *)
(* ================================================================== *)

Module LexerMore.
Import Lexer LexSpec LexText LexerFacts.

Lemma visible_app a b : visible (a ++ b) = visible a ++ visible b.
Proof. apply filter_app. Qed.

Lemma visible_drop_whitespace s : visible (drop_whitespace s) = visible s.
Proof.
  induction s as [|c s IH]; simpl; auto.
  destruct (is_whitespace c) eqn:E; simpl; rewrite ?E; auto.
Qed.

Lemma visible_all p (v : jsstring) :
  (forall c, p c = true -> is_whitespace c = false) ->
  Forall (fun c => p c = true) v -> visible v = v.
Proof.
  intros Hp. induction 1 as [|c v Hc _ IH]; simpl; auto.
  rewrite (Hp _ Hc). simpl. now rewrite IH.
Qed.

Lemma number_char_visible c :
  is_digit c || (c =? 46)%N = true -> is_whitespace c = false.
Proof. FragmentFacts.classes. Qed.

Lemma identifier_part_visible c :
  is_identifier_part c = true -> is_whitespace c = false.
Proof. FragmentFacts.classes. Qed.

Lemma letter_visible c : is_letter c = true -> is_whitespace c = false.
Proof. FragmentFacts.classes. Qed.

(** A token's text is what was read for it: the unread text, once the
    white space in front is dropped, is the token's text and the rest.
    The text holds no white space. *)
Lemma next_token_text s t r :
  next_token s = Some (t, r) ->
  drop_whitespace s = value t ++ r /\ visible (value t) = value t.
Proof.
  unfold next_token.
  destruct (drop_whitespace s) as [|c s'] eqn:Hd; [discriminate|].
  pose proof (drop_whitespace_head _ _ _ Hd) as Hc.
  pose proof (span_number_app (c :: s') false) as An.
  pose proof (span_number_Forall (c :: s') false) as Fn.
  pose proof (span_app is_identifier_part (c :: s')) as Ai.
  pose proof (span_Forall is_identifier_part (c :: s')) as Fi.
  pose proof (span_app is_letter s') as Al.
  pose proof (span_Forall is_letter s') as Fl.
  remember (span_number false (c :: s')) as sn eqn:Esn.
  remember (span is_identifier_part (c :: s')) as si eqn:Esi.
  remember (span is_letter s') as sl eqn:Esl.
  clear Esn Esi Esl.
  intros H. injection H as H.
  destruct (is_digit c || (c =? 46)%N && is_digit_opt (hd_error s')).
  { injection H as <- <-. cbn [value]. split; [exact An|].
    eapply visible_all; [apply number_char_visible|exact Fn]. }
  destruct (is_identifier_start c).
  { injection H as <- <-. cbn [value]. split; [exact Ai|].
    eapply visible_all; [apply identifier_part_visible|exact Fi]. }
  destruct (c =? 92)%N eqn:E3.
  { injection H as <- <-. cbn [value]. apply N.eqb_eq in E3. subst c.
    split; simpl; f_equal; [exact Al|].
    eapply visible_all; [apply letter_visible|exact Fl]. }
  clear An Fn Ai Fi Al Fl sn si sl.
  unfold operator_token in H.
  repeat match type of H with
         | (if ?b then _ else _) = _ =>
           let E := fresh "E" in
           destruct b eqn:E;
           [apply andb_prop in E as [E Eq]; apply N.eqb_eq in E; subst c;
            destruct s' as [|d s']; [discriminate Eq|];
            apply N.eqb_eq in Eq; subst d;
            injection H as <- <-; split; reflexivity|]
         end.
  destruct (operatorMap c); injection H as <- <-; cbn [value]; simpl;
    rewrite Hc; auto.
Qed.

(** The tokens keep every character but the white space, in order. *)
Lemma Lexes_text s ts : Lexes s ts -> text_of ts = visible s.
Proof.
  induction 1 as [s E|s t r ts E _ IH].
  - unfold next_token in E.
    destruct (drop_whitespace s) eqn:Hd; [|discriminate].
    rewrite <- (visible_drop_whitespace s), Hd. reflexivity.
  - destruct (next_token_text _ _ _ E) as [Hd Hv].
    unfold text_of in *. cbn [map List.concat].
    rewrite IH, <- (visible_drop_whitespace s), Hd, visible_app.
    now rewrite Hv.
Qed.

(** *** White space ends every token *)

Lemma whitespace_facts w :
  is_whitespace w = true ->
  is_digit w = false /\ (w =? 46)%N = false /\ (w =? 61)%N = false /\
  is_identifier_part w = false /\ is_letter w = false.
Proof. intros H. repeat split; FragmentFacts.classes. Qed.

Lemma drop_whitespace_app s c r x :
  drop_whitespace s = c :: r -> drop_whitespace (s ++ x) = c :: r ++ x.
Proof.
  induction s as [|d s IH]; simpl; [discriminate|].
  destruct (is_whitespace d); auto. now intros [= -> ->].
Qed.

Lemma drop_whitespace_blank s x :
  drop_whitespace s = [] -> drop_whitespace (s ++ x) = drop_whitespace x.
Proof.
  induction s as [|d s IH]; simpl; auto.
  destruct (is_whitespace d); auto. discriminate.
Qed.

Lemma span_number_app_ws v w b :
  is_whitespace w = true ->
  forall hasDot,
    span_number hasDot (v ++ w :: b)
    = (fst (span_number hasDot v), snd (span_number hasDot v) ++ w :: b).
Proof.
  intros Hw. destruct (whitespace_facts _ Hw) as (Hd & Hdot & _).
  induction v as [|c v IH]; intros hasDot; simpl.
  - now rewrite Hd, Hdot.
  - destruct (is_digit c || (c =? 46)%N && negb hasDot); [|reflexivity].
    rewrite IH. now destruct (span_number _ v).
Qed.

Lemma span_app_stop p v w b :
  p w = false ->
  span p (v ++ w :: b) = (fst (span p v), snd (span p v) ++ w :: b).
Proof.
  intros Hw. induction v as [|c v IH]; simpl.
  - now rewrite Hw.
  - destruct (p c); [|reflexivity]. rewrite IH. now destruct (span p v).
Qed.

Lemma operator_token_app_ws c r w b :
  is_whitespace w = true ->
  operator_token c (r ++ w :: b)
  = (fst (operator_token c r), snd (operator_token c r) ++ w :: b).
Proof.
  intros Hw. destruct (whitespace_facts _ Hw) as (_ & _ & He & _).
  unfold operator_token.
  assert (Hh : is_char 61%N (hd_error (r ++ w :: b))
               = is_char 61%N (hd_error r)).
  { destruct r; simpl; auto. }
  rewrite Hh.
  repeat match goal with
         | |- context [if ?x && is_char 61%N (hd_error r) then _ else _] =>
           destruct (x && is_char 61%N (hd_error r)) eqn:?;
           [destruct r; [rewrite andb_false_r in *; discriminate
                        |reflexivity]|]
         end.
  destruct (operatorMap c); reflexivity.
Qed.

(** A token read from [s] is read the same when white space and more
    text follow [s]. *)
Lemma next_token_app_ws s t r w b :
  next_token s = Some (t, r) -> is_whitespace w = true ->
  next_token (s ++ w :: b) = Some (t, r ++ w :: b).
Proof.
  unfold next_token. intros H Hw.
  destruct (whitespace_facts _ Hw) as (Hd & Hdot & He & Hi & Hl).
  destruct (drop_whitespace s) as [|c s'] eqn:E; [discriminate|].
  rewrite (drop_whitespace_app _ _ _ (w :: b) E).
  assert (Hh : is_digit_opt (hd_error (s' ++ w :: b))
               = is_digit_opt (hd_error s')).
  { destruct s'; simpl; auto. }
  rewrite Hh. clear Hh.
  change (c :: s' ++ w :: b) with ((c :: s') ++ w :: b).
  rewrite span_number_app_ws, (span_app_stop is_identifier_part),
    (span_app_stop is_letter), operator_token_app_ws by assumption.
  injection H as H. f_equal. cbn [fst snd].
  destruct (is_digit c || (c =? 46)%N && is_digit_opt (hd_error s')).
  { now injection H as <- <-. }
  destruct (is_identifier_start c).
  { now injection H as <- <-. }
  destruct (c =? 92)%N.
  { now injection H as <- <-. }
  now rewrite H.
Qed.

Lemma next_token_blank s x :
  next_token s = None -> next_token (s ++ x) = next_token x.
Proof.
  unfold next_token. intros H.
  destruct (drop_whitespace s) eqn:E; [|discriminate].
  now rewrite (drop_whitespace_blank _ x E).
Qed.

Lemma next_token_skip w b :
  is_whitespace w = true -> next_token (w :: b) = next_token b.
Proof. intros Hw. unfold next_token. simpl. now rewrite Hw. Qed.

Lemma Lexes_next s s' ts :
  next_token s = next_token s' -> Lexes s' ts -> Lexes s ts.
Proof.
  intros E H. inversion H; subst.
  - apply Lexes_end. congruence.
  - eapply Lexes_token; [|eassumption]. congruence.
Qed.

(** Two texts with white space between them give the tokens of the one
    followed by the tokens of the other. *)
Lemma Lexes_app_ws a ta w b tb :
  Lexes a ta -> Lexes b tb -> is_whitespace w = true ->
  Lexes (a ++ w :: b) (ta ++ tb).
Proof.
  intros Ha Hb Hw. induction Ha as [a E|a t r ts E _ IH]; simpl.
  - eapply Lexes_next; [|exact Hb].
    rewrite (next_token_blank _ _ E). now apply next_token_skip.
  - eapply Lexes_token; [|exact IH].
    now apply next_token_app_ws.
Qed.

(** *** A token is read back from its own text *)

Lemma next_token_alone s t r :
  next_token s = Some (t, r) -> next_token (value t) = Some (t, []).
Proof.
  intros H. pose proof (FragmentFacts.next_token_canonical _ _ _ H) as Hc.
  revert H. unfold next_token.
  destruct (drop_whitespace s) as [|c s'] eqn:Hd; [discriminate|].
  pose proof (drop_whitespace_head _ _ _ Hd) as Hw.
  pose proof (FragmentFacts.span_forallb is_letter s') as Fl.
  remember (span_number false (c :: s')) as sn eqn:Esn.
  remember (span is_identifier_part (c :: s')) as si eqn:Esi.
  remember (span is_letter s') as sl eqn:Esl.
  clear Esn Esi Esl.
  intros H. injection H as H.
  destruct (is_digit c || (c =? 46)%N && is_digit_opt (hd_error s')) eqn:E1.
  { injection H as <- <-.
    destruct (FragmentFacts.canonical_number _ Hc eq_refl) as [_ Hn].
    cbn [value] in *.
    rewrite <- (app_nil_r (fst sn)) at 1.
    now apply FragmentFacts.next_token_number. }
  destruct (is_identifier_start c) eqn:E2.
  { injection H as <- <-.
    destruct (FragmentFacts.canonical_identifier _ Hc eq_refl) as [_ Hn].
    cbn [value] in *.
    rewrite <- (app_nil_r (fst si)) at 1.
    now apply FragmentFacts.next_token_identifier. }
  destruct (c =? 92)%N eqn:E3.
  { injection H as <- <-. cbn [value].
    change (str "\" ++ fst sl) with (92%N :: fst sl).
    cbn [drop_whitespace]. change (is_whitespace 92%N) with false.
    cbv iota. change (is_digit 92%N) with false.
    change (is_identifier_start 92%N) with false.
    change ((92 =? 46)%N) with false. change ((92 =? 92)%N) with true.
    cbn [orb andb].
    assert (Hs : span is_letter (fst sl) = (fst sl, [])).
    { generalize (FragmentFacts.span_stop is_letter (fst sl) [] Fl I).
      now rewrite app_nil_r. }
    rewrite Hs. reflexivity. }
  apply orb_false_elim in E1 as [E1 _].
  revert H. unfold operator_token.
  repeat match goal with
         | |- context [if ?x && is_char 61%N (hd_error s') then _ else _] =>
           destruct (x && is_char 61%N (hd_error s'));
           [intros [= <- <-]; reflexivity|]
         end.
  destruct (operatorMap c) eqn:Eo; intros [= <- <-]; cbn [value];
    cbn [drop_whitespace]; rewrite Hw, E1, E2, E3;
    cbn [hd_error is_digit_opt is_char]; rewrite !andb_false_r;
    cbn [orb]; rewrite Eo; reflexivity.
Qed.

(** Every token of a text, lexed on its own, is that token again. *)
Lemma Lexes_alone s ts :
  Lexes s ts -> Forall (fun t => Lexes (value t) [t]) ts.
Proof.
  induction 1 as [s E|s t r ts E _ IH]; constructor; auto.
  eapply Lexes_token; [eapply next_token_alone; eauto|].
  now apply Lexes_end.
Qed.


(** The texts of the tokens, with a space between two of them, give the
    tokens again. *)
Lemma Lexes_join ts :
  Forall (fun t => Lexes (value t) [t]) ts ->
  Lexes (join (str " ") (map value ts)) ts.
Proof.
  induction 1 as [|t ts Ht Hts IH].
  - now apply Lexes_end.
  - destruct ts as [|t2 ts]; [exact Ht|].
    change (join (str " ") (map value (t :: t2 :: ts)))
      with (value t ++ 32%N :: join (str " ") (map value (t2 :: ts))).
    change (t :: t2 :: ts) with ([t] ++ t2 :: ts).
    now apply Lexes_app_ws.
Qed.

End LexerMore.


(* ================================================================== *)
(** ** The properties of the specification                             *)
(* ================================================================== *)

Import Lexer.

(** C1.  The text [x=5] is lexed into an identifier, an [Equals] token and
    a number, and [parse] makes a ComparisonExpression with operator [=]
    of them, exactly as it does of [2=3]: an Identifier on the left does
    not make the node an AssignmentExpression. *)
Theorem equals_is_always_a_comparison :
  lex (str "x=5")
  = Some [identifier_token (str "x"); symbol_token EQUALS "=";
          number_token (str "5")] /\
  Parser.parse [identifier_token (str "x"); symbol_token EQUALS "=";
                number_token (str "5")]
  = Parser.Ok (ComparisonExpression (str "=") (Identifier (str "x"))
                 (NumberLiteral (str "5"))) /\
  lex (str "2=3")
  = Some [number_token (str "2"); symbol_token EQUALS "=";
          number_token (str "3")] /\
  Parser.parse [number_token (str "2"); symbol_token EQUALS "=";
                number_token (str "3")]
  = Parser.Ok (ComparisonExpression (str "=") (NumberLiteral (str "2"))
                 (NumberLiteral (str "3"))).
Proof. repeat split; vm_compute; reflexivity. Qed.

(** When [parseComparison] returns, the token in front is no [Equals]. *)
Lemma parseComparison_leaves_no_Equals fuel p node p' :
  Parser.parseComparison fuel p = Parser.Return node p' ->
  Parser.peek_is EQUALS p' = false.
Proof.
  intros H.
  pose proof (ParserFacts.methods_no_assignment fuel) as M.
  do 13 apply proj2 in M. apply proj1 in M. specialize (M p).
  rewrite H in M. destruct M as [_ M].
  destruct (Parser.peek_is EQUALS p') eqn:E; auto.
  now rewrite (ParserFacts.peek_is_in EQUALS _ p' eq_refl E) in M.
Qed.

Lemma run_no_assignment fuel p0 ast :
  Parser.run fuel p0 = Parser.Ok ast -> contains_assignment ast = false.
Proof.
  unfold Parser.run. intros H.
  pose proof (ParserFacts.methods_no_assignment fuel) as M.
  do 16 apply proj2 in M. specialize (M p0).
  destruct (Parser.parseExpression fuel p0) as [a p| |]; simpl in M.
  - destruct (0 <? _); [discriminate|]. now injection H as <-.
  - destruct (0 <? _); discriminate.
  - discriminate.
Qed.

(** C2.  Whatever the tokens, [parseComparison] never returns in front of
    an [Equals] token, and the tree that [parse] returns holds no
    AssignmentExpression node. *)
Theorem parse_never_builds_assignment :
  (forall fuel p node p',
     Parser.parseComparison fuel p = Parser.Return node p' ->
     Parser.peek_is EQUALS p' = false) /\
  (forall ts ast,
     Parser.parse ts = Parser.Ok ast -> contains_assignment ast = false).
Proof.
  split.
  - apply parseComparison_leaves_no_Equals.
  - intros ts ast. apply run_no_assignment.
Qed.

Lemma parse_never_builds_assignment_witness :
  Parser.parse [identifier_token (str "x"); symbol_token EQUALS "=";
                number_token (str "5")]
  = Parser.Ok (ComparisonExpression (str "=") (Identifier (str "x"))
                 (NumberLiteral (str "5"))) /\
  contains_assignment
    (ComparisonExpression (str "=") (Identifier (str "x"))
       (NumberLiteral (str "5"))) = false.
Proof.
  split; [vm_compute; reflexivity|].
  apply (proj2 parse_never_builds_assignment
           [identifier_token (str "x"); symbol_token EQUALS "=";
            number_token (str "5")]).
  vm_compute; reflexivity.
Defined.

(** C5.  [lex] returns a token sequence for every input: no loop runs out
    of fuel and nothing throws.  No token of the sequence is the
    end-of-input token, and its [Unknown] tokens are, in order, the
    one-character texts of the characters that none of the rules for white
    space, numbers, identifiers, commands and operators reads; so every
    such character shows up as an [Unknown] token.  The sequence is
    exactly the tokens that reading the input token by token produces
    before the input is exhausted, and their texts, one after the other,
    are the input without its white space: no token is dropped and no
    character but white space is lost. *)
Theorem tokenize_total (s : jsstring) :
  exists ts,
    lex s = Some ts /\
    Forall (fun t => type t <> EOF) ts /\
    filter LexSpec.is_unknown ts
    = map LexSpec.unknown_token (LexSpec.unknown_chars s) /\
    (forall i c,
       nth_error s i = Some c ->
       LexSpec.rule_matches c (nth_error s (S i)) = false ->
       In (LexSpec.unknown_token c) ts) /\
    LexSpec.Lexes s ts /\
    LexText.text_of ts = LexText.visible s.
Proof.
  destruct (LexerFacts.Lexes_total s) as [ts H]. exists ts.
  pose proof (LexerFacts.Lexes_unknown _ _ H) as Hu.
  split; [now apply LexerFacts.lex_Lexes|].
  split; [now apply (LexerFacts.Lexes_no_EOF s)|].
  split; [exact Hu|].
  split; [|split; [exact H | now apply LexerMore.Lexes_text]].
  intros i c Hc Hm.
  assert (Hin : In (LexSpec.unknown_token c) (filter LexSpec.is_unknown ts)).
  { rewrite Hu. apply in_map.
    eapply LexerFacts.unknown_chars_nth; eauto. }
  apply filter_In in Hin. tauto.
Qed.

Lemma tokenize_total_witness :
  exists ts,
    lex (str "a ?") = Some ts /\ In (LexSpec.unknown_token 63%N) ts /\
    LexSpec.Lexes (str "a ?") ts /\ LexText.text_of ts = str "a?".
Proof.
  destruct (tokenize_total (str "a ?")) as (ts & H1 & _ & _ & H4 & H5 & H6).
  exists ts. split; [exact H1|].
  split; [apply (H4 2 63%N); reflexivity|].
  split; [exact H5 | exact H6].
Defined.

(** C6.  The exponent production folds to the left: the tokens of
    [a^b^c] become the tree of [(a^b)^c].  [needsParentheses] asks for
    parentheses around a [^] child of a [^] parent only on the right, so
    that tree is written back without any: [2^3^4] comes out as
    [2^3^4]. *)
Theorem exponent_folds_left :
  lex (str "2^3^4")
  = Some [number_token (str "2"); symbol_token POWER "^";
          number_token (str "3"); symbol_token POWER "^";
          number_token (str "4")] /\
  (forall a b c,
     Parser.parse [number_token a; symbol_token POWER "^"; number_token b;
                   symbol_token POWER "^"; number_token c]
     = Parser.Ok
         (BinaryExpression (str "^")
            (BinaryExpression (str "^") (NumberLiteral a) (NumberLiteral b))
            (NumberLiteral c))) /\
  (forall l r l' r' position,
     Render.needsParentheses
       (BinaryExpression (str "^") l r) (BinaryExpression (str "^") l' r')
       position
     = Render.is_right position) /\
  Render.astToString
    (BinaryExpression (str "^")
       (BinaryExpression (str "^") (NumberLiteral (str "2"))
          (NumberLiteral (str "3")))
       (NumberLiteral (str "4")))
  = str "2^3^4".
Proof.
  repeat split; try (vm_compute; reflexivity).
  intros l r l' r' [|]; reflexivity.
Qed.

(** C7.  The operand of a unary operator is one primary expression:
    the tokens of [-a^b] become the tree of [(-a)^b], where the unary
    minus holds [a] alone and the power holds the unary expression. *)
Theorem unary_operand_is_primary :
  lex (str "-2^2")
  = Some [symbol_token MINUS "-"; number_token (str "2");
          symbol_token POWER "^"; number_token (str "2")] /\
  (forall a b,
     Parser.parse [symbol_token MINUS "-"; number_token a;
                   symbol_token POWER "^"; number_token b]
     = Parser.Ok
         (BinaryExpression (str "^")
            (UnaryExpression (str "-") (NumberLiteral a))
            (NumberLiteral b))).
Proof. repeat split; vm_compute; reflexivity. Qed.

(** C8.  The text [\frac{1}{2}] is parsed into a FunctionCall named
    [\frac] with the two arguments 1 and 2; a FunctionCall named [\frac]
    with two arguments is written as the numerator in parentheses, a
    slash and the denominator in parentheses, whatever the arguments are;
    for 1 and 2 that is [(1)/(2)]. *)
Theorem fraction_macro :
  lex_parse (str "\frac{1}{2}") = Some (Parser.Ok one_half) /\
  (forall n d,
     Render.astToString (FunctionCall (str "\frac") [n; d])
     = str "(" ++ Render.astToString n ++ str ")/("
       ++ Render.astToString d ++ str ")") /\
  Render.astToString one_half = str "(1)/(2)".
Proof.
  repeat split; try (vm_compute; reflexivity).
  intros n d. cbn [Render.astToString]. unfold Render.parens.
  change (streq (str "\frac") (str "\frac")) with true. cbv iota.
  rewrite <- !app_assoc. reflexivity.
Qed.

(** C9.  Parsing the tokens of [\frac{1}] returns no tree: it throws an
    error whose message is the one diagnostic of [parseFracCommand] for a
    missing denominator, which starts with the name [\frac] and asks for a
    group in braces. *)
Theorem fraction_without_denominator :
  lex (str "\frac{1}")
  = Some [symbol_token COMMAND "\frac"; symbol_token LBRACE "{";
          number_token (str "1"); symbol_token RBRACE "}"] /\
  (forall a,
     Parser.parse [symbol_token COMMAND "\frac"; symbol_token LBRACE "{";
                   number_token a; symbol_token RBRACE "}"]
     = Parser.ThrowError
         (str "\frac コマンドの分母が見つかりません。{式} の形式が必要です。")).
Proof. repeat split; vm_compute; reflexivity. Qed.

(** C10.  On the tokens of [1+2)] the expression [1+2] is parsed without
    a diagnostic and the cursor stops in front of the closing parenthesis;
    [parse] then records the diagnostic for unread tokens and throws an
    error whose message is the diagnostics joined by line feeds, here that
    single one. *)
Theorem trailing_tokens_fail :
  let ts := [number_token (str "1"); symbol_token PLUS "+";
             number_token (str "2"); symbol_token RPAREN ")"] in
  let diagnostic :=
    str "解析が完了しましたが、未処理のトークンが残っています: ) トークン: ) (RParen)" in
  lex (str "1+2)") = Some ts /\
  Parser.parseExpression (Parser.fuel_for ts) (Parser.new ts)
  = Parser.Return
      (BinaryExpression (str "+") (NumberLiteral (str "1"))
         (NumberLiteral (str "2")))
      (Parser.mkParser ts 3 []) /\
  Parser.parse ts = Parser.ThrowError (join [10%N] [diagnostic]) /\
  join [10%N] [diagnostic] = diagnostic.
Proof. repeat split; vm_compute; reflexivity. Qed.

(** C3, as the specification states it, fails.  The text [\frac{1}{2}] is
    accepted and written as [(1)/(2)], which is read back as a division of
    two groups: no FunctionCall, with or without the groups.  The text
    [\sin{x}] is accepted and written as [sin(x)], which the parser
    rejects: an identifier followed by unread tokens. *)
Lemma roundtrip_fails_on_function_calls :
  lex_parse (str "\frac{1}{2}") = Some (Parser.Ok one_half) /\
  Render.astToString one_half = str "(1)/(2)" /\
  lex_parse (str "(1)/(2)") = Some (Parser.Ok one_over_two) /\
  strip_parens one_over_two <> strip_parens one_half /\
  lex_parse (str "\sin{x}") = Some (Parser.Ok sine_of_x) /\
  Render.astToString sine_of_x = str "sin(x)" /\
  lex_parse (str "sin(x)")
  = Some (Parser.ThrowError
            (str "解析が完了しましたが、未処理のトークンが残っています: ( x ) トークン: ( (LParen)")).
Proof.
  repeat split; try (vm_compute; reflexivity).
  vm_compute. discriminate.
Qed.

(** C3, amended.  For every input string that is accepted (lexing and
    parsing succeed with no diagnostic) and whose tree holds no
    FunctionCall node, no MatrixExpression node and no Identifier node
    named π, lexing and parsing the text that [astToString] writes for the
    tree succeeds and gives the same tree back, which is in particular the
    same tree but for ParenthesizedExpression wrappers. *)
Theorem roundtrip_in_the_grammar (s : jsstring) (ast : Node) :
  lex_parse s = Some (Parser.Ok ast) ->
  Fragment.evaluator_syntax ast = false ->
  exists ast',
    lex_parse (Render.astToString ast) = Some (Parser.Ok ast') /\
    strip_parens ast' = strip_parens ast /\
    ast' = ast.
Proof.
  unfold lex_parse. intros Hs Hev.
  destruct (lex s) as [ts|] eqn:Hlex; [|discriminate].
  cbn [option_map] in Hs. injection Hs as Hp.
  pose proof (FragmentFacts.Lexes_canonical _ _ (LexerFacts.lex_inv _ _ Hlex))
    as Hc.
  destruct (FragmentParser.parse_fragment ts ast Hc Hp Hev) as [Ht Hshape].
  exists ast. rewrite (FragmentFacts.lex_astToString _ Hshape), Ht.
  cbn [option_map]. rewrite Hp. auto.
Qed.

Lemma roundtrip_in_the_grammar_witness :
  exists ast',
    lex_parse (Render.astToString one_plus_two_times_three)
    = Some (Parser.Ok ast') /\
    strip_parens ast' = strip_parens one_plus_two_times_three /\
    ast' = one_plus_two_times_three.
Proof.
  apply (roundtrip_in_the_grammar (str "1+2*3")).
  - vm_compute; reflexivity.
  - vm_compute; reflexivity.
Defined.

(** C4, as stated, fails: on a two-argument [\frac] the older function
    returns what the nerdamer library makes of the text, and that is the
    fraction in lowest terms where the newer function keeps both pairs
    of parentheses. *)
Lemma astToString_differ_on_fraction :
  Part000.astToString nerdamer_lowest_terms one_half = str "1/2" /\
  Render.astToString one_half = str "(1)/(2)" /\
  Part000.astToString nerdamer_lowest_terms one_half
  <> Render.astToString one_half.
Proof.
  repeat split; try (vm_compute; reflexivity).
  vm_compute. discriminate.
Qed.

(** C4, amended.  Whatever the library does, the two [astToString] return
    the same string for every tree that holds no FunctionCall named
    [\frac] with exactly two arguments; for such a call the older one
    returns the answer of the library to the text
    [(numerator)/(denominator)], and that text itself only when the
    library throws; so the two are the same on every tree when every call
    of the library throws. *)
Theorem astToString_agree_without_fraction
    (nerdamer : jsstring -> option jsstring) :
  (forall node,
     contains_fraction node = false ->
     Part000.astToString nerdamer node = Render.astToString node) /\
  (forall n d,
     Part000.astToString nerdamer (FunctionCall (str "\frac") [n; d])
     = let expr :=
         Render.parens (Part000.astToString nerdamer n) ++ str "/"
         ++ Render.parens (Part000.astToString nerdamer d) in
       match nerdamer expr with
       | Some simplified => simplified
       | None => expr
       end) /\
  ((forall expr, nerdamer expr = None) ->
   forall node,
     Part000.astToString nerdamer node = Render.astToString node).
Proof.
  split; [|split].
  - intros node. apply RenderFacts.astToString_agree.
  - apply RenderFacts.astToString_fraction.
  - intros Hn node. now apply RenderFacts.astToString_agree_fallback.
Qed.

Lemma astToString_agree_without_fraction_witness :
  Part000.astToString nerdamer_lowest_terms one_plus_two_times_three
  = Render.astToString one_plus_two_times_three.
Proof.
  apply (proj1 (astToString_agree_without_fraction nerdamer_lowest_terms)).
  vm_compute; reflexivity.
Defined.

(* ================================================================== *)
(** ** Further facts about the parser                                  *)
(* ================================================================== *)

Module ParserMore.
Import Lexer Parser ParserLogic ParserFacts NullLogic.
Local Open Scope parser_scope.

(** *** A tree that [parse] returns holds no [null] *)

Ltac nulls :=
  unfold null_free, nulls_free, rows_free, grown, reported, failed in *;
  cbn [tokens position errors next has_null existsb fst snd] in *;
  intros;
  repeat match goal with
         | |- context [if ?c then _ else _] => destruct c
         end;
  rewrite ?existsb_app in *; cbn [existsb] in *;
  rewrite ?orb_false_r, ?orb_true_iff in *;
  intuition (try discriminate; try lia).

Section NullFreeStep.

Variable k : nat.

Hypothesis IHPrimary : forall p,
  post True (parsePrimary k p) (null_free p).
Hypothesis IHBraceArguments : forall args p,
  (existsb has_null args = true -> reported p) ->
  post True (parseBraceArguments k args p) (nulls_free p).
Hypothesis IHCommaList : forall es p,
  (existsb has_null es = true -> reported p) ->
  post True (parseCommaList k es p) (nulls_free p).
Hypothesis IHArrayExpression : forall p,
  post True (parseArrayExpression k p) (null_free p).
Hypothesis IHFracCommand : forall p,
  post True (parseFracCommand k p) (null_free p).
Hypothesis IHMatrixExpression : forall p,
  post True (parseMatrixExpression k p) (null_free p).
Hypothesis IHMatrixRows : forall rows row p,
  (existsb (existsb has_null) rows = true -> reported p) ->
  (existsb has_null row = true -> reported p) ->
  post True (parseMatrixRows k rows row p) (rows_free p).
Hypothesis IHExponent : forall p,
  post True (parseExponent k p) (null_free p).
Hypothesis IHExponent_loop : forall node p,
  (has_null node = true -> reported p) ->
  post True (parseExponent_loop k node p) (null_free p).
Hypothesis IHTerm : forall p,
  post True (parseTerm k p) (null_free p).
Hypothesis IHTerm_loop : forall node p,
  (has_null node = true -> reported p) ->
  post True (parseTerm_loop k node p) (null_free p).
Hypothesis IHAdditive : forall p,
  post True (parseAdditive k p) (null_free p).
Hypothesis IHAdditive_loop : forall node p,
  (has_null node = true -> reported p) ->
  post True (parseAdditive_loop k node p) (null_free p).
Hypothesis IHComparison : forall p,
  post True (parseComparison k p) (null_free p).
Hypothesis IHComparison_loop : forall node p,
  (has_null node = true -> reported p) ->
  post True (parseComparison_loop k node p) (null_free p).
Hypothesis IHAssignment : forall p,
  post True (parseAssignment k p) (null_free p).
Hypothesis IHExpression : forall p,
  post True (parseExpression k p) (null_free p).

Ltac go := repeat mstep ltac:(mcall_by nulls); try solve [nulls].

Lemma parsePrimary_null_free p :
  post True (parsePrimary (S k) p) (null_free p).
Proof. cbn [parsePrimary]. go. Qed.

Lemma parseBraceArguments_null_free args p :
  (existsb has_null args = true -> reported p) ->
  post True (parseBraceArguments (S k) args p) (nulls_free p).
Proof. intros. cbn [parseBraceArguments]. go. Qed.

Lemma parseCommaList_null_free es p :
  (existsb has_null es = true -> reported p) ->
  post True (parseCommaList (S k) es p) (nulls_free p).
Proof. intros. cbn [parseCommaList]. go. Qed.

Lemma parseArrayExpression_null_free p :
  post True (parseArrayExpression (S k) p) (null_free p).
Proof. cbn [parseArrayExpression]. go. Qed.

Lemma parseFracCommand_null_free p :
  post True (parseFracCommand (S k) p) (null_free p).
Proof. cbn [parseFracCommand]. go. Qed.

Lemma parseMatrixExpression_null_free p :
  post True (parseMatrixExpression (S k) p) (null_free p).
Proof. cbn [parseMatrixExpression]. go. Qed.

Lemma parseMatrixRows_null_free rows row p :
  (existsb (existsb has_null) rows = true -> reported p) ->
  (existsb has_null row = true -> reported p) ->
  post True (parseMatrixRows (S k) rows row p) (rows_free p).
Proof. intros. cbn [parseMatrixRows]. go. Qed.

Lemma parseExponent_null_free p :
  post True (parseExponent (S k) p) (null_free p).
Proof. cbn [parseExponent]. go. Qed.

Lemma parseExponent_loop_null_free node p :
  (has_null node = true -> reported p) ->
  post True (parseExponent_loop (S k) node p) (null_free p).
Proof. intros. cbn [parseExponent_loop]. go. Qed.

Lemma parseTerm_null_free p :
  post True (parseTerm (S k) p) (null_free p).
Proof. cbn [parseTerm]. go. Qed.

Lemma parseTerm_loop_null_free node p :
  (has_null node = true -> reported p) ->
  post True (parseTerm_loop (S k) node p) (null_free p).
Proof. intros. cbn [parseTerm_loop]. go. Qed.

Lemma parseAdditive_null_free p :
  post True (parseAdditive (S k) p) (null_free p).
Proof. cbn [parseAdditive]. go. Qed.

Lemma parseAdditive_loop_null_free node p :
  (has_null node = true -> reported p) ->
  post True (parseAdditive_loop (S k) node p) (null_free p).
Proof. intros. cbn [parseAdditive_loop]. go. Qed.

Lemma parseComparison_null_free p :
  post True (parseComparison (S k) p) (null_free p).
Proof. cbn [parseComparison]. go. Qed.

Lemma parseComparison_loop_null_free node p :
  (has_null node = true -> reported p) ->
  post True (parseComparison_loop (S k) node p) (null_free p).
Proof. intros. cbn [parseComparison_loop]. go. Qed.

Lemma parseAssignment_null_free p :
  post True (parseAssignment (S k) p) (null_free p).
Proof. cbn [parseAssignment]. go. Qed.

Lemma parseExpression_null_free p :
  post True (parseExpression (S k) p) (null_free p).
Proof. cbn [parseExpression]. go. Qed.

End NullFreeStep.

(** Whatever the fuel, a method gives a tree with a [null] in it only
    after a diagnostic was recorded, and it drops no diagnostic. *)
Lemma methods_null_free fuel :
  (forall p,
     post True (parsePrimary fuel p) (null_free p)) /\
  (forall args p,
     (existsb has_null args = true -> reported p) ->
     post True (parseBraceArguments fuel args p) (nulls_free p)) /\
  (forall es p,
     (existsb has_null es = true -> reported p) ->
     post True (parseCommaList fuel es p) (nulls_free p)) /\
  (forall p,
     post True (parseArrayExpression fuel p) (null_free p)) /\
  (forall p,
     post True (parseFracCommand fuel p) (null_free p)) /\
  (forall p,
     post True (parseMatrixExpression fuel p) (null_free p)) /\
  (forall rows row p,
     (existsb (existsb has_null) rows = true -> reported p) ->
     (existsb has_null row = true -> reported p) ->
     post True (parseMatrixRows fuel rows row p) (rows_free p)) /\
  (forall p,
     post True (parseExponent fuel p) (null_free p)) /\
  (forall node p,
     (has_null node = true -> reported p) ->
     post True (parseExponent_loop fuel node p) (null_free p)) /\
  (forall p,
     post True (parseTerm fuel p) (null_free p)) /\
  (forall node p,
     (has_null node = true -> reported p) ->
     post True (parseTerm_loop fuel node p) (null_free p)) /\
  (forall p,
     post True (parseAdditive fuel p) (null_free p)) /\
  (forall node p,
     (has_null node = true -> reported p) ->
     post True (parseAdditive_loop fuel node p) (null_free p)) /\
  (forall p,
     post True (parseComparison fuel p) (null_free p)) /\
  (forall node p,
     (has_null node = true -> reported p) ->
     post True (parseComparison_loop fuel node p) (null_free p)) /\
  (forall p,
     post True (parseAssignment fuel p) (null_free p)) /\
  (forall p,
     post True (parseExpression fuel p) (null_free p)).
Proof.
  induction fuel as [|k IH].
  - repeat split; intros; exact I.
  - destruct IH as (H1 & H2 & H3 & H4 & H5 & H6 & H7 & H8 & H9 & H10 & H11
                    & H12 & H13 & H14 & H15 & H16 & H17).
    repeat split; intros.
    + apply parsePrimary_null_free; assumption.
    + apply parseBraceArguments_null_free; assumption.
    + apply parseCommaList_null_free; assumption.
    + apply parseArrayExpression_null_free; assumption.
    + apply parseFracCommand_null_free; assumption.
    + apply parseMatrixExpression_null_free; assumption.
    + apply parseMatrixRows_null_free; assumption.
    + apply parseExponent_null_free; assumption.
    + apply parseExponent_loop_null_free; assumption.
    + apply parseTerm_null_free; assumption.
    + apply parseTerm_loop_null_free; assumption.
    + apply parseAdditive_null_free; assumption.
    + apply parseAdditive_loop_null_free; assumption.
    + apply parseComparison_null_free; assumption.
    + apply parseComparison_loop_null_free; assumption.
    + apply parseAssignment_null_free; assumption.
    + apply parseExpression_null_free; assumption.
Qed.


Lemma parse_null_free ts ast : parse ts = Ok ast -> has_null ast = false.
Proof.
  unfold parse, run. intros H.
  pose proof (methods_null_free (fuel_for ts)) as M.
  do 16 apply proj2 in M. specialize (M (new ts)).
  destruct (parseExpression (fuel_for ts) (new ts)) as [a p| |];
    [|destruct (0 <? _); discriminate|discriminate].
  cbn [outcome] in M. destruct M as [_ M].
  destruct (position p <? List.length (tokens p)).
  - unfold addError in H. destruct (peek p); cbn [errors] in H;
      rewrite length_app in H; cbn [List.length] in H;
      rewrite Nat.add_1_r in H; discriminate.
  - destruct (0 <? List.length (errors p)) eqn:E; [discriminate|].
    injection H as <-. apply Nat.ltb_ge in E.
    destruct (has_null a); auto. specialize (M eq_refl).
    unfold reported in M. lia.
Qed.

(** *** [parse] accepts no token of a kind outside the grammar *)

Import KindLogic.

Lemma firstn_S_nth {A} (l : list A) :
  forall n x,
    nth_error l n = Some x -> firstn (S n) l = firstn n l ++ [x].
Proof.
  induction l as [|a l IH]; intros [|n] x; cbn [nth_error];
    try discriminate.
  - now intros [= ->].
  - intros H. change (firstn (S (S n)) (a :: l)) with (a :: firstn (S n) l).
    now rewrite (IH _ _ H).
Qed.

Lemma kinds_next p tok :
  peek p = Some tok -> grammar_kind (type tok) = true ->
  kinds_ok p -> kinds_ok (next p).
Proof.
  unfold kinds_ok, consumed, peek. cbn [next tokens position].
  intros Hp Hk H.
  rewrite (firstn_S_nth _ _ _ Hp), forallb_app, H. simpl. now rewrite Hk.
Qed.

Lemma kinds_failed p p' : failed p p' -> kinds_ok p -> kinds_ok p'.
Proof.
  unfold failed, kinds_ok, consumed. intros (-> & -> & _). auto.
Qed.

Ltac kind_of_token :=
  repeat match goal with
         | H : _ || _ = true |- _ => apply orb_prop in H; destruct H
         end;
  match goal with
  | |- grammar_kind (type ?tok) = true =>
    first
      [ match goal with
        | H : expected (Some _) tok = true |- _ =>
          cbn [expected] in H; destruct (type tok); try discriminate H;
          reflexivity
        end
      | match goal with
        | H : peek ?p = Some tok, T : peek_is _ ?p = true |- _ =>
          unfold peek_is, peek_type in T; rewrite H in T;
          cbn [option_map] in T;
          destruct (type tok); try discriminate T; reflexivity
        end
      | match goal with
        | H : peek ?p = Some tok, T : peek_in _ ?p = true |- _ =>
          unfold peek_in, peek_type in T; rewrite H in T;
          cbn [option_map] in T;
          destruct (type tok); try discriminate T; reflexivity
        end
      | match goal with
        | T : type tok = _ |- _ => rewrite T; reflexivity
        end
      | match goal with
        | H : peek ?p = Some tok, H' : peek ?p = Some ?token,
          T : type ?token = _ |- _ =>
          replace tok with token by congruence; rewrite T; reflexivity
        end ]
  end.

Ltac chain_kinds :=
  first
    [ assumption
    | exfalso; lia
    | match goal with
      | |- kinds_ok (next ?q) =>
        eapply kinds_next; [eassumption | kind_of_token | chain_kinds]
      | H : _ -> kinds_ok ?a -> kinds_ok ?b |- kinds_ok ?b =>
        apply H; [lia | chain_kinds]
      | H : failed ?a ?b |- kinds_ok ?b =>
        apply (kinds_failed a b H); chain_kinds
      end ].

Ltac kinds :=
  unfold kept, grown, failed in *; intros;
  repeat match goal with
         | H : _ /\ _ |- _ => destruct H
         end;
  repeat match goal with
         | H : context [errors (next ?p)] |- _ =>
           change (errors (next p)) with (errors p) in H
         | H : context [tokens (next ?p)] |- _ =>
           change (tokens (next p)) with (tokens p) in H
         | |- context [errors (next ?p)] =>
           change (errors (next p)) with (errors p)
         | |- context [tokens (next ?p)] =>
           change (tokens (next p)) with (tokens p)
         end;
  split; [congruence | split; [lia | intros; chain_kinds]].

Section KindStep.

Variable k : nat.

Hypothesis IHPrimary : forall p,
  post True (parsePrimary k p) (fun _ => kept p).
Hypothesis IHBraceArguments : forall args p,
  post True (parseBraceArguments k args p) (fun _ => kept p).
Hypothesis IHCommaList : forall es p,
  post True (parseCommaList k es p) (fun _ => kept p).
Hypothesis IHArrayExpression : forall p,
  post True (parseArrayExpression k p) (fun _ => kept p).
Hypothesis IHFracCommand : forall p,
  post True (parseFracCommand k p) (fun _ => kept p).
Hypothesis IHMatrixExpression : forall p,
  post True (parseMatrixExpression k p) (fun _ => kept p).
Hypothesis IHMatrixRows : forall rows row p,
  post True (parseMatrixRows k rows row p) (fun _ => kept p).
Hypothesis IHExponent : forall p,
  post True (parseExponent k p) (fun _ => kept p).
Hypothesis IHExponent_loop : forall node p,
  post True (parseExponent_loop k node p) (fun _ => kept p).
Hypothesis IHTerm : forall p,
  post True (parseTerm k p) (fun _ => kept p).
Hypothesis IHTerm_loop : forall node p,
  post True (parseTerm_loop k node p) (fun _ => kept p).
Hypothesis IHAdditive : forall p,
  post True (parseAdditive k p) (fun _ => kept p).
Hypothesis IHAdditive_loop : forall node p,
  post True (parseAdditive_loop k node p) (fun _ => kept p).
Hypothesis IHComparison : forall p,
  post True (parseComparison k p) (fun _ => kept p).
Hypothesis IHComparison_loop : forall node p,
  post True (parseComparison_loop k node p) (fun _ => kept p).
Hypothesis IHAssignment : forall p,
  post True (parseAssignment k p) (fun _ => kept p).
Hypothesis IHExpression : forall p,
  post True (parseExpression k p) (fun _ => kept p).

Ltac go := repeat mstep ltac:(mcall_by kinds); try solve [kinds].

Lemma parsePrimary_kinds p :
  post True (parsePrimary (S k) p) (fun _ => kept p).
Proof. cbn [parsePrimary]. go. Qed.

Lemma parseBraceArguments_kinds args p :
  post True (parseBraceArguments (S k) args p) (fun _ => kept p).
Proof. cbn [parseBraceArguments]. go. Qed.

Lemma parseCommaList_kinds es p :
  post True (parseCommaList (S k) es p) (fun _ => kept p).
Proof. cbn [parseCommaList]. go. Qed.

Lemma parseArrayExpression_kinds p :
  post True (parseArrayExpression (S k) p) (fun _ => kept p).
Proof. cbn [parseArrayExpression]. go. Qed.

Lemma parseFracCommand_kinds p :
  post True (parseFracCommand (S k) p) (fun _ => kept p).
Proof. cbn [parseFracCommand]. go. Qed.

Lemma parseMatrixExpression_kinds p :
  post True (parseMatrixExpression (S k) p) (fun _ => kept p).
Proof. cbn [parseMatrixExpression]. go. Qed.

Lemma parseMatrixRows_kinds rows row p :
  post True (parseMatrixRows (S k) rows row p) (fun _ => kept p).
Proof. cbn [parseMatrixRows]. go. Qed.

Lemma parseExponent_kinds p :
  post True (parseExponent (S k) p) (fun _ => kept p).
Proof. cbn [parseExponent]. go. Qed.

Lemma parseExponent_loop_kinds node p :
  post True (parseExponent_loop (S k) node p) (fun _ => kept p).
Proof. cbn [parseExponent_loop]. go. Qed.

Lemma parseTerm_kinds p :
  post True (parseTerm (S k) p) (fun _ => kept p).
Proof. cbn [parseTerm]. go. Qed.

Lemma parseTerm_loop_kinds node p :
  post True (parseTerm_loop (S k) node p) (fun _ => kept p).
Proof. cbn [parseTerm_loop]. go. Qed.

Lemma parseAdditive_kinds p :
  post True (parseAdditive (S k) p) (fun _ => kept p).
Proof. cbn [parseAdditive]. go. Qed.

Lemma parseAdditive_loop_kinds node p :
  post True (parseAdditive_loop (S k) node p) (fun _ => kept p).
Proof. cbn [parseAdditive_loop]. go. Qed.

Lemma parseComparison_kinds p :
  post True (parseComparison (S k) p) (fun _ => kept p).
Proof. cbn [parseComparison]. go. Qed.

Lemma parseComparison_loop_kinds node p :
  post True (parseComparison_loop (S k) node p) (fun _ => kept p).
Proof. cbn [parseComparison_loop]. go. Qed.

Lemma parseAssignment_kinds p :
  post True (parseAssignment (S k) p) (fun _ => kept p).
Proof. cbn [parseAssignment]. go. Qed.

Lemma parseExpression_kinds p :
  post True (parseExpression (S k) p) (fun _ => kept p).
Proof. cbn [parseExpression]. go. Qed.

End KindStep.

(** Whatever the fuel, a method that returns without a diagnostic went
    past tokens of the kinds of the grammar only. *)
Lemma methods_kinds fuel :
  (forall p,
     post True (parsePrimary fuel p) (fun _ => kept p)) /\
  (forall args p,
     post True (parseBraceArguments fuel args p) (fun _ => kept p)) /\
  (forall es p,
     post True (parseCommaList fuel es p) (fun _ => kept p)) /\
  (forall p,
     post True (parseArrayExpression fuel p) (fun _ => kept p)) /\
  (forall p,
     post True (parseFracCommand fuel p) (fun _ => kept p)) /\
  (forall p,
     post True (parseMatrixExpression fuel p) (fun _ => kept p)) /\
  (forall rows row p,
     post True (parseMatrixRows fuel rows row p) (fun _ => kept p)) /\
  (forall p,
     post True (parseExponent fuel p) (fun _ => kept p)) /\
  (forall node p,
     post True (parseExponent_loop fuel node p) (fun _ => kept p)) /\
  (forall p,
     post True (parseTerm fuel p) (fun _ => kept p)) /\
  (forall node p,
     post True (parseTerm_loop fuel node p) (fun _ => kept p)) /\
  (forall p,
     post True (parseAdditive fuel p) (fun _ => kept p)) /\
  (forall node p,
     post True (parseAdditive_loop fuel node p) (fun _ => kept p)) /\
  (forall p,
     post True (parseComparison fuel p) (fun _ => kept p)) /\
  (forall node p,
     post True (parseComparison_loop fuel node p) (fun _ => kept p)) /\
  (forall p,
     post True (parseAssignment fuel p) (fun _ => kept p)) /\
  (forall p,
     post True (parseExpression fuel p) (fun _ => kept p)).
Proof.
  induction fuel as [|k IH].
  - repeat split; intros; exact I.
  - destruct IH as (H1 & H2 & H3 & H4 & H5 & H6 & H7 & H8 & H9 & H10 & H11
                    & H12 & H13 & H14 & H15 & H16 & H17).
    repeat split; intros.
    + apply parsePrimary_kinds; assumption.
    + apply parseBraceArguments_kinds; assumption.
    + apply parseCommaList_kinds; assumption.
    + apply parseArrayExpression_kinds; assumption.
    + apply parseFracCommand_kinds; assumption.
    + apply parseMatrixExpression_kinds; assumption.
    + apply parseMatrixRows_kinds; assumption.
    + apply parseExponent_kinds; assumption.
    + apply parseExponent_loop_kinds; assumption.
    + apply parseTerm_kinds; assumption.
    + apply parseTerm_loop_kinds; assumption.
    + apply parseAdditive_kinds; assumption.
    + apply parseAdditive_loop_kinds; assumption.
    + apply parseComparison_kinds; assumption.
    + apply parseComparison_loop_kinds; assumption.
    + apply parseAssignment_kinds; assumption.
    + apply parseExpression_kinds; assumption.
Qed.



Lemma parse_kinds ts ast :
  parse ts = Ok ast -> forallb (fun t => grammar_kind (type t)) ts = true.
Proof.
  unfold parse, run. intros H.
  pose proof (methods_kinds (fuel_for ts)) as M.
  do 16 apply proj2 in M. specialize (M (new ts)).
  destruct (parseExpression (fuel_for ts) (new ts)) as [a p| |];
    [|destruct (0 <? _); discriminate|discriminate].
  cbn [outcome] in M. destruct M as (Ht & _ & M).
  destruct (position p <? List.length (tokens p)) eqn:Hpos.
  - unfold addError in H. destruct (peek p); cbn [errors] in H;
      rewrite length_app in H; cbn [List.length] in H;
      rewrite Nat.add_1_r in H; discriminate.
  - destruct (0 <? List.length (errors p)) eqn:E; [discriminate|].
    apply Nat.ltb_ge in E. apply Nat.ltb_ge in Hpos.
    assert (Hk : kinds_ok p) by (apply M; [lia|reflexivity]).
    unfold kinds_ok, consumed in Hk.
    rewrite firstn_all2 in Hk by exact Hpos. now rewrite Ht in Hk.
Qed.

End ParserMore.

(* ================================================================== *)
(** ** Facts about the fixed input                                     *)
(* ================================================================== *)

Module CalcFacts.
Import Lexer CalcScript.

(** Induction on a text two characters at a time. *)
Lemma pairs_ind (P : jsstring -> Prop) :
  P [] -> (forall c, P [c]) ->
  (forall c d r, P r -> P (d :: r) -> P (c :: d :: r)) ->
  forall s, P s.
Proof.
  intros H0 H1 H2.
  assert (H : forall s, P s /\ forall c, P (c :: s)).
  { induction s as [|d r [IH1 IH2]]; split; auto. }
  intros s. apply H.
Qed.

Lemma fixedInput_pair c d r :
  fixedInput (c :: d :: r)
  = if is_digit c && is_letter_or_backslash d then
      c :: 42%N :: d :: fixedInput r
    else c :: fixedInput (d :: r).
Proof. reflexivity. Qed.

Lemma fixedInput_head s : hd_error (fixedInput s) = hd_error s.
Proof.
  destruct s as [|c [|d r]]; simpl; auto.
  destruct (is_digit c && is_letter_or_backslash d); reflexivity.
Qed.

Lemma multiplicand_not_digit d :
  is_letter_or_backslash d = true ->
  is_digit d = false /\ (d =? 42)%N = false.
Proof.
  unfold is_letter_or_backslash. intros H. split; FragmentFacts.classes.
Qed.

Lemma juxtaposed_cons c s :
  juxtaposed (c :: s)
  = match hd_error s with
    | Some d => is_digit c && is_letter_or_backslash d
    | None => false
    end || juxtaposed s.
Proof. destruct s; reflexivity. Qed.

(** No digit is left with a letter or a backslash right behind it. *)
Lemma fixedInput_apart s : juxtaposed (fixedInput s) = false.
Proof.
  induction s as [|c|c d r IH1 IH2] using pairs_ind; auto.
  rewrite fixedInput_pair.
  destruct (is_digit c && is_letter_or_backslash d) eqn:E.
  - apply andb_prop in E as [Ec Ed].
    destruct (multiplicand_not_digit _ Ed) as [Hd _].
    rewrite !juxtaposed_cons. cbn [hd_error]. rewrite Hd, IH1.
    rewrite andb_false_r. cbn. destruct (hd_error (fixedInput r)); reflexivity.
  - rewrite juxtaposed_cons, fixedInput_head, IH2. cbn [hd_error].
    now rewrite E.
Qed.

(** A text with no such pair is left as it is. *)
Lemma fixedInput_same s : juxtaposed s = false -> fixedInput s = s.
Proof.
  induction s as [|c|c d r IH1 IH2] using pairs_ind; auto.
  rewrite juxtaposed_cons, fixedInput_pair. cbn [hd_error]. intros H.
  apply orb_false_elim in H as [H1 H2]. rewrite H1. f_equal. auto.
Qed.

Lemma fixedInput_idempotent s : fixedInput (fixedInput s) = fixedInput s.
Proof. apply fixedInput_same, fixedInput_apart. Qed.

(** Only asterisks are added. *)
Lemma fixedInput_stars s : without_stars (fixedInput s) = without_stars s.
Proof.
  unfold without_stars.
  induction s as [|c|c d r IH1 IH2] using pairs_ind; auto.
  rewrite fixedInput_pair.
  destruct (is_digit c && is_letter_or_backslash d).
  - cbn [filter]. change ((42 =? 42)%N) with true. cbn [negb].
    destruct (negb (c =? 42)%N), (negb (d =? 42)%N); now rewrite IH1.
  - cbn [filter] in *. now rewrite IH2.
Qed.

(** *** The fixed input of a text in two parts *)

Lemma fixedInput_nondigit d s :
  is_digit d = false -> fixedInput (d :: s) = d :: fixedInput s.
Proof.
  intros H. destruct s as [|e s]; [reflexivity|].
  rewrite fixedInput_pair, H. reflexivity.
Qed.

Lemma last_cons (x y : char) r :
  hd_error (rev (x :: y :: r)) = hd_error (rev (y :: r)).
Proof.
  cbn [rev]. destruct (rev r) as [|z l]; reflexivity.
Qed.

Lemma seam_cons x y r b : seam (x :: y :: r) b = seam (y :: r) b.
Proof. unfold seam. now rewrite last_cons. Qed.

Lemma seam_nondigit y r b :
  is_digit y = false -> seam (y :: r) b = seam r b.
Proof.
  intros H. destruct r as [|z r].
  - unfold seam. cbn. now rewrite H.
  - apply seam_cons.
Qed.

(** [fixedInput] works on the two parts of a text apart, but for the
    asterisk at the seam. *)
Lemma fixedInput_app (a b : jsstring) :
  fixedInput (a ++ b) = fixedInput a ++ seam a b ++ fixedInput b.
Proof.
  induction a as [|x|x y r IH1 IH2] using pairs_ind.
  - unfold seam. simpl. now destruct (hd_error b).
  - destruct b as [|d b];
      [unfold seam; cbn; now rewrite andb_false_r|].
    change ([x] ++ d :: b) with (x :: d :: b).
    rewrite fixedInput_pair. unfold seam. cbn [rev app hd_error is_digit_opt].
    destruct (is_digit x && is_letter_or_backslash d) eqn:E; [|reflexivity].
    apply andb_prop in E as [_ Ed].
    destruct (multiplicand_not_digit _ Ed) as [Hd _].
    now rewrite (fixedInput_nondigit _ _ Hd).
  - change ((x :: y :: r) ++ b) with (x :: y :: (r ++ b)).
    rewrite !fixedInput_pair.
    destruct (is_digit x && is_letter_or_backslash y) eqn:E.
    + apply andb_prop in E as [_ Ey].
      destruct (multiplicand_not_digit _ Ey) as [Hy _].
      rewrite IH1, seam_cons, (seam_nondigit _ _ _ Hy). reflexivity.
    + change (y :: r ++ b) with ((y :: r) ++ b).
      rewrite IH2, seam_cons. reflexivity.
Qed.

End CalcFacts.

(* ================================================================== *)
(** ** The parser reads every tree of the grammar                      *)
(* ================================================================== *)

Module GrammarFacts.
Import Lexer Parser ParserLogic Grammar GrammarLogic.
Local Open Scope parser_scope.

Lemma bind_ret {A B} (m : M A) (f : A -> M B) p a p' :
  m p = Return a p' -> bind m f p = f a p'.
Proof. unfold bind. now intros ->. Qed.

Lemma peek_at ts n es : peek (parser_at ts n es) = hd_error (skipn n ts).
Proof. unfold peek. cbn. now rewrite LexerFacts.hd_error_skipn. Qed.

Lemma skipn_S {A} n (ts : list A) x r :
  skipn n ts = x :: r -> skipn (S n) ts = r.
Proof. intros H. rewrite <- LexerFacts.tl_skipn, H. reflexivity. Qed.

Lemma skipn_add {A} n (ts l r : list A) :
  skipn n ts = l ++ r -> skipn (n + List.length l) ts = r.
Proof.
  intros H. rewrite Nat.add_comm, <- skipn_skipn, H.
  rewrite skipn_app, skipn_all, Nat.sub_diag. reflexivity.
Qed.

Lemma consume_at e ts n es tok r :
  skipn n ts = tok :: r -> expected e tok = true ->
  consume e (parser_at ts n es) = Return (Some tok) (parser_at ts (S n) es).
Proof.
  intros H He. unfold consume. rewrite peek_at, H. cbn [hd_error].
  destruct e as [t|]; cbn [expected] in He; [rewrite He|]; reflexivity.
Qed.

Lemma consume_value_at ts n es tok r :
  skipn n ts = tok :: r ->
  consume_value (parser_at ts n es) = Return (value tok) (parser_at ts (S n) es).
Proof.
  intros H. unfold consume_value.
  now rewrite (bind_ret _ _ _ _ _ (consume_at None _ _ _ _ _ H eq_refl)).
Qed.

Lemma peek_is_at t ts n es tok r :
  skipn n ts = tok :: r ->
  peek_is t (parser_at ts n es) = TokenType_eqb (type tok) t.
Proof. intros H. unfold peek_is, peek_type. now rewrite peek_at, H. Qed.

Lemma peek_in_at f ts n es tok r :
  skipn n ts = tok :: r -> peek_in f (parser_at ts n es) = f (type tok).
Proof. intros H. unfold peek_in, peek_type. now rewrite peek_at, H. Qed.

Lemma peek_is_end t ts n es :
  skipn n ts = [] -> peek_is t (parser_at ts n es) = false.
Proof. intros H. unfold peek_is, peek_type. now rewrite peek_at, H. Qed.

Lemma peek_in_end f ts n es :
  skipn n ts = [] -> peek_in f (parser_at ts n es) = false.
Proof. intros H. unfold peek_in, peek_type. now rewrite peek_at, H. Qed.

Lemma ends_weaken L L' rest :
  ends L rest = true -> L <= L' -> ends L' rest = true.
Proof.
  destruct rest as [|t rest]; cbn; auto. intros H Hle.
  apply Nat.ltb_lt in H. apply Nat.ltb_lt. lia.
Qed.

Lemma ends_primary rest : ends 6 rest = true.
Proof. destruct rest as [|t rest]; cbn; auto. now destruct (type t). Qed.

Section Level.

Variables (this next : nat -> M Node) (loop : nat -> Node -> M Node).
Variables (is_op : TokenType -> bool) (mk : jsstring -> Node -> Node -> Node).
Variables (L c : nat).

Hypothesis this_eq : forall k,
  this (S k) = (node <- next k ;; loop k node).
Hypothesis loop_eq : forall k node p,
  loop (S k) node p
  = if peek_in is_op p then
      (operator <- consume_value ;;
       right <- next k ;;
       loop k (mk operator node right)) p
    else ret node p.
Hypothesis is_op_level : forall t, is_op t = true <-> level_of t = L.
Hypothesis toks_mk : forall op l r,
  toks (mk op l r) = toks l ++ Fragment.operator_token op :: toks r.
Hypothesis c_small : c <= 6.

Lemma heads_next t : returns next (S L) c t -> heads this loop L c t.
Proof.
  intros Hn k ts n es rest Hs He Hk.
  destruct k as [|k]; [lia|]. exists k. split.
  - rewrite this_eq. apply bind_ret. apply (Hn k ts n es rest); auto. lia.
  - rewrite length_app in Hk. lia.
Qed.

Lemma heads_operator op l r :
  is_op (Fragment.operator_type op) = true ->
  heads this loop L c l -> returns next (S L) c r ->
  heads this loop L c (mk op l r).
Proof.
  intros Hop Hl Hr k ts n es rest Hs He Hk.
  rewrite toks_mk, <- app_assoc in Hs, Hk. cbn [app] in Hs, Hk.
  assert (He1 : ends (S L) (Fragment.operator_token op :: toks r ++ rest)
                = true).
  { unfold ends. cbn [type Fragment.operator_token].
    apply is_op_level in Hop. rewrite Hop. apply Nat.ltb_lt. lia. }
  destruct (Hl k ts n es _ Hs He1 Hk) as (k1 & E1 & Hk1).
  pose proof (skipn_add _ _ _ _ Hs) as Hs1.
  pose proof (skipn_S _ _ _ _ Hs1) as Hs2.
  destruct k1 as [|k2]; [lia|]. exists k2. split.
  - rewrite E1, loop_eq, (peek_in_at _ _ _ _ _ _ Hs1). cbn [type Fragment.operator_token].
    rewrite Hop.
    rewrite (bind_ret _ _ _ _ _ (consume_value_at _ _ _ _ _ Hs1)).
    cbn [value Fragment.operator_token].
    rewrite (bind_ret _ _ _ _ _ (Hr k2 ts _ es rest Hs2 He ltac:(cbn [List.length] in Hk1; lia))).
    rewrite toks_mk, length_app. cbn [List.length].
    do 2 f_equal. lia.
  - cbn [List.length] in Hk1. rewrite length_app in Hk1. lia.
Qed.

Lemma returns_heads t : heads this loop L c t -> returns this L (S c) t.
Proof.
  intros Ht k ts n es rest Hs He Hk.
  assert (He1 : ends (S L) rest = true) by (eapply ends_weaken; eauto).
  destruct (Ht k ts n es rest Hs He1 Hk) as (k1 & E1 & Hk1).
  destruct k1 as [|k2]; [lia|].
  rewrite E1, loop_eq.
  pose proof (skipn_add _ _ _ _ Hs) as Hs1.
  destruct rest as [|tok rest].
  - now rewrite (peek_in_end _ _ _ _ Hs1).
  - rewrite (peek_in_at _ _ _ _ _ _ Hs1).
    destruct (is_op (type tok)) eqn:E; [|reflexivity].
    apply is_op_level in E. unfold ends in He. rewrite E in He.
    apply Nat.ltb_lt in He. lia.
Qed.

End Level.

Lemma parseTerm_loop_eq k node p :
  parseTerm_loop (S k) node p
  = if peek_in term_op p then
      (operator <- consume_value ;;
       right <- parseExponent k ;;
       parseTerm_loop k (BinaryExpression operator node right)) p
    else ret node p.
Proof.
  cbn [parseTerm_loop]. unfold peek_is, peek_in, term_op.
  now destruct (peek_type p).
Qed.

Lemma parseAdditive_loop_eq k node p :
  parseAdditive_loop (S k) node p
  = if peek_in additive_op p then
      (operator <- consume_value ;;
       right <- parseTerm k ;;
       parseAdditive_loop k (BinaryExpression operator node right)) p
    else ret node p.
Proof.
  cbn [parseAdditive_loop]. unfold peek_is, peek_in, additive_op.
  now destruct (peek_type p).
Qed.

Lemma power_op_level t : power_op t = true <-> level_of t = 5.
Proof. destruct t; cbn; split; congruence. Qed.
Lemma term_op_level t : term_op t = true <-> level_of t = 4.
Proof. destruct t; cbn; split; congruence. Qed.
Lemma additive_op_level t : additive_op t = true <-> level_of t = 3.
Proof. destruct t; cbn; split; congruence. Qed.
Lemma comparison_op_level t :
  is_comparison_operator t = true <-> level_of t = 2.
Proof. destruct t; cbn; split; congruence. Qed.

(** The level of an operator and the kind of its token. *)
Lemma binary_level_kind op m :
  Fragment.binary_level op = Some m ->
  level_of (Fragment.operator_type op) = m /\ 3 <= m <= 5.
Proof.
  unfold Fragment.binary_level, Fragment.operator_type.
  repeat match goal with
         | |- context [streq op ?g] =>
           let E := fresh "E" in
           destruct (streq op g) eqn:E;
           [apply FragmentFacts.streq_eq in E; subst op|]
         end; cbn; intros [= <-]; split; auto; lia.
Qed.

Lemma comparison_glyph_kind op :
  Fragment.is_comparison_glyph op = true ->
  level_of (Fragment.operator_type op) = 2.
Proof.
  unfold Fragment.is_comparison_glyph, Fragment.operator_type.
  repeat match goal with
         | |- context [streq op ?g] =>
           let E := fresh "E" in
           destruct (streq op g) eqn:E;
           [apply FragmentFacts.streq_eq in E; subst op|]
         end; cbn; intros; auto; discriminate.
Qed.

(** A tree of a level is one of the next level, or its root is an
    operator of the level. *)
Lemma shape_binary L t :
  3 <= L <= 5 -> shape L t = true ->
  shape (S L) t = true \/
  exists op l r,
    t = BinaryExpression op l r /\ Fragment.binary_level op = Some L /\
    shape L l = true /\ shape (S L) r = true.
Proof.
  intros HL. destruct t; cbn [shape]; auto.
  - destruct (Fragment.binary_level operator) as [m|] eqn:E; [|discriminate].
    intros H. apply andb_prop in H as [H Hr]. apply andb_prop in H as [H Hl].
    apply Nat.leb_le in H.
    destruct (Nat.eq_dec L m) as [->|Hne].
    + right. eauto 10.
    + left. rewrite Hl, Hr. replace (S L <=? m) with true; auto.
      symmetry. apply Nat.leb_le. lia.
  - intros H. apply andb_prop in H as [H _]. apply andb_prop in H as [H _].
    apply andb_prop in H as [H _]. apply Nat.leb_le in H. lia.
Qed.

Lemma shape_comparison t :
  shape 2 t = true ->
  shape 3 t = true \/
  exists op l r,
    t = ComparisonExpression op l r /\
    Fragment.is_comparison_glyph op = true /\
    shape 2 l = true /\ shape 3 r = true.
Proof.
  destruct t; cbn [shape]; auto.
  - destruct (Fragment.binary_level operator) as [m|] eqn:E; [|discriminate].
    destruct (binary_level_kind _ _ E) as [_ Hm].
    intros H. apply andb_prop in H as [H Hr]. apply andb_prop in H as [H Hl].
    left. rewrite Hl, Hr. replace (3 <=? m) with true; auto.
    symmetry. apply Nat.leb_le. lia.
  - intros H. apply andb_prop in H as [H Hr]. apply andb_prop in H as [H Hl].
    apply andb_prop in H as [_ Hg]. right. eauto 10.
Qed.

Lemma ends_equals rest ts n es :
  skipn n ts = rest -> ends 2 rest = true -> peek_is EQUALS (parser_at ts n es) = false.
Proof.
  intros Hs He. destruct rest as [|tok rest].
  - now apply peek_is_end.
  - rewrite (peek_is_at _ _ _ _ _ _ Hs). unfold ends in He.
    destruct (type tok); try reflexivity; discriminate.
Qed.

Ltac side :=
  auto;
  try solve [unfold heads5, heads4, heads3, heads2 in *; auto];
  try solve [ intros; reflexivity | lia
            | apply parseTerm_loop_eq | apply parseAdditive_loop_eq
            | apply power_op_level | apply term_op_level
            | apply additive_op_level | apply comparison_op_level
            | now apply power_op_level | now apply term_op_level
            | now apply additive_op_level | now apply comparison_op_level ].

Lemma ladder t :
  (shape 6 t = true -> returns parsePrimary 6 1 t) ->
  (forall op l r, t = BinaryExpression op l r -> complete l /\ complete r) ->
  (forall op l r,
     t = ComparisonExpression op l r -> complete l /\ complete r) ->
  complete t.
Proof.
  intros H6 Hb Hc.
  assert (H5 : shape 5 t = true -> heads5 t).
  { intros Hs.
    destruct (shape_binary 5 t ltac:(lia) Hs)
      as [Hn|(op & l & r & -> & Hop & Hl & Hr)].
    - apply (heads_next parseExponent parsePrimary parseExponent_loop 5 1); side.
    - destruct (Hb _ _ _ eq_refl) as [Cl Cr].
      pose proof (proj1 (binary_level_kind _ _ Hop)) as Hk.
      apply (heads_operator parseExponent parsePrimary parseExponent_loop
               power_op BinaryExpression 5 1); side.
      + now apply (h5 _ Cl).
      + now apply (c6 _ Cr). }
  assert (C5 : shape 5 t = true -> returns parseExponent 5 2 t).
  { intros Hs.
    apply (returns_heads parseExponent parsePrimary parseExponent_loop
             power_op BinaryExpression 5 1); side. }
  assert (H4 : shape 4 t = true -> heads4 t).
  { intros Hs.
    destruct (shape_binary 4 t ltac:(lia) Hs)
      as [Hn|(op & l & r & -> & Hop & Hl & Hr)].
    - apply (heads_next parseTerm parseExponent parseTerm_loop 4 2); side.
    - destruct (Hb _ _ _ eq_refl) as [Cl Cr].
      pose proof (proj1 (binary_level_kind _ _ Hop)) as Hk.
      apply (heads_operator parseTerm parseExponent parseTerm_loop
               term_op BinaryExpression 4 2); side.
      + now apply (h4 _ Cl).
      + now apply (c5 _ Cr). }
  assert (C4 : shape 4 t = true -> returns parseTerm 4 3 t).
  { intros Hs.
    apply (returns_heads parseTerm parseExponent parseTerm_loop
             term_op BinaryExpression 4 2); side. }
  assert (H3 : shape 3 t = true -> heads3 t).
  { intros Hs.
    destruct (shape_binary 3 t ltac:(lia) Hs)
      as [Hn|(op & l & r & -> & Hop & Hl & Hr)].
    - apply (heads_next parseAdditive parseTerm parseAdditive_loop 3 3); side.
    - destruct (Hb _ _ _ eq_refl) as [Cl Cr].
      pose proof (proj1 (binary_level_kind _ _ Hop)) as Hk.
      apply (heads_operator parseAdditive parseTerm parseAdditive_loop
               additive_op BinaryExpression 3 3); side.
      + now apply (h3 _ Cl).
      + now apply (c4 _ Cr). }
  assert (C3 : shape 3 t = true -> returns parseAdditive 3 4 t).
  { intros Hs.
    apply (returns_heads parseAdditive parseTerm parseAdditive_loop
             additive_op BinaryExpression 3 3); side. }
  assert (H2 : shape 2 t = true -> heads2 t).
  { intros Hs.
    destruct (shape_comparison t Hs)
      as [Hn|(op & l & r & -> & Hop & Hl & Hr)].
    - apply (heads_next parseComparison parseAdditive parseComparison_loop 2 4); side.
    - destruct (Hc _ _ _ eq_refl) as [Cl Cr].
      pose proof (comparison_glyph_kind _ Hop) as Hk.
      apply (heads_operator parseComparison parseAdditive parseComparison_loop
               is_comparison_operator ComparisonExpression 2 4); side.
      + now apply (h2 _ Cl).
      + now apply (c3 _ Cr). }
  assert (C2 : shape 2 t = true -> returns parseComparison 2 5 t).
  { intros Hs.
    apply (returns_heads parseComparison parseAdditive parseComparison_loop
             is_comparison_operator ComparisonExpression 2 4); side. }
  assert (C1 : shape 2 t = true -> returns parseAssignment 2 6 t).
  { intros Hs k ts n es rest Hts He Hk.
    destruct k as [|k]; [lia|]. cbn [parseAssignment].
    rewrite (bind_ret _ _ _ _ _ (C2 Hs k ts n es rest Hts He ltac:(lia))).
    destruct t; try reflexivity; try discriminate Hs.
    now rewrite (ends_equals rest _ _ _ (skipn_add _ _ _ _ Hts) He). }
  constructor; auto.
  intros Hs k ts n es rest Hts He Hk.
  destruct k as [|k]; [lia|]. cbn [parseExpression].
  apply (C1 Hs k ts n es rest); auto. lia.
Qed.

Ltac eat H :=
  lazymatch goal with
  | |- context [bind (consume ?e) _ _] =>
    rewrite (bind_ret _ _ _ _ _ (consume_at e _ _ _ _ _ H eq_refl))
  | |- context [bind consume_value _ _] =>
    rewrite (bind_ret _ _ _ _ _ (consume_value_at _ _ _ _ _ H))
  end.

Ltac done_at :=
  unfold ret; cbn [toks app List.length map join]; rewrite ?length_app;
  cbn [List.length]; f_equal; unfold parser_at; f_equal; lia.

Lemma number_primary v : returns parsePrimary 6 1 (NumberLiteral v).
Proof.
  intros k ts n es rest Hts _ Hk. destruct k as [|k]; [lia|].
  cbn [toks app] in Hts. cbn [parsePrimary].
  rewrite peek_at, Hts. cbn [hd_error type number_token value].
  eat Hts. done_at.
Qed.

Lemma identifier_primary v : returns parsePrimary 6 1 (Identifier v).
Proof.
  intros k ts n es rest Hts _ Hk. destruct k as [|k]; [lia|].
  cbn [toks app] in Hts. cbn [parsePrimary].
  rewrite peek_at, Hts. cbn [hd_error type identifier_token value].
  eat Hts. done_at.
Qed.

Lemma sign_kind op :
  streq op (str "+") || streq op (str "-") = true ->
  Fragment.operator_type op = PLUS \/ Fragment.operator_type op = MINUS.
Proof.
  destruct (streq op (str "+")) eqn:E1.
  - apply FragmentFacts.streq_eq in E1. subst. now left.
  - destruct (streq op (str "-")) eqn:E2; [|discriminate].
    apply FragmentFacts.streq_eq in E2. subst. now right.
Qed.

Lemma unary_primary op o :
  shape 6 (UnaryExpression op o) = true ->
  returns parsePrimary 6 1 o ->
  returns parsePrimary 6 1 (UnaryExpression op o).
Proof.
  cbn [shape]. intros Hs Ho k ts n es rest Hts _ Hk.
  apply andb_prop in Hs as [Hop Hso].
  destruct k as [|k]; [lia|].
  cbn [toks app] in Hts, Hk. cbn [parsePrimary].
  rewrite peek_at, Hts. cbn [hd_error type Fragment.operator_token].
  pose proof (skipn_S _ _ _ _ Hts) as Hts1.
  assert (E : (operator <- consume_value ;;
               operand <- parsePrimary k ;;
               ret (UnaryExpression operator operand)) (parser_at ts n es)
              = Return (UnaryExpression op o)
                  (parser_at ts (n + List.length (toks (UnaryExpression op o))) es)).
  { eat Hts. cbn [value Fragment.operator_token].
    rewrite (bind_ret _ _ _ _ _
               (Ho k ts (S n) es rest Hts1 (ends_primary _)
                  ltac:(cbn [List.length] in Hk; lia))).
    done_at. }
  destruct (sign_kind _ Hop) as [-> | ->]; exact E.
Qed.

Lemma first_token t :
  forall level, shape level t = true ->
  exists tok r, toks t = tok :: r /\ starts_primary (type tok) = true.
Proof.
  induction t; intros level Hs; try discriminate Hs; cbn [toks];
    try (eexists _, _; split; [reflexivity|reflexivity]).
  - cbn [shape] in Hs.
    destruct (Fragment.binary_level operator); [|discriminate].
    apply andb_prop in Hs as [Hs _]. apply andb_prop in Hs as [_ Hs].
    destruct (IHt1 _ Hs) as (tok & r & -> & Ht). cbn [app]. eauto.
  - cbn [shape] in Hs. apply andb_prop in Hs as [Hs _].
    destruct (sign_kind _ Hs) as [E|E]; eexists _, _;
      (split; [reflexivity|]); cbn [type Fragment.operator_token];
      now rewrite E.
  - destruct (streq name (str "\frac")); eexists _, _; split; reflexivity.
  - cbn [shape] in Hs. apply andb_prop in Hs as [Hs _].
    apply andb_prop in Hs as [_ Hs].
    destruct (IHt1 _ Hs) as (tok & r & -> & Ht). cbn [app]. eauto.
Qed.

Lemma join_separated sep es :
  forall e, join [sep] (map toks (e :: es)) = toks e ++ separated sep es.
Proof.
  induction es as [|e' es IH]; intros e.
  - cbn. now rewrite app_nil_r.
  - change (join [sep] (map toks (e :: e' :: es)))
      with (toks e ++ [sep] ++ join [sep] (map toks (e' :: es))).
    rewrite IH. reflexivity.
Qed.

Lemma paren_primary e :
  expression_ok e -> returns parsePrimary 6 1 (ParenthesizedExpression e).
Proof.
  intros [Hs He] k ts n es rest Hts _ Hk. destruct k as [|k]; [lia|].
  cbn [toks app] in Hts, Hk. rewrite <- app_assoc in Hts, Hk.
  cbn [app] in Hts, Hk. cbn [parsePrimary].
  rewrite peek_at, Hts. cbn [hd_error type symbol_token].
  pose proof (skipn_S _ _ _ _ Hts) as Hts1.
  pose proof (skipn_add _ _ _ _ Hts1) as Hts2.
  eat Hts.
  rewrite (bind_ret _ _ _ _ _
             (He k ts (S n) es _ Hts1 eq_refl
                ltac:(cbn [List.length] in Hk; lia))).
  eat Hts2. done_at.
Qed.

Lemma commaList_ok es :
  Forall expression_ok es ->
  forall k ts n errs acc rest,
    skipn n ts = separated (symbol_token COMMA ",") es ++ rest ->
    ends 2 rest = true -> not_comma rest = true ->
    8 * List.length (separated (symbol_token COMMA ",") es ++ rest) < k ->
    parseCommaList k acc (parser_at ts n errs)
    = Return (acc ++ es)
        (parser_at ts (n + List.length (separated (symbol_token COMMA ",") es))
           errs).
Proof.
  induction 1 as [|e es [Hs He] _ IH]; intros k ts n errs acc rest Hts Hr Hc Hk;
    (destruct k as [|k]; [lia|]); cbn [parseCommaList].
  - cbn [separated map List.concat app List.length] in *.
    rewrite app_nil_r, Nat.add_0_r.
    destruct rest as [|tok rest].
    + now rewrite (peek_is_end _ _ _ _ Hts).
    + rewrite (peek_is_at _ _ _ _ _ _ Hts). cbn in Hc.
      apply negb_true_iff in Hc. now rewrite Hc.
  - change (separated (symbol_token COMMA ",") (e :: es))
      with (symbol_token COMMA "," :: toks e
              ++ separated (symbol_token COMMA ",") es) in *.
    cbn [app] in Hts, Hk. rewrite <- app_assoc in Hts, Hk.
    rewrite (peek_is_at _ _ _ _ _ _ Hts). cbn [type symbol_token TokenType_eqb].
    pose proof (skipn_S _ _ _ _ Hts) as Hts1.
    pose proof (skipn_add _ _ _ _ Hts1) as Hts2.
    eat Hts.
    assert (Hends : ends 2 (separated (symbol_token COMMA ",") es ++ rest)
                    = true).
    { destruct es; [exact Hr|reflexivity]. }
    rewrite (bind_ret _ _ _ _ _
               (He k ts (S n) errs _ Hts1 Hends
                  ltac:(cbn [List.length] in Hk; lia))).
    rewrite (IH k ts _ errs (acc ++ [e]) rest Hts2 Hr Hc
               ltac:(cbn [List.length] in Hk; rewrite length_app in Hk; lia)).
    rewrite <- app_assoc. cbn [app].
    f_equal. unfold parser_at. f_equal. cbn [List.length]. rewrite length_app. lia.
Qed.

Lemma starts_not t u :
  starts_primary t = true -> starts_primary u = false ->
  TokenType_eqb t u = false.
Proof. destruct t, u; try reflexivity; discriminate. Qed.

(** The elements of a list in brackets or parentheses: the first one and
    the ones behind commas. *)
Lemma elements_ok closer e es :
  expression_ok e -> Forall expression_ok es ->
  starts_primary (type closer) = false ->
  level_of (type closer) = 0 -> TokenType_eqb (type closer) COMMA = false ->
  forall k ts n errs rest,
    skipn n ts
    = join [symbol_token COMMA ","] (map toks (e :: es)) ++ closer :: rest ->
    8 * List.length
          (join [symbol_token COMMA ","] (map toks (e :: es))
           ++ closer :: rest) + 7 < k ->
    peek_is (type closer) (parser_at ts n errs) = false /\
    (a <- parseExpression k ;; parseCommaList k [a]) (parser_at ts n errs)
    = Return (e :: es)
        (parser_at ts (n + List.length
                       (join [symbol_token COMMA ","] (map toks (e :: es))))
           errs).
Proof.
  intros [Hs He] Hes Hc Hl Hcomma k ts n errs rest Hts Hk.
  rewrite join_separated in *. rewrite <- app_assoc in Hts, Hk.
  split.
  - destruct (first_token _ _ Hs) as (tok & r & E & Ht).
    rewrite E in Hts. cbn [app] in Hts.
    rewrite (peek_is_at _ _ _ _ _ _ Hts). now apply starts_not.
  - pose proof (skipn_add _ _ _ _ Hts) as Hts1.
    assert (Hends : ends 2 (separated (symbol_token COMMA ",") es
                             ++ closer :: rest) = true).
    { destruct es; [|reflexivity]. cbn. now rewrite Hl. }
    rewrite (bind_ret _ _ _ _ _ (He k ts n errs _ Hts Hends Hk)).
    rewrite (commaList_ok es Hes k ts _ errs [e] (closer :: rest) Hts1).
    + cbn [app]. f_equal. unfold parser_at. f_equal. rewrite length_app. lia.
    + cbn. now rewrite Hl.
    + cbn. now rewrite Hcomma.
    + rewrite length_app in Hk. lia.
Qed.

Lemma bind_bind {A B C} (m : M A) (f : A -> M B) (g : B -> M C) p b p' :
  bind m f p = Return b p' ->
  bind m (fun a => bind (f a) g) p = g b p'.
Proof.
  unfold bind. destruct (m p); try discriminate. now intros ->.
Qed.

Lemma array_primary es :
  Forall expression_ok es -> returns parsePrimary 6 1 (ArrayExpression es).
Proof.
  intros Hes k ts n errs rest Hts _ Hk. destruct k as [|k]; [lia|].
  cbn [toks app] in Hts, Hk. rewrite <- app_assoc in Hts, Hk.
  cbn [app] in Hts, Hk. cbn [parsePrimary].
  rewrite peek_at, Hts. cbn [hd_error type symbol_token].
  destruct k as [|k]; [cbn [List.length] in Hk; lia|].
  cbn [parseArrayExpression].
  pose proof (skipn_S _ _ _ _ Hts) as Hts1.
  eat Hts.
  destruct Hes as [|e es He Hes].
  - cbn [map join app] in *.
    rewrite (peek_is_at _ _ _ _ _ _ Hts1). cbn [type symbol_token TokenType_eqb].
    eat Hts1. done_at.
  - destruct (elements_ok (symbol_token RBRACKET "]") e es He Hes
                eq_refl eq_refl eq_refl k ts (S n) errs rest Hts1
                ltac:(cbn [List.length] in Hk; lia)) as [E1 E2].
    cbn [type symbol_token] in E1. rewrite E1.
    pose proof (skipn_add _ _ _ _ Hts1) as Hts2.
    rewrite (bind_bind _ _ _ _ _ _ E2).
    eat Hts2. done_at.
Qed.

Lemma call_primary name args :
  streq name (str "\frac") = false ->
  Forall expression_ok args ->
  returns parsePrimary 6 1 (FunctionCall name args).
Proof.
  intros Hname Hes k ts n errs rest Hts _ Hk. destruct k as [|k]; [lia|].
  cbn [toks] in Hts, Hk. rewrite Hname in Hts, Hk.
  cbn [app] in Hts, Hk. rewrite <- app_assoc in Hts, Hk.
  cbn [app] in Hts, Hk. cbn [parsePrimary].
  rewrite peek_at, Hts. cbn [hd_error type command_token value].
  pose proof (skipn_S _ _ _ _ Hts) as Hts1.
  pose proof (skipn_S _ _ _ _ Hts1) as Hts2.
  eat Hts. rewrite Hname.
  rewrite (peek_is_at _ _ _ _ _ _ Hts1). cbn [type symbol_token TokenType_eqb].
  rewrite (peek_is_at _ _ _ _ _ _ Hts1). cbn [type symbol_token TokenType_eqb].
  eat Hts1.
  destruct Hes as [|e es He Hes].
  - cbn [map join app] in *.
    unfold bind at 1.
    rewrite (peek_is_at _ _ _ _ _ _ Hts2). cbn [type symbol_token TokenType_eqb negb].
    unfold ret at 1. eat Hts2. cbn [toks]. rewrite Hname. done_at.
  - destruct (elements_ok (symbol_token RPAREN ")") e es He Hes
                eq_refl eq_refl eq_refl k ts (S (S n)) errs rest Hts2
                ltac:(cbn [List.length] in Hk; lia)) as [E1 E2].
    cbn [type symbol_token] in E1.
    pose proof (skipn_add _ _ _ _ Hts2) as Hts3.
    unfold bind at 1. rewrite E1. cbn [negb]. rewrite E2.
    eat Hts3. cbn [toks]. rewrite Hname. done_at.
Qed.

Ltac flat H :=
  cbn [app map List.concat] in H;
  repeat (rewrite <- app_assoc in H; cbn [app] in H).

Lemma frac_primary name n d :
  streq name (str "\frac") = true ->
  expression_ok n -> expression_ok d ->
  returns parsePrimary 6 1 (FunctionCall name [n; d]).
Proof.
  intros Hname [Hsn Hn] [Hsd Hd] k ts i errs rest Hts _ Hk.
  destruct k as [|k]; [lia|].
  cbn [toks] in Hts, Hk. rewrite Hname in Hts, Hk.
  flat Hts. flat Hk.
  cbn [parsePrimary].
  rewrite peek_at, Hts. cbn [hd_error type command_token value].
  pose proof (skipn_S _ _ _ _ Hts) as Hts1.
  pose proof (skipn_S _ _ _ _ Hts1) as Hts2.
  pose proof (skipn_add _ _ _ _ Hts2) as Hts3.
  pose proof (skipn_S _ _ _ _ Hts3) as Hts4.
  pose proof (skipn_S _ _ _ _ Hts4) as Hts5.
  pose proof (skipn_add _ _ _ _ Hts5) as Hts6.
  eat Hts. rewrite Hname.
  cbn [List.length] in Hk. rewrite !length_app in Hk. cbn [List.length] in Hk.
  rewrite !length_app in Hk. cbn [List.length] in Hk.
  destruct k as [|k]; [lia|].
  cbn [parseFracCommand].
  rewrite (peek_is_at _ _ _ _ _ _ Hts1). cbn [type symbol_token TokenType_eqb].
  eat Hts1.
  rewrite (bind_ret _ _ _ _ _
             (Hn k ts _ errs _ Hts2 eq_refl
                ltac:(rewrite !length_app; cbn [List.length];
                      rewrite !length_app; cbn [List.length]; lia))).
  eat Hts3.
  rewrite (peek_is_at _ _ _ _ _ _ Hts4). cbn [type symbol_token TokenType_eqb].
  eat Hts4.
  rewrite (bind_ret _ _ _ _ _
             (Hd k ts _ errs _ Hts5 eq_refl
                ltac:(rewrite !length_app; cbn [List.length]; lia))).
  eat Hts6.
  apply FragmentFacts.streq_eq in Hname. subst name.
  unfold ret. cbn [toks]. change (streq (str "\frac") (str "\frac")) with true.
  cbv iota. cbn [map List.concat app List.length]. rewrite !length_app.
  cbn [List.length]. rewrite !length_app. cbn [List.length].
  f_equal. unfold parser_at. f_equal. lia.
Qed.

(** *** Matrices *)

Lemma cells_tokens_app a b :
  cells_tokens (a ++ b) = cells_tokens a ++ cells_tokens b.
Proof. unfold cells_tokens. now rewrite map_app, concat_app. Qed.

Lemma rows_ok more :
  Forall (fun sc => expression_ok (snd sc)) more ->
  forall k ts n errs rows row rest,
    skipn n ts = cells_tokens more ++ symbol_token RBRACE "}" :: rest ->
    8 * List.length (cells_tokens more ++ symbol_token RBRACE "}" :: rest)
    < k ->
    parseMatrixRows k rows row (parser_at ts n errs)
    = Return (fold_left add_cell more (rows, row))
        (parser_at ts (n + List.length (cells_tokens more)) errs).
Proof.
  induction 1 as [|[s e] more [Hs He] _ IH];
    intros k ts n errs rows row rest Hts Hk;
    (destruct k as [|k]; [lia|]); cbn [parseMatrixRows].
  - cbn [cells_tokens map List.concat app List.length fold_left] in *.
    rewrite peek_at, Hts. cbn [hd_error type symbol_token].
    unfold ret. f_equal. unfold parser_at. f_equal. lia.
  - change (cells_tokens ((s, e) :: more))
      with (separator s :: toks e ++ cells_tokens more) in *.
    cbn [app] in Hts, Hk. rewrite <- app_assoc in Hts, Hk.
    pose proof (skipn_S _ _ _ _ Hts) as Hts1.
    pose proof (skipn_add _ _ _ _ Hts1) as Hts2.
    assert (Hends : ends 2 (cells_tokens more
                             ++ symbol_token RBRACE "}" :: rest) = true).
    { destruct more as [|[[|] e'] more]; reflexivity. }
    cbn [List.length] in Hk. rewrite length_app in Hk.
    rewrite peek_at, Hts. cbn [hd_error fold_left].
    assert (Hk1 : 8 * List.length
                        (toks e ++ cells_tokens more
                         ++ symbol_token RBRACE "}" :: rest) + 7 < k)
      by (rewrite length_app; lia).
    assert (Hk2 : 8 * List.length
                        (cells_tokens more
                         ++ symbol_token RBRACE "}" :: rest) < k) by lia.
    destruct s; cbn [separator type symbol_token]; eat Hts;
      rewrite (bind_ret _ _ _ _ _ (He k ts (S n) errs _ Hts1 Hends Hk1));
      rewrite (IH k ts _ errs _ _ rest Hts2 Hk2);
      cbn [add_cell fst snd]; f_equal; unfold parser_at; f_equal;
      cbn [List.length]; rewrite length_app; lia.
Qed.

Lemma fold_commas cs :
  forall rows row,
    fold_left add_cell (map (pair false) cs) (rows, row) = (rows, row ++ cs).
Proof.
  induction cs as [|c cs IH]; intros rows row; cbn [map fold_left].
  - now rewrite app_nil_r.
  - cbn [add_cell fst snd]. rewrite IH, <- app_assoc. reflexivity.
Qed.

Lemma fold_rows rs :
  forallb (fun row => negb (is_nil row)) rs = true ->
  forall rows row,
    row <> [] ->
    let rc := fold_left add_cell (matrix_cells rs) (rows, row) in
    fst rc ++ [snd rc] = rows ++ row :: rs /\ snd rc <> [].
Proof.
  induction rs as [|r rs IH]; intros Hne rows row Hrow.
  - cbn. auto.
  - cbn [forallb] in Hne. apply andb_prop in Hne as [Hr Hrs].
    destruct r as [|c cs]; [discriminate|].
    unfold matrix_cells. cbn [map List.concat row_cells].
    cbn [app fold_left add_cell fst snd].
    rewrite fold_left_app, fold_commas.
    destruct (IH Hrs (rows ++ [row]) ([c] ++ cs) ltac:(discriminate))
      as [E1 E2].
    unfold matrix_cells in E1, E2. cbn zeta in E1, E2.
    split; [|exact E2]. rewrite E1, <- app_assoc. reflexivity.
Qed.

Lemma join_concat {A} (sep : A) xs :
  forall x : list A,
    join [sep] (x :: xs) = x ++ List.concat (map (fun y => sep :: y) xs).
Proof.
  induction xs as [|y xs IH]; intros x.
  - cbn. now rewrite app_nil_r.
  - change (join [sep] (x :: y :: xs)) with (x ++ [sep] ++ join [sep] (y :: xs)).
    rewrite IH. reflexivity.
Qed.

Lemma cells_commas cs :
  cells_tokens (map (pair false) cs) = separated (symbol_token COMMA ",") cs.
Proof.
  unfold cells_tokens, separated. rewrite map_map. reflexivity.
Qed.

Lemma cells_rows rs :
  forallb (fun row => negb (is_nil row)) rs = true ->
  List.concat (map (fun y => symbol_token SEMICOLON ";" :: y)
                 (map row_tokens rs))
  = cells_tokens (matrix_cells rs).
Proof.
  induction rs as [|r rs IH]; intros Hne; [reflexivity|].
  cbn [forallb] in Hne. apply andb_prop in Hne as [Hr Hrs].
  destruct r as [|c cs]; [discriminate|].
  unfold matrix_cells. cbn [map List.concat row_cells].
  rewrite cells_tokens_app.
  change (cells_tokens ((true, c) :: map (pair false) cs))
    with (symbol_token SEMICOLON ";" :: toks c
            ++ cells_tokens (map (pair false) cs)).
  change (List.concat (map row_cells rs)) with (matrix_cells rs).
  rewrite cells_commas, <- IH by exact Hrs.
  unfold row_tokens at 1. rewrite join_separated. reflexivity.
Qed.

Lemma matrix_tokens c cs rs :
  forallb (fun row => negb (is_nil row)) rs = true ->
  join [symbol_token SEMICOLON ";"]
    (map (fun row => join [symbol_token COMMA ","] (map toks row))
       ((c :: cs) :: rs))
  = toks c ++ cells_tokens (map (pair false) cs ++ matrix_cells rs).
Proof.
  intros Hne.
  change (map (fun row => join [symbol_token COMMA ","] (map toks row))
            ((c :: cs) :: rs))
    with (row_tokens (c :: cs) :: map row_tokens rs).
  rewrite join_concat, (cells_rows _ Hne), cells_tokens_app, cells_commas.
  unfold row_tokens. rewrite join_separated, <- app_assoc. reflexivity.
Qed.

Lemma matrix_cells_ok rs :
  Forall (Forall expression_ok) rs ->
  Forall (fun sc => expression_ok (snd sc)) (matrix_cells rs).
Proof.
  induction 1 as [|r rs Hr _ IH]; [constructor|].
  unfold matrix_cells. cbn [map List.concat]. apply Forall_app. split; auto.
  destruct Hr as [|c cs Hc Hcs]; [constructor|].
  constructor; [exact Hc|]. apply Forall_map.
  eapply Forall_impl; [|exact Hcs]. auto.
Qed.

Lemma matrix_primary rows :
  Forall (Forall expression_ok) rows ->
  forallb (fun row => negb (is_nil row)) rows = true ->
  returns parsePrimary 6 1 (MatrixExpression rows).
Proof.
  intros Hes Hne k ts n errs rest Hts _ Hk. destruct k as [|k]; [lia|].
  cbn [toks] in Hts, Hk. cbn [parsePrimary].
  destruct Hes as [|r rs Hr Hrs].
  - flat Hts. flat Hk. cbn [join] in Hts, Hk. cbn [app] in Hts, Hk.
    rewrite peek_at, Hts. cbn [hd_error type symbol_token].
    destruct k as [|k]; [cbn [List.length] in Hk; lia|].
    cbn [parseMatrixExpression].
    pose proof (skipn_S _ _ _ _ Hts) as Hts1.
    eat Hts.
    rewrite (peek_is_at _ _ _ _ _ _ Hts1). cbn [type symbol_token TokenType_eqb].
    eat Hts1. done_at.
  - cbn [forallb] in Hne. apply andb_prop in Hne as [Hr0 Hne].
    destruct Hr as [|c cs [Hsc Hc] Hcs]; [discriminate|].
    pose proof (matrix_tokens c cs rs Hne) as Ej.
    set (more := map (pair false) cs ++ matrix_cells rs) in *.
    rewrite Ej in Hts, Hk. flat Hts. flat Hk.
    rewrite peek_at, Hts. cbn [hd_error type symbol_token].
    cbn [List.length] in Hk. rewrite length_app in Hk.
    destruct k as [|k]; [lia|].
    cbn [parseMatrixExpression].
    pose proof (skipn_S _ _ _ _ Hts) as Hts1.
    pose proof (skipn_add _ _ _ _ Hts1) as Hts2.
    eat Hts.
    destruct (first_token _ _ Hsc) as (tok & r & E & Ht).
    assert (Hp : peek_is RBRACE (parser_at ts (S n) errs) = false).
    { assert (Hh : skipn (S n) ts
                   = tok :: r ++ cells_tokens more
                     ++ symbol_token RBRACE "}" :: rest).
      { rewrite Hts1, E. reflexivity. }
      rewrite (peek_is_at _ _ _ _ _ _ Hh). now apply starts_not. }
    rewrite Hp.
    assert (Hmore : Forall (fun sc => expression_ok (snd sc)) more).
    { apply Forall_app. split; [|now apply matrix_cells_ok].
      apply Forall_map. eapply Forall_impl; [|exact Hcs]. auto. }
    assert (Hends : ends 2 (cells_tokens more
                             ++ symbol_token RBRACE "}" :: rest) = true).
    { destruct more as [|[[|] e'] more']; reflexivity. }
    assert (Hk1 : 8 * List.length
                        (toks c ++ cells_tokens more
                         ++ symbol_token RBRACE "}" :: rest) + 7 < k)
      by (rewrite length_app; lia).
    assert (Hk2 : 8 * List.length
                        (cells_tokens more
                         ++ symbol_token RBRACE "}" :: rest) < k) by lia.
    rewrite (bind_ret _ _ _ _ _ (Hc k ts (S n) errs _ Hts1 Hends Hk1)).
    rewrite (bind_ret _ _ _ _ _
               (rows_ok more Hmore k ts _ errs [] [c] rest Hts2 Hk2)).
    pose proof (skipn_add _ _ _ _ Hts2) as Hts3.
    assert (Hf : let rc := fold_left add_cell more ([], [c]) in
                 fst rc ++ [snd rc] = (c :: cs) :: rs /\ snd rc <> []).
    { unfold more. rewrite fold_left_app, fold_commas.
      apply (fold_rows rs Hne [] ([c] ++ cs)). discriminate. }
    destruct (fold_left add_cell more ([], [c])) as [rows' last].
    cbn [fst snd] in Hf. destruct Hf as [E1 E2].
    destruct last as [|x last]; [congruence|].
    cbn [fst snd List.length Nat.ltb Nat.leb].
    eat Hts3. rewrite E1. unfold ret. cbn [app toks].
    rewrite Ej. fold more.
    f_equal. unfold parser_at. f_equal.
    cbn [List.length]. rewrite !length_app. cbn [List.length]. lia.
Qed.

Lemma expressions_ok es :
  Forall complete es -> forallb (shape 2) es = true ->
  Forall expression_ok es.
Proof.
  induction 1 as [|e es He _ IH]; cbn [forallb]; intros Hs; constructor.
  - apply andb_prop in Hs as [Hs _]. split; [exact Hs|now apply (c0 _ He)].
  - apply andb_prop in Hs as [_ Hs]. auto.
Qed.

Lemma rows_expressions_ok rows :
  Forall (Forall complete) rows ->
  forallb (fun row => negb (is_nil row) && forallb (shape 2) row) rows = true ->
  Forall (Forall expression_ok) rows /\
  forallb (fun row => negb (is_nil row)) rows = true.
Proof.
  induction 1 as [|r rows Hr _ IH]; cbn [forallb]; intros Hs.
  - split; [constructor|reflexivity].
  - apply andb_prop in Hs as [Hs Hrest]. apply andb_prop in Hs as [Hn Hs].
    destruct (IH Hrest) as [IH1 IH2]. rewrite Hn, IH2. split; auto.
    constructor; auto. now apply expressions_ok.
Qed.

Ltac operands :=
  let E := fresh "E" in
  intros ? ? ? E; try discriminate E; injection E as <- <- <-; auto.

Theorem parser_complete t : complete t.
Proof.
  induction t using Node_induction; apply ladder; try operands.
  - discriminate.
  - intros _. apply number_primary.
  - intros _. apply identifier_primary.
  - cbn [shape]. intros Hs. exfalso.
    destruct (Fragment.binary_level op) as [m|] eqn:E; [|discriminate].
    destruct (binary_level_kind _ _ E) as [_ Hm].
    apply andb_prop in Hs as [Hs _]. apply andb_prop in Hs as [Hs _].
    apply Nat.leb_le in Hs. lia.
  - intros Hs. apply unary_primary; [exact Hs|].
    cbn [shape] in Hs. apply andb_prop in Hs as [_ Hs]. now apply (c6 _ IHt).
  - cbn [shape]. intros Hs.
    destruct (streq name (str "\frac")) eqn:En.
    + destruct args as [|n [|d [|x args]]]; try discriminate.
      apply andb_prop in Hs as [Hn Hd].
      inversion H as [|? ? Cn H1]; subst. inversion H1 as [|? ? Cd _]; subst.
      apply frac_primary; [exact En| |]; split; auto using c0.
    + apply call_primary; [exact En|]. now apply expressions_ok.
  - cbn [shape]. intros Hs. apply array_primary. now apply expressions_ok.
  - cbn [shape]. intros Hs.
    destruct (rows_expressions_ok _ H Hs) as [H1 H2].
    now apply matrix_primary.
  - cbn [shape]. intros Hs. exfalso.
    apply andb_prop in Hs as [Hs _]. apply andb_prop in Hs as [Hs _].
    apply andb_prop in Hs as [Hs _]. discriminate.
  - discriminate.
  - cbn [shape]. intros Hs. apply paren_primary. split; [exact Hs|].
    now apply (c0 _ IHt).
Qed.

Theorem parse_toks t : shape 2 t = true -> parse (toks t) = Ok t.
Proof.
  intros Hs. unfold parse, run.
  pose proof (c0 _ (parser_complete t) Hs (fuel_for (toks t)) (toks t) 0 []
                [] ltac:(now rewrite app_nil_r) eq_refl
                ltac:(unfold fuel_for; rewrite app_nil_r; lia)) as E.
  change (new (toks t)) with (parser_at (toks t) 0 []). rewrite E.
  cbn [parser_at position tokens errors Nat.add List.length].
  rewrite Nat.ltb_irrefl. reflexivity.
Qed.

End GrammarFacts.

(* ================================================================== *)
(** ** Writing a tree and reading it back                              *)
(* ================================================================== *)

Module RoundTrip.
Import Lexer Parser ParserLogic LexText.

(** A tree of the fragment is a tree of the grammar, with the same
    tokens. *)
Lemma fragment_grammar t :
  forall level,
    Fragment.shape level t = true ->
    Grammar.shape level t = true /\ Grammar.toks t = Fragment.toks t.
Proof.
  induction t using Node_induction; intros level Hs;
    try discriminate Hs; cbn [Fragment.shape] in Hs;
    cbn [Grammar.shape Grammar.toks Fragment.toks].
  - auto.
  - auto.
  - destruct (Fragment.binary_level op) as [m|]; [|discriminate].
    apply andb_prop in Hs as [Hs Hr]. apply andb_prop in Hs as [Hm Hl].
    destruct (IHt1 _ Hl) as [-> ->]. destruct (IHt2 _ Hr) as [-> ->].
    now rewrite Hm.
  - apply andb_prop in Hs as [Hop Ho].
    destruct (IHt _ Ho) as [-> ->]. now rewrite Hop.
  - assert (Hall : forallb (Grammar.shape 2) es = true /\
                   map Grammar.toks es = map Fragment.toks es).
    { induction H as [|e es He _ IH]; [auto|].
      cbn [forallb map] in *. apply andb_prop in Hs as [H1 H2].
      destruct (He _ H1) as [-> ->]. destruct (IH H2) as [-> ->]. auto. }
    destruct Hall as [-> ->]. auto.
  - apply andb_prop in Hs as [Hs Hr]. apply andb_prop in Hs as [Hs Hl].
    destruct (IHt1 _ Hl) as [-> ->]. destruct (IHt2 _ Hr) as [-> ->].
    now rewrite Hs.
  - destruct (IHt _ Hs) as [-> ->]. auto.
Qed.

(** A tree of the fragment is read back from what [astToString] writes
    for it. *)
Lemma render_parse t :
  Fragment.shape 2 t = true ->
  lex_parse (Render.astToString t) = Some (Ok t).
Proof.
  intros Hs. unfold lex_parse.
  rewrite (FragmentFacts.lex_astToString _ Hs). cbn [option_map].
  destruct (fragment_grammar _ _ Hs) as [Hg <-].
  now rewrite (GrammarFacts.parse_toks _ Hg).
Qed.

Lemma shape_evaluator t :
  forall level, Fragment.shape level t = true -> Fragment.evaluator_syntax t = false.
Proof.
  induction t using Node_induction; intros level Hs;
    try discriminate Hs; cbn [Fragment.shape] in Hs;
    cbn [Fragment.evaluator_syntax]; auto.
  - apply andb_prop in Hs as [_ Hs]. now apply negb_true_iff in Hs.
  - destruct (Fragment.binary_level op) as [m|]; [|discriminate].
    apply andb_prop in Hs as [Hs Hr]. apply andb_prop in Hs as [Hm Hl].
    now rewrite (IHt1 _ Hl), (IHt2 _ Hr).
  - apply andb_prop in Hs as [Hop Ho]. eauto.
  - induction H as [|e es He _ IH]; [auto|].
    cbn [forallb existsb] in *. apply andb_prop in Hs as [H1 H2].
    now rewrite (He _ H1), (IH H2).
  - apply andb_prop in Hs as [Hs Hr]. apply andb_prop in Hs as [Hs Hl].
    now rewrite (IHt1 _ Hl), (IHt2 _ Hr).
  - eauto.
Qed.

Lemma text_of_app a b : text_of (a ++ b) = text_of a ++ text_of b.
Proof. unfold text_of. now rewrite map_app, concat_app. Qed.

Lemma text_of_join sep (ls : list (list Token)) :
  text_of (join [sep] ls) = join (value sep) (map text_of ls).
Proof.
  induction ls as [|l ls IH]; [reflexivity|].
  destruct ls as [|l' ls]; [reflexivity|].
  change (join [sep] (l :: l' :: ls)) with (l ++ [sep] ++ join [sep] (l' :: ls)).
  change (join (value sep) (map text_of (l :: l' :: ls)))
    with (text_of l ++ value sep ++ join (value sep) (map text_of (l' :: ls))).
  rewrite !text_of_app, IH. unfold text_of at 2. cbn [map List.concat].
  now rewrite app_nil_r.
Qed.

(** [astToString] writes a tree of the fragment as the texts of its
    tokens, one after the other: it adds no parentheses and drops
    none. *)
Lemma astToString_text t :
  forall level,
    Fragment.shape level t = true ->
    Render.astToString t = text_of (Fragment.toks t).
Proof.
  induction t using Node_induction; intros level Hs;
    try discriminate Hs.
  - cbn. now rewrite app_nil_r.
  - cbn [Fragment.shape] in Hs. apply andb_prop in Hs as [Hv Hpi].
    apply negb_true_iff in Hpi.
    cbn [Render.astToString Fragment.toks].
    rewrite (FragmentFacts.astToString_identifier _ Hv Hpi).
    cbn. now rewrite app_nil_r.
  - rewrite (FragmentFacts.astToString_binary _ _ _ _ Hs).
    cbn [Fragment.shape] in Hs.
    destruct (Fragment.binary_level op) as [m|]; [|discriminate].
    apply andb_prop in Hs as [Hs Hr]. apply andb_prop in Hs as [Hm Hl].
    cbn [Fragment.toks]. rewrite text_of_app.
    change (Fragment.operator_token op :: Fragment.toks t2)
      with ([Fragment.operator_token op] ++ Fragment.toks t2).
    rewrite text_of_app, <- (IHt1 _ Hl), <- (IHt2 _ Hr).
    cbn. now rewrite app_nil_r.
  - cbn [Fragment.shape] in Hs. apply andb_prop in Hs as [Hop Ho].
    rewrite (FragmentFacts.astToString_unary _ _ Ho).
    cbn [Fragment.toks].
    change (Fragment.operator_token op :: Fragment.toks t)
      with ([Fragment.operator_token op] ++ Fragment.toks t).
    rewrite text_of_app, <- (IHt _ Ho). cbn. now rewrite app_nil_r.
  - cbn [Fragment.shape] in Hs. cbn [Render.astToString Fragment.toks].
    change (symbol_token LBRACKET "["
              :: join [symbol_token COMMA ","] (map Fragment.toks es)
              ++ [symbol_token RBRACKET "]"])
      with ([symbol_token LBRACKET "["]
              ++ join [symbol_token COMMA ","] (map Fragment.toks es)
              ++ [symbol_token RBRACKET "]"]).
    rewrite !text_of_app, text_of_join, map_map.
    assert (Hm : map Render.astToString es
                 = map (fun x => text_of (Fragment.toks x)) es).
    { induction H as [|e es He _ IH]; [reflexivity|].
      cbn [forallb map] in *. apply andb_prop in Hs as [H1 H2].
      now rewrite (He _ H1), (IH H2). }
    rewrite Hm. reflexivity.
  - cbn [Fragment.shape] in Hs.
    apply andb_prop in Hs as [Hs Hr]. apply andb_prop in Hs as [Hs Hl].
    cbn [Render.astToString Fragment.toks]. rewrite text_of_app.
    change (Fragment.operator_token op :: Fragment.toks t2)
      with ([Fragment.operator_token op] ++ Fragment.toks t2).
    rewrite text_of_app, <- (IHt1 _ Hl), <- (IHt2 _ Hr).
    cbn. now rewrite app_nil_r.
  - cbn [Fragment.shape] in Hs. cbn [Render.astToString Fragment.toks].
    change (symbol_token LPAREN "(" :: Fragment.toks t
              ++ [symbol_token RPAREN ")"])
      with ([symbol_token LPAREN "("] ++ Fragment.toks t
              ++ [symbol_token RPAREN ")"]).
    rewrite !text_of_app, <- (IHt _ Hs). reflexivity.
Qed.

(** For an accepted input whose tree is of the fragment, [astToString]
    writes the input back without its white space. *)
Lemma render_visible s ast :
  lex_parse s = Some (Ok ast) -> Fragment.evaluator_syntax ast = false ->
  Render.astToString ast = visible s.
Proof.
  unfold lex_parse. intros Hs Hev.
  destruct (lex s) as [ts|] eqn:Hlex; [|discriminate].
  cbn [option_map] in Hs. injection Hs as Hp.
  pose proof (LexerFacts.lex_inv _ _ Hlex) as HL.
  pose proof (FragmentFacts.Lexes_canonical _ _ HL) as Hc.
  destruct (FragmentParser.parse_fragment ts ast Hc Hp Hev) as [Ht Hshape].
  rewrite (astToString_text _ _ Hshape), Ht.
  now apply LexerMore.Lexes_text.
Qed.

End RoundTrip.

(* ================================================================== *)
(** ** From the text in the editor to the tree                         *)
(* ================================================================== *)

Module Pipeline.
Import Lexer Parser ParserLogic LexText CalcScript.

(** *** Texts of digits and of letters *)

Lemma digits_number ds :
  ds <> [] -> forallb is_digit ds = true -> Fragment.number_text ds = true.
Proof.
  destruct ds as [|c ds]; [congruence|]. intros _ H.
  unfold Fragment.number_text.
  cbn [forallb] in H. apply andb_prop in H as [Hc Hds]. rewrite Hc.
  cbn [orb andb].
  assert (Hs : forall hasDot s,
             forallb is_digit s = true ->
             snd (LexSpec.span_number hasDot s) = []).
  { intros hasDot s. revert hasDot.
    induction s as [|x s IH]; intros hasDot Hx; [reflexivity|].
    cbn [forallb] in Hx. apply andb_prop in Hx as [Hx Hs].
    cbn [LexSpec.span_number]. rewrite Hx. cbn [orb].
    specialize (IH (if (x =? 46)%N then true else hasDot) Hs).
    destruct (LexSpec.span_number _ s). exact IH. }
  rewrite (Hs false (c :: ds)); [reflexivity|].
  cbn [forallb]. now rewrite Hc.
Qed.

Lemma letter_facts c :
  is_letter c = true ->
  is_identifier_start c = true /\ is_identifier_part c = true /\
  is_digit c = false /\ (c =? 960)%N = false /\
  is_letter_or_backslash c = true.
Proof.
  intros H. unfold is_identifier_start, is_identifier_part,
    is_letter_or_backslash. rewrite H. cbn [orb].
  repeat split; FragmentFacts.classes.
Qed.

Lemma letters_identifier name :
  name <> [] -> forallb is_letter name = true ->
  Fragment.identifier_text name = true /\ streq name (str "π") = false.
Proof.
  destruct name as [|c name]; [congruence|]. intros _ H.
  cbn [forallb] in H. apply andb_prop in H as [Hc Hn].
  destruct (letter_facts _ Hc) as (H1 & H2 & _ & H4 & _).
  split.
  - unfold Fragment.identifier_text. rewrite H1. cbn [forallb andb].
    rewrite H2. cbn [andb].
    induction name as [|x name IH]; [reflexivity|].
    cbn [forallb] in *. apply andb_prop in Hn as [Hx Hn].
    destruct (letter_facts _ Hx) as (_ & -> & _). auto.
  - cbn. now rewrite H4.
Qed.

Lemma no_digit_same s :
  forallb (fun c => negb (is_digit c)) s = true -> fixedInput s = s.
Proof.
  intros H. apply CalcFacts.fixedInput_same.
  induction s as [|c s IH]; [reflexivity|].
  cbn [forallb] in H. apply andb_prop in H as [Hc Hs].
  rewrite CalcFacts.juxtaposed_cons, (IH Hs).
  apply negb_true_iff in Hc. rewrite Hc. now destruct (hd_error s).
Qed.

Lemma no_letter_same s :
  forallb (fun c => negb (is_letter_or_backslash c)) s = true ->
  fixedInput s = s.
Proof.
  intros H. apply CalcFacts.fixedInput_same.
  induction s as [|c s IH]; [reflexivity|].
  cbn [forallb] in H. apply andb_prop in H as [Hc Hs].
  rewrite CalcFacts.juxtaposed_cons, (IH Hs).
  destruct s as [|d s]; [reflexivity|]. cbn [hd_error forallb] in *.
  apply andb_prop in Hs as [Hd _]. apply negb_true_iff in Hd.
  now rewrite Hd, andb_false_r.
Qed.

Lemma letters_no_digit s :
  forallb is_letter s = true ->
  forallb (fun c => negb (is_digit c)) s = true.
Proof.
  induction s as [|c s IH]; [reflexivity|]. cbn [forallb]. intros H.
  apply andb_prop in H as [Hc Hs].
  destruct (letter_facts _ Hc) as (_ & _ & -> & _). cbn. auto.
Qed.

Lemma digits_no_letter s :
  forallb is_digit s = true ->
  forallb (fun c => negb (is_letter_or_backslash c)) s = true.
Proof.
  induction s as [|c s IH]; [reflexivity|]. cbn [forallb]. intros H.
  apply andb_prop in H as [Hc Hs]. rewrite (IH Hs), andb_true_r.
  apply negb_true_iff. unfold is_letter_or_backslash.
  FragmentFacts.classes.
Qed.

Lemma seam_star (a b : jsstring) d c :
  is_digit d = true -> is_letter_or_backslash c = true ->
  seam (a ++ [d]) (c :: b) = [42%N].
Proof.
  intros Hd Hc. unfold seam. rewrite rev_app_distr. cbn. now rewrite Hd, Hc.
Qed.

Lemma fixedInput_digits_letters (a b : jsstring) d c :
  fixedInput (a ++ [d]) = a ++ [d] -> fixedInput (c :: b) = c :: b ->
  is_digit d = true -> is_letter_or_backslash c = true ->
  fixedInput ((a ++ [d]) ++ c :: b) = (a ++ [d]) ++ str "*" ++ c :: b.
Proof.
  intros Ha Hb Hd Hc.
  now rewrite CalcFacts.fixedInput_app, Ha, Hb, (seam_star _ _ _ _ Hd Hc).
Qed.

Lemma product_shape x y :
  Fragment.shape 4 x = true -> Fragment.shape 5 y = true ->
  Fragment.shape 2 (BinaryExpression (str "*") x y) = true.
Proof. intros Hx Hy. cbn [Fragment.shape]. cbn. now rewrite Hx, Hy. Qed.

Lemma product_text x y :
  Fragment.shape 4 x = true -> Fragment.shape 5 y = true ->
  Render.astToString (BinaryExpression (str "*") x y)
  = Render.astToString x ++ str "*" ++ Render.astToString y.
Proof.
  intros Hx Hy.
  apply (FragmentFacts.astToString_binary 2). now apply product_shape.
Qed.

(** The product that the fixed input spells. *)
Lemma product_parsed x y s :
  Fragment.shape 4 x = true -> Fragment.shape 5 y = true ->
  fixedInput s = Render.astToString x ++ str "*" ++ Render.astToString y ->
  parsedInput s = Some (Ok (BinaryExpression (str "*") x y)).
Proof.
  intros Hx Hy Hs. unfold parsedInput.
  rewrite Hs, <- (product_text _ _ Hx Hy).
  apply RoundTrip.render_parse. now apply product_shape.
Qed.

Lemma span_number_digits ds :
  forallb is_digit ds = true ->
  forall hasDot rest,
    match rest with
    | [] => True
    | c :: _ => is_digit c = false /\ (c =? 46)%N = false
    end ->
    LexSpec.span_number hasDot (ds ++ rest) = (ds, rest).
Proof.
  induction ds as [|x ds IH]; intros H hasDot rest Hr.
  - destruct rest as [|c rest]; [reflexivity|]. destruct Hr as [H1 H2].
    cbn. now rewrite H1, H2.
  - cbn [forallb] in H. apply andb_prop in H as [Hx Hds].
    cbn [app LexSpec.span_number]. rewrite Hx. cbn [orb].
    now rewrite (IH Hds _ rest Hr).
Qed.

Lemma next_token_digits ds rest :
  ds <> [] -> forallb is_digit ds = true ->
  match rest with
  | [] => True
  | c :: _ => is_digit c = false /\ (c =? 46)%N = false
  end ->
  LexSpec.next_token (ds ++ rest) = Some (number_token ds, rest).
Proof.
  destruct ds as [|x ds]; [congruence|]. intros _ H Hr.
  pose proof (span_number_digits _ H false rest Hr) as Hs.
  cbn [forallb] in H. apply andb_prop in H as [Hx Hds].
  unfold LexSpec.next_token. cbn [app LexSpec.drop_whitespace].
  rewrite (FragmentFacts.digit_not_whitespace _ Hx), Hx. cbn [orb].
  change (x :: ds ++ rest) with ((x :: ds) ++ rest). now rewrite Hs.
Qed.

Lemma number_identifier_rejected a b :
  parse [number_token a; identifier_token b]
  = ThrowError
      (str "解析が完了しましたが、未処理のトークンが残っています: " ++ b
       ++ str " トークン: " ++ b ++ str " (Identifier)").
Proof. cbv -[str app]. rewrite <- app_assoc. reflexivity. Qed.

Lemma implicit_product_gen ds name :
  ds <> [] -> forallb is_digit ds = true ->
  name <> [] -> forallb is_letter name = true ->
  fixedInput (ds ++ name) = ds ++ str "*" ++ name /\
  parsedInput (ds ++ name)
  = Some (Ok (BinaryExpression (str "*") (NumberLiteral ds)
                (Identifier name))) /\
  lex_parse (ds ++ name)
  = Some (ThrowError
            (str "解析が完了しましたが、未処理のトークンが残っています: " ++ name
             ++ str " トークン: " ++ name ++ str " (Identifier)")).
Proof.
  intros Hds Hd Hname Hl.
  pose proof (digits_number _ Hds Hd) as Hnum.
  destruct (letters_identifier _ Hname Hl) as [Hid Hpi].
  assert (Hfix : fixedInput (ds ++ name) = ds ++ str "*" ++ name).
  { pose proof (no_letter_same _ (digits_no_letter _ Hd)) as Ha.
    pose proof (no_digit_same _ (letters_no_digit _ Hl)) as Hb.
    destruct (exists_last Hds) as (a & d & ->).
    destruct name as [|c b]; [congruence|].
    apply fixedInput_digits_letters; auto.
    - rewrite forallb_app in Hd. apply andb_prop in Hd as [_ Hd].
      cbn in Hd. now rewrite andb_true_r in Hd.
    - cbn [forallb] in Hl. apply andb_prop in Hl as [Hc _].
      now destruct (letter_facts _ Hc) as (_ & _ & _ & _ & ->). }
  split; [exact Hfix|]. split.
  - apply product_parsed.
    + exact Hnum.
    + cbn [Fragment.shape]. now rewrite Hid, Hpi.
    + cbn [Render.astToString].
      now rewrite (FragmentFacts.astToString_identifier _ Hid Hpi).
  - unfold lex_parse.
    assert (Hlex : lex (ds ++ name)
                   = Some [number_token ds; identifier_token name]);
      [|rewrite Hlex; cbn [option_map];
        now rewrite number_identifier_rejected].
    apply LexerFacts.lex_Lexes.
    destruct name as [|c b]; [congruence|].
    eapply LexSpec.Lexes_token.
    + apply next_token_digits; auto.
      cbn [forallb] in Hl. apply andb_prop in Hl as [Hc _].
      destruct (letter_facts _ Hc) as (_ & _ & -> & _). split; auto.
      FragmentFacts.classes.
    + eapply LexSpec.Lexes_token.
      * rewrite <- (app_nil_r (c :: b)) at 1.
        now apply FragmentFacts.next_token_identifier.
      * now apply LexSpec.Lexes_end.
Qed.

(** An identifier with a digit in front of a letter inside is read as
    one token, but the fixed input splits it at the digit. *)
Lemma identifier_split_gen a d b :
  a <> [] -> forallb is_letter a = true -> is_digit d = true ->
  b <> [] -> forallb is_letter b = true ->
  lex (a ++ d :: b) = Some [identifier_token (a ++ d :: b)] /\
  fixedInput (a ++ d :: b) = a ++ d :: str "*" ++ b /\
  parsedInput (a ++ d :: b)
  = Some (Ok (BinaryExpression (str "*") (Identifier (a ++ [d]))
                (Identifier b))).
Proof.
  intros Ha Hla Hd Hb Hlb.
  destruct (letters_identifier _ Hb Hlb) as [Hidb Hpib].
  assert (Hpart : forall s, forallb is_letter s = true ->
                            forallb is_identifier_part s = true).
  { induction s as [|x s IH]; [reflexivity|]. cbn [forallb]. intros H.
    apply andb_prop in H as [Hx Hs].
    destruct (letter_facts _ Hx) as (_ & -> & _). auto. }
  assert (Hdp : is_identifier_part d = true).
  { unfold is_identifier_part. rewrite Hd. now rewrite !orb_true_r. }
  assert (Hstart : forall r, Fragment.identifier_text (a ++ r)
                             = forallb is_identifier_part (a ++ r)).
  { intros r. destruct a as [|x a]; [congruence|].
    cbn [forallb] in Hla. apply andb_prop in Hla as [Hx _].
    destruct (letter_facts _ Hx) as (H1 & _).
    cbn [app Fragment.identifier_text]. now rewrite H1. }
  assert (Hpi : forall r, r <> [] -> streq (a ++ r) (str "π") = false).
  { intros r Hr. destruct a as [|x [|y a]]; [congruence| |].
    - destruct r as [|z r]; [congruence|]. cbn. now rewrite andb_false_r.
    - cbn. now rewrite andb_false_r. }
  assert (Hid1 : Fragment.identifier_text (a ++ d :: b) = true).
  { rewrite Hstart, forallb_app. cbn [forallb].
    now rewrite (Hpart _ Hla), Hdp, (Hpart _ Hlb). }
  assert (Hid2 : Fragment.identifier_text (a ++ [d]) = true).
  { rewrite Hstart, forallb_app. cbn [forallb].
    now rewrite (Hpart _ Hla), Hdp. }
  assert (Hfix : fixedInput (a ++ d :: b) = a ++ d :: str "*" ++ b).
  { destruct b as [|c b]; [congruence|].
    change (a ++ d :: c :: b) with (a ++ [d] ++ c :: b).
    rewrite app_assoc.
    rewrite fixedInput_digits_letters; auto.
    - now rewrite <- app_assoc.
    - rewrite CalcFacts.fixedInput_app.
      rewrite (no_digit_same _ (letters_no_digit _ Hla)).
      unfold seam. cbn [hd_error].
      replace (is_letter_or_backslash d) with false.
      + now rewrite andb_false_r.
      + symmetry. unfold is_letter_or_backslash. FragmentFacts.classes.
    - apply no_digit_same. now apply letters_no_digit.
    - cbn [forallb] in Hlb. apply andb_prop in Hlb as [Hc _].
      now destruct (letter_facts _ Hc) as (_ & _ & _ & _ & ->). }
  split; [|split; [exact Hfix|]].
  - apply LexerFacts.lex_Lexes. eapply LexSpec.Lexes_token.
    + rewrite <- (app_nil_r (a ++ d :: b)) at 1.
      now apply FragmentFacts.next_token_identifier.
    + now apply LexSpec.Lexes_end.
  - apply product_parsed.
    + cbn [Fragment.shape]. rewrite Hid2, (Hpi [d]); [reflexivity|discriminate].
    + cbn [Fragment.shape]. now rewrite Hidb, Hpib.
    + cbn [Render.astToString].
      rewrite (FragmentFacts.astToString_identifier _ Hid2 (Hpi [d] ltac:(discriminate))).
      rewrite (FragmentFacts.astToString_identifier _ Hidb Hpib).
      rewrite Hfix, <- app_assoc. reflexivity.
Qed.

(** *** Inputs that are always rejected *)

Lemma blank_rejected s :
  forallb is_whitespace s = true ->
  lex s = Some [] /\
  lex_parse s = Some (ThrowError (str "予期せぬ入力の終わりです。式が必要です。")).
Proof.
  intros H.
  assert (Hlex : lex s = Some []).
  { apply LexerFacts.lex_Lexes, LexSpec.Lexes_end.
    unfold LexSpec.next_token.
    replace (LexSpec.drop_whitespace s) with (@nil char); [reflexivity|].
    induction s as [|c s IH]; [reflexivity|].
    cbn [forallb] in H. apply andb_prop in H as [Hc Hs].
    cbn [LexSpec.drop_whitespace]. rewrite Hc. auto. }
  split; [exact Hlex|]. unfold lex_parse. rewrite Hlex.
  cbn [option_map]. f_equal.
Qed.

Lemma kinds_rejected ts :
  forallb (fun t => grammar_kind (type t)) ts = false ->
  exists m, parse ts = ThrowError m.
Proof.
  intros H. destruct (ParserFacts.parse_outcome ts) as [[ast E]|E]; auto.
  rewrite (ParserMore.parse_kinds _ _ E) in H. discriminate.
Qed.

Lemma unknown_rejected s :
  LexSpec.unknown_chars s <> [] ->
  exists m, lex_parse s = Some (ThrowError m).
Proof.
  intros H. destruct (LexerFacts.Lexes_total s) as [ts HL].
  unfold lex_parse. rewrite (LexerFacts.lex_Lexes _ _ HL). cbn [option_map].
  destruct (kinds_rejected ts) as [m E]; [|exists m; now rewrite E].
  pose proof (LexerFacts.Lexes_unknown _ _ HL) as Hu.
  destruct (LexSpec.unknown_chars s) as [|c cs]; [congruence|].
  clear H HL. cbn [map] in Hu.
  induction ts as [|t ts IH]; [discriminate|].
  cbn [filter forallb] in *.
  destruct (LexSpec.is_unknown t) eqn:Et.
  - unfold LexSpec.is_unknown in Et. destruct (type t); try discriminate.
    reflexivity.
  - rewrite (IH Hu). apply andb_false_r.
Qed.

End Pipeline.

(* ================================================================== *)
(** ** Further properties of the code                                  *)
(* ================================================================== *)


(** X2.  The lexer drops nothing but white space: the texts of the
    tokens of an input, one after the other, are the input without its
    white space. *)
Theorem lex_keeps_every_character (s : jsstring) :
  exists ts, lex s = Some ts /\ LexText.text_of ts = LexText.visible s.
Proof.
  destruct (LexerFacts.Lexes_total s) as [ts H]. exists ts. split.
  - now apply LexerFacts.lex_Lexes.
  - now apply LexerMore.Lexes_text.
Qed.

(** X3.  No token goes across white space: the tokens of two texts with
    a white space character between them are the tokens of the first
    followed by the tokens of the second. *)
Theorem whitespace_separates_tokens (a b : jsstring) (w : char)
    (ta tb : list Token) :
  lex a = Some ta -> lex b = Some tb -> is_whitespace w = true ->
  lex (a ++ w :: b) = Some (ta ++ tb).
Proof.
  intros Ha Hb Hw. apply LexerFacts.lex_Lexes.
  apply LexerMore.Lexes_app_ws; auto using LexerFacts.lex_inv.
Qed.

Lemma whitespace_separates_tokens_witness :
  lex (str "1<" ++ 32%N :: str "=2")
  = Some ([number_token (str "1"); symbol_token LESS_THAN "<"]
          ++ [symbol_token EQUALS "="; number_token (str "2")]).
Proof.
  apply whitespace_separates_tokens; vm_compute; reflexivity.
Defined.

(** X4.  The tokens of an input spell themselves: their texts, written
    with one space between two of them, are lexed into the same tokens;
    and the text of each token, lexed alone, is that token. *)
Theorem tokens_spell_themselves (s : jsstring) (ts : list Token) :
  lex s = Some ts ->
  lex (join (str " ") (map value ts)) = Some ts /\
  Forall (fun t => lex (value t) = Some [t]) ts.
Proof.
  intros H. apply LexerFacts.lex_inv in H.
  pose proof (LexerMore.Lexes_alone _ _ H) as Ha. split.
  - now apply LexerFacts.lex_Lexes, LexerMore.Lexes_join.
  - eapply Forall_impl; [|exact Ha]. intros t.
    apply LexerFacts.lex_Lexes.
Qed.

Lemma tokens_spell_themselves_witness :
  lex (str "12 * \pi") = Some [number_token (str "12");
                               symbol_token MULTIPLY "*";
                               symbol_token COMMAND "\pi"] /\
  lex (str "12*\pi") = Some [number_token (str "12");
                             symbol_token MULTIPLY "*";
                             symbol_token COMMAND "\pi"].
Proof.
  split.
  - apply (proj1 (tokens_spell_themselves (str "12*\pi") _ eq_refl)).
  - vm_compute; reflexivity.
Defined.

(** X5.  A tree that [parse] returns holds no [null]: the recovery of
    [parsePrimary] and [parseFracCommand] puts [null] in the tree only
    with a diagnostic, and a diagnostic makes [parse] throw. *)
Theorem parse_returns_no_null (ts : list Token) (ast : Node) :
  Parser.parse ts = Parser.Ok ast -> has_null ast = false.
Proof. apply ParserMore.parse_null_free. Qed.

Lemma parse_returns_no_null_witness :
  has_null
    (BinaryExpression (str "+") (NumberLiteral (str "1"))
       (NumberLiteral (str "2"))) = false.
Proof.
  apply (parse_returns_no_null
           [number_token (str "1"); symbol_token PLUS "+";
            number_token (str "2")]).
  vm_compute; reflexivity.
Defined.

(** X6.  What the lexer lets through, the parser rejects: [parse] throws
    its [Error] for every token sequence with a token of the kind
    [Unknown], [Dot] or end-of-input in it, wherever it stands; so an
    input with a character that no rule of the lexer reads is never
    accepted. *)
Theorem unknown_characters_are_rejected :
  (forall ts,
     forallb (fun t => grammar_kind (type t)) ts = false ->
     exists message, Parser.parse ts = Parser.ThrowError message) /\
  (forall s i c,
     nth_error s i = Some c ->
     LexSpec.rule_matches c (nth_error s (S i)) = false ->
     exists message, lex_parse s = Some (Parser.ThrowError message)).
Proof.
  split.
  - apply Pipeline.kinds_rejected.
  - intros s i c Hc Hm. apply Pipeline.unknown_rejected.
    pose proof (LexerFacts.unknown_chars_nth s i c Hc Hm) as Hin.
    destruct (LexSpec.unknown_chars s); [contradiction|discriminate].
Qed.

Lemma unknown_characters_are_rejected_witness :
  exists message, lex_parse (str "1 # 2") = Some (Parser.ThrowError message).
Proof.
  apply (proj2 unknown_characters_are_rejected (str "1 # 2") 2 35%N);
    reflexivity.
Defined.

(** X7.  An input of white space only, the empty input among them, has
    no token, and [parse] rejects it with the diagnostic of an input
    that ends where an expression has to stand. *)
Theorem blank_input_is_rejected (s : jsstring) :
  forallb is_whitespace s = true ->
  lex s = Some [] /\
  lex_parse s
  = Some (Parser.ThrowError (str "予期せぬ入力の終わりです。式が必要です。")).
Proof. apply Pipeline.blank_rejected. Qed.

Lemma blank_input_is_rejected_witness :
  lex (str "  ") = Some [] /\
  lex_parse (str "  ")
  = Some (Parser.ThrowError (str "予期せぬ入力の終わりです。式が必要です。")).
Proof. apply blank_input_is_rejected. reflexivity. Defined.

(** X8.  The parser reads every tree of its grammar: for a tree built
    by the levels of precedence (with calls, arrays, matrices and
    groups), [parse] returns that very tree for the tokens that spell
    it.  So operators of one level group to the left, and an operator of
    a higher level binds tighter, in every expression. *)
Theorem parser_reads_every_tree (t : Node) :
  Grammar.shape 2 t = true -> Parser.parse (Grammar.toks t) = Parser.Ok t.
Proof. apply GrammarFacts.parse_toks. Qed.

Lemma parser_reads_every_tree_witness :
  Parser.parse
    (Grammar.toks
       (FunctionCall (str "\sin")
          [BinaryExpression (str "-")
             (BinaryExpression (str "-") (Identifier (str "x"))
                (MatrixExpression
                   [[NumberLiteral (str "1"); NumberLiteral (str "2")];
                    [NumberLiteral (str "3"); NumberLiteral (str "4")]]))
             (BinaryExpression (str "*") (NumberLiteral (str "2"))
                (UnaryExpression (str "-") (Identifier (str "y"))))]))
  = Parser.Ok
      (FunctionCall (str "\sin")
         [BinaryExpression (str "-")
            (BinaryExpression (str "-") (Identifier (str "x"))
               (MatrixExpression
                  [[NumberLiteral (str "1"); NumberLiteral (str "2")];
                   [NumberLiteral (str "3"); NumberLiteral (str "4")]]))
            (BinaryExpression (str "*") (NumberLiteral (str "2"))
               (UnaryExpression (str "-") (Identifier (str "y"))))]).
Proof. apply parser_reads_every_tree. vm_compute; reflexivity. Defined.

(** X9.  On inputs without calls, matrices and π, the parser is known
    exactly: for the tokens of an input, [parse] returns a tree if and
    only if the tree is one of the grammar and the tokens are its own,
    in order.  So the parser drops no token, adds none, and there is one
    way to read an accepted input. *)
Theorem parse_is_the_grammar (s : jsstring) (ts : list Token) (t : Node) :
  lex s = Some ts -> Fragment.evaluator_syntax t = false ->
  (Parser.parse ts = Parser.Ok t <->
   Fragment.toks t = ts /\ Fragment.shape 2 t = true).
Proof.
  intros Hlex Hev. split.
  - intros Hp. apply FragmentParser.parse_fragment; auto.
    apply (FragmentFacts.Lexes_canonical s). now apply LexerFacts.lex_inv.
  - intros [<- Hs].
    destruct (RoundTrip.fragment_grammar _ _ Hs) as [Hg <-].
    now apply GrammarFacts.parse_toks.
Qed.

Lemma parse_is_the_grammar_witness :
  Fragment.toks one_plus_two_times_three
  = [number_token (str "1"); symbol_token PLUS "+";
     number_token (str "2"); symbol_token MULTIPLY "*";
     number_token (str "3")] /\
  Fragment.shape 2 one_plus_two_times_three = true.
Proof.
  apply (parse_is_the_grammar (str "1+2*3")); vm_compute; reflexivity.
Defined.

(** X10.  For an accepted input without calls, matrices and π,
    [astToString] writes the input back without its white space: it
    adds no parentheses and drops none. *)
Theorem canonicalizer_drops_only_white_space (s : jsstring) (ast : Node) :
  lex_parse s = Some (Parser.Ok ast) ->
  Fragment.evaluator_syntax ast = false ->
  Render.astToString ast = LexText.visible s.
Proof. apply RoundTrip.render_visible. Qed.

Lemma canonicalizer_drops_only_white_space_witness :
  Render.astToString
    (BinaryExpression (str "-") (NumberLiteral (str "1"))
       (ParenthesizedExpression
          (BinaryExpression (str "-") (NumberLiteral (str "2"))
             (NumberLiteral (str "3")))))
  = LexText.visible (str " 1 - ( 2 - 3 ) ").
Proof.
  apply canonicalizer_drops_only_white_space; vm_compute; reflexivity.
Defined.

(** X11.  Every tree of the grammar without calls, matrices and π,
    whether [parse] made it or not, is read back from the text that
    [astToString] writes for it; so two such trees are never written as
    the same text. *)
Theorem written_tree_is_read_back :
  (forall t,
     Fragment.shape 2 t = true ->
     lex_parse (Render.astToString t) = Some (Parser.Ok t)) /\
  (forall t1 t2,
     Fragment.shape 2 t1 = true -> Fragment.shape 2 t2 = true ->
     Render.astToString t1 = Render.astToString t2 -> t1 = t2).
Proof.
  split; [apply RoundTrip.render_parse|].
  intros t1 t2 H1 H2 E.
  pose proof (RoundTrip.render_parse _ H1) as P1.
  pose proof (RoundTrip.render_parse _ H2) as P2.
  rewrite E in P1. congruence.
Qed.

Lemma written_tree_is_read_back_witness :
  lex_parse (Render.astToString one_plus_two_times_three)
  = Some (Parser.Ok one_plus_two_times_three).
Proof.
  apply (proj1 written_tree_is_read_back). vm_compute; reflexivity.
Defined.

(** X12.  [containsSymbols] answers whether the tree holds an identifier
    other than [e], [pi], the pi glyph and [i], wherever it stands in the
    tree; so [2*pi] has no variable and [2*x] has one. *)
Theorem containsSymbols_finds_variables :
  (forall node,
     Render.containsSymbols node = existsb is_variable (identifiers node)) /\
  Render.containsSymbols
    (BinaryExpression (str "*") (NumberLiteral (str "2"))
       (Identifier (str "pi"))) = false /\
  Render.containsSymbols
    (BinaryExpression (str "*") (NumberLiteral (str "2"))
       (Identifier (str "x"))) = true.
Proof.
  split; [apply RenderFacts.containsSymbols_identifiers|].
  split; vm_compute; reflexivity.
Qed.

(** X13.  The fixed input of [runCalculation] has no digit with a letter
    or a backslash right behind it; a text that has none is left as it
    is, so fixing twice is fixing once; and nothing but asterisks is
    added. *)
Theorem fixedInput_normal_form (s : jsstring) :
  juxtaposed (CalcScript.fixedInput s) = false /\
  (juxtaposed s = false -> CalcScript.fixedInput s = s) /\
  CalcScript.fixedInput (CalcScript.fixedInput s) = CalcScript.fixedInput s /\
  without_stars (CalcScript.fixedInput s) = without_stars s.
Proof.
  repeat split.
  - apply CalcFacts.fixedInput_apart.
  - apply CalcFacts.fixedInput_same.
  - apply CalcFacts.fixedInput_idempotent.
  - apply CalcFacts.fixedInput_stars.
Qed.

Lemma fixedInput_normal_form_witness :
  CalcScript.fixedInput (str "2*x+3*\pi") = str "2*x+3*\pi" /\
  CalcScript.fixedInput (str "2x+3\pi") = str "2*x+3*\pi".
Proof.
  split.
  - apply (proj1 (proj2 (fixedInput_normal_form (str "2*x+3*\pi")))).
    reflexivity.
  - vm_compute; reflexivity.
Defined.

(** X14.  The fixed input of a text in two parts is the fixed inputs of
    the parts, with an asterisk between them exactly when the first part
    ends in a digit and the second starts with a letter or a
    backslash. *)
Theorem fixedInput_of_two_texts (a b : jsstring) :
  CalcScript.fixedInput (a ++ b)
  = CalcScript.fixedInput a ++ seam a b ++ CalcScript.fixedInput b.
Proof. apply CalcFacts.fixedInput_app. Qed.

(** X15.  Implicit multiplication: digits with a name of letters right
    behind them are rejected by the parser as they are, with the
    diagnostic of tokens left over, and are read as the product of the
    number and the name once the input is fixed. *)
Theorem implicit_product (ds name : jsstring) :
  ds <> [] -> forallb is_digit ds = true ->
  name <> [] -> forallb is_letter name = true ->
  CalcScript.fixedInput (ds ++ name) = ds ++ str "*" ++ name /\
  CalcScript.parsedInput (ds ++ name)
  = Some (Parser.Ok
            (BinaryExpression (str "*") (NumberLiteral ds)
               (Identifier name))) /\
  lex_parse (ds ++ name)
  = Some (Parser.ThrowError
            (str "解析が完了しましたが、未処理のトークンが残っています: " ++ name
             ++ str " トークン: " ++ name ++ str " (Identifier)")).
Proof. apply Pipeline.implicit_product_gen. Qed.

Lemma implicit_product_witness :
  CalcScript.parsedInput (str "12" ++ str "ab")
  = Some (Parser.Ok
            (BinaryExpression (str "*") (NumberLiteral (str "12"))
               (Identifier (str "ab")))).
Proof.
  apply (implicit_product (str "12") (str "ab"));
    first [reflexivity | discriminate].
Defined.

(** X16.  The fix reaches into identifiers: a name of letters, a digit
    and letters again is one Identifier token for the lexer, but the
    fixed input has an asterisk behind the digit, so the name is read as
    a product of two names. *)
Theorem identifier_with_a_digit_is_split (a b : jsstring) (d : char) :
  a <> [] -> forallb is_letter a = true -> is_digit d = true ->
  b <> [] -> forallb is_letter b = true ->
  lex (a ++ d :: b) = Some [identifier_token (a ++ d :: b)] /\
  CalcScript.fixedInput (a ++ d :: b) = a ++ d :: str "*" ++ b /\
  CalcScript.parsedInput (a ++ d :: b)
  = Some (Parser.Ok
            (BinaryExpression (str "*") (Identifier (a ++ [d]))
               (Identifier b))).
Proof. apply Pipeline.identifier_split_gen. Qed.

Lemma identifier_with_a_digit_is_split_witness :
  lex (str "x" ++ 50%N :: str "y") = Some [identifier_token (str "x2y")] /\
  CalcScript.fixedInput (str "x" ++ 50%N :: str "y") = str "x2*y" /\
  CalcScript.parsedInput (str "x" ++ 50%N :: str "y")
  = Some (Parser.Ok
            (BinaryExpression (str "*") (Identifier (str "x2"))
               (Identifier (str "y")))).
Proof.
  apply (identifier_with_a_digit_is_split (str "x") (str "y") 50%N);
    first [reflexivity | discriminate].
Defined.
